(** * ChatPal brain (pal_ALONE.py): event routing and delivery coordination

    A shallow embedding of the deduplicator, the token bucket, the
    microphone hysteresis, the relevance scorer, the outbox batcher, the
    comment pipeline and the event listener of [src/pal_ALONE.py], with the
    properties of the specification stated and settled against it; then
    the batcher's worker, the user memory, the speech state, the settings
    loader and the handling of joins, with properties read off the code.

    Conventions of the embedding
    - a Python [str] is a list of Unicode code points ([list N]), so that
      [len] is [length] and slicing is [firstn]/[skipn];
    - readings of [time.time()] and durations are rationals ([Q], seconds),
      and rounding of the clock arithmetic is not modelled, except in the
      microphone monitor, whose levels and clock readings are IEEE binary64
      values and whose comparisons are computed as Python computes them;
    - the relevance score and the reply threshold are IEEE binary64 values
      ([PrimFloat.float]), computed exactly as Python computes them;
    - a Python [dict] is a [gmap]; the [OrderedDict] of the deduplicator is an
      association list in insertion order. *)

From Stdlib Require Import ZArith QArith Qminmax Lqa Lia List Bool String Ascii.
From Stdlib Require Import PrimFloat SpecFloat FloatOps.
From stdpp Require Import base decidable list gmap.

Set Warnings "-inexact-float".
Local Open Scope Z_scope.

(* ===================================================================== *)
(** * Python values: strings, time                                        *)
(* ===================================================================== *)

Module Py.

(** A Unicode code point. *)
Definition char : Type := N.
(** [str]: an immutable sequence of code points. *)
Definition str : Type := list char.

(** An ASCII literal of the source as a [str]. *)
Fixpoint lit (s : string) : str :=
  match s with
  | EmptyString => []
  | String c s' => N_of_ascii c :: lit s'
  end.

(** The three non-ASCII characters of the source's literals. *)
Definition bullet : char := 0x2022%N.    (* U+2022, in the separator *)
Definition ellipsis : char := 0x2026%N.  (* U+2026, appended by _trim *)
Definition arrow : char := 0x2192%N.     (* U+2192, in the reply fragment *)

(** [len(s)] as a Python int. *)
Definition len (s : str) : Z := Z.of_nat (length s).

(** Truthiness of a string: [if text], [not text]. *)
Definition truthy (s : str) : bool :=
  match s with [] => false | _ => true end.

(** [str.isspace] on one character (Unicode whitespace as CPython's
    [_PyUnicode_IsWhitespace] lists it). *)
Definition is_space (c : char) : bool :=
  ((0x09 <=? c) && (c <=? 0x0D) || (0x1C <=? c) && (c <=? 0x20)
   || (c =? 0x85) || (c =? 0xA0) || (c =? 0x1680)
   || (0x2000 <=? c) && (c <=? 0x200A)
   || (c =? 0x2028) || (c =? 0x2029) || (c =? 0x202F) || (c =? 0x205F)
   || (c =? 0x3000))%N.

Fixpoint lstrip (s : str) : str :=
  match s with
  | c :: s' => if is_space c then lstrip s' else s
  | [] => []
  end.

Definition rstrip (s : str) : str := rev (lstrip (rev s)).

(** [s.strip()] *)
Definition strip (s : str) : str := rstrip (lstrip s).

(** [s.startswith(p)] *)
Fixpoint startswith (p s : str) : bool :=
  match p, s with
  | [], _ => true
  | a :: p', b :: s' => (a =? b)%N && startswith p' s'
  | _ :: _, [] => false
  end.

(** [p in s] for strings: substring search. *)
Fixpoint contains (p s : str) : bool :=
  startswith p s ||
  match s with
  | [] => false
  | _ :: s' => contains p s'
  end.

(** [sep.join(parts)] *)
Fixpoint join (sep : str) (parts : list str) : str :=
  match parts with
  | [] => []
  | [p] => p
  | p :: rest => p ++ sep ++ join sep rest
  end.

(** [s.split()]: the maximal runs of non-whitespace characters.
    [cur] is the run being read, reversed. *)
Fixpoint split_ws_aux (cur : str) (s : str) : list str :=
  match s with
  | [] => match cur with [] => [] | _ => [rev cur] end
  | c :: s' =>
      if is_space c
      then match cur with
           | [] => split_ws_aux [] s'
           | _ => rev cur :: split_ws_aux [] s'
           end
      else split_ws_aux (c :: cur) s'
  end.
Definition split (s : str) : list str := split_ws_aux [] s.

(** [s[:n]] for any Python int [n]: a negative bound counts from the end. *)
Definition slice_to (s : str) (n : Z) : str :=
  if n <? 0 then firstn (Z.to_nat (len s + n)) s
  else firstn (Z.to_nat n) s.

(** Lower-casing of the ASCII letters; every other character is left
    alone.  [str.lower] itself is a parameter of the scorer (it needs the
    Unicode case tables); on ASCII text it is this function. *)
Definition ascii_lower_char (c : char) : char :=
  if ((0x41 <=? c) && (c <=? 0x5A))%N then (c + 0x20)%N else c.
Definition ascii_lower (s : str) : str := map ascii_lower_char s.

(** Comparison of clock readings. *)
Definition Qltb (x y : Q) : bool := negb (Qle_bool y x).
Definition Qleb (x y : Q) : bool := Qle_bool x y.

End Py.

Import Py.

(* ===================================================================== *)
(** * EventDeduper (src/pal_ALONE.py, lines 204-220)                      *)
(* ===================================================================== *)

Module EventDeduper.

(** [self._store]: an [OrderedDict] from signature to expiry time, as its
    items in insertion order. *)
Definition ordered_dict : Type := list (str * Q).

Record t : Type := mk { ttl : Z; _store : ordered_dict }.

(** [EventDeduper(ttl)] *)
Definition init (ttl : Z) : t := mk ttl [].

(** [k in d] *)
Definition has_key (k : str) (d : ordered_dict) : bool :=
  existsb (fun kv => bool_decide (fst kv = k)) d.

(** [d.pop(k, None)]: the item of key [k] leaves, the others keep their
    order. *)
Fixpoint pop (k : str) (d : ordered_dict) : ordered_dict :=
  match d with
  | [] => []
  | kv :: d' => if bool_decide (fst kv = k) then d' else kv :: pop k d'
  end.

(** [[k for k, v in d.items() if v < now]] *)
Definition expired (now : Q) (d : ordered_dict) : list str :=
  map fst (List.filter (fun kv => Qltb (snd kv) now) d).

(** [for k in expired: d.pop(k, None)] *)
Definition purge (now : Q) (d : ordered_dict) : ordered_dict :=
  fold_left (fun acc k => pop k acc) (expired now d) d.

(** [d[k] = v] for a key that is not in [d]: the new item goes last.  (For a
    key already present Python overwrites in place; [seen] only assigns
    after [k in d] was false.) *)
Definition setitem (k : str) (v : Q) (d : ordered_dict) : ordered_dict :=
  if has_key k d
  then map (fun kv => if bool_decide (fst kv = k) then (k, v) else kv) d
  else d ++ [(k, v)].

(** [d.popitem(last=False)]: the first item leaves. *)
Definition popitem_first (d : ordered_dict) : ordered_dict := tl d.

(** The hard cap of line 218. *)
Definition hard_cap : Z := 5000.

(** [seen(signature)] at clock reading [now].  The body runs under
    [self._lock] and never awaits inside it, so it is one atomic step. *)
Definition seen (self : t) (now : Q) (signature : str) : bool * t :=
  let store := purge now (_store self) in
  if has_key signature store then (true, mk (ttl self) store)
  else
    let store := setitem signature (now + inject_Z (ttl self))%Q store in
    let store := if hard_cap <? Z.of_nat (length store)
                 then popitem_first store else store in
    (false, mk (ttl self) store).

(** A history of calls, each with its clock reading, from a deduper. *)
Definition run (self : t) (calls : list (Q * str)) : t :=
  fold_left (fun d c => snd (seen d (fst c) (snd c))) calls self.

(** ** The same code with a ghost insertion number on every item

    [n] counts the calls made so far; an item remembers the number of the
    call that inserted it.  Erasing the numbers gives [seen] back
    ([gseen_erases] below). *)
Definition gdict : Type := list (str * Q * nat).

Definition erase (g : gdict) : ordered_dict := map fst g.

Fixpoint gpop (k : str) (g : gdict) : gdict :=
  match g with
  | [] => []
  | e :: g' => if bool_decide (fst (fst e) = k) then g' else e :: gpop k g'
  end.

Definition gpurge (now : Q) (g : gdict) : gdict :=
  fold_left (fun acc k => gpop k acc) (expired now (erase g)) g.

Record ghost : Type :=
  gmk { g_ttl : Z; g_store : gdict; g_calls : nat;
        g_evicted : option (str * Q * nat) }.

Definition ginit (ttl : Z) : ghost := gmk ttl [] 0 None.

Definition gseen (self : ghost) (now : Q) (signature : str) : bool * ghost :=
  let n := g_calls self in
  let store := gpurge now (g_store self) in
  if has_key signature (erase store)
  then (true, gmk (g_ttl self) store (S n) None)
  else
    let store :=
      store ++ [(signature, (now + inject_Z (g_ttl self))%Q, n)] in
    if hard_cap <? Z.of_nat (length store)
    then (false, gmk (g_ttl self) (tl store) (S n) (head store))
    else (false, gmk (g_ttl self) store (S n) None).

Definition grun (self : ghost) (calls : list (Q * str)) : ghost :=
  fold_left (fun d c => snd (gseen d (fst c) (snd c))) calls self.

End EventDeduper.

(* ===================================================================== *)
(** * TokenBucket (src/pal_ALONE.py, lines 441-458)                       *)
(* ===================================================================== *)

Module TokenBucket.

(** [_lock] is the state of the [asyncio.Lock]: [true] while some
    [async with self._lock] block is running. *)
Record t : Type :=
  mk { capacity : Z; tokens : Q; rate : Q; updated : Q; _lock : bool }.

(** [TokenBucket(capacity, rate_per_sec)], constructed at reading [now]. *)
Definition init (capacity0 : Z) (rate_per_sec : Q) (now : Q) : t :=
  mk (Z.max 1 capacity0) (inject_Z capacity0) rate_per_sec now false.

(** How a call of [take] ends.  The bucket belongs to one task (it is a
    local of [process_comments]), so a call that finds the lock held waits
    for a release that only its own suspended caller could issue:
    [Suspended].  [asyncio.Lock] is not reentrant. *)
Inductive outcome : Type :=
| Returned (b : t)      (* the call returned; the lock is free again *)
| Raised (b : t)        (* ZeroDivisionError left the [async with] block *)
| Suspended (b : t)     (* waiting for [self._lock], never woken *)
| OutOfFuel.

Definition set_lock (v : bool) (b : t) : t :=
  mk (capacity b) (tokens b) (rate b) (updated b) v.

(** Lines 450-453: the refill at reading [now].  The difference, the
    product and the sum are exact here; Python rounds each to binary64. *)
Definition refill (now : Q) (b : t) : t :=
  let elapsed := (now - updated b)%Q in
  mk (capacity b)
     (Qmin (inject_Z (capacity b)) (tokens b + elapsed * rate b))
     (rate b) now (_lock b).

(** The argument of [asyncio.sleep] on line 456. *)
Definition sleep_time (b : t) : Q :=
  Qmax (1 # 100) ((1 - tokens b) / rate b).

(** [take()].  [clock i] is the reading of [time.time()] by the [i]-th
    nested call; [asyncio.sleep(sleep_time self)] only lets time pass, it
    changes no field.  The recursive call of line 457 is made inside the
    [async with] block, with the lock held. *)
Fixpoint take (fuel : nat) (clock : nat -> Q) (i : nat) (self : t) : outcome :=
  match fuel with
  | O => OutOfFuel
  | S fuel' =>
      if _lock self then Suspended self
      else
        let self := set_lock true self in
        let self := refill (clock i) self in
        if Qltb (tokens self) 1 then
          if Qeq_bool (rate self) 0 then Raised (set_lock false self)
          else
            match take fuel' clock (S i) self with
            | Returned b => Returned (set_lock false b)
            | Raised b => Raised (set_lock false b)
            | Suspended b => Suspended b
            | OutOfFuel => OutOfFuel
            end
        else
          Returned
            (set_lock false
               (mk (capacity self) (tokens self - 1) (rate self)
                   (updated self) (_lock self)))
  end.

End TokenBucket.

(* ===================================================================== *)
(** * MicState and MicrophoneMonitor (lines 172-197 and 502-541)          *)
(* ===================================================================== *)

Module Mic.

(** [MicState]: the flag [_active].  The two [asyncio.Event]s mirror it and
    the two timestamps are written but never read; they are left out. *)
Record MicState : Type := mkMic { _active : bool }.

Definition mic_init : MicState := mkMic false.
Definition mark_active (m : MicState) : MicState :=
  if negb (_active m) then mkMic true else m.
Definition mark_idle (m : MicState) : MicState :=
  if _active m then mkMic false else m.
Definition is_active (m : MicState) : bool := _active m.

(** The fields of [MicrophoneMonitor] that [_callback] reads and writes.
    The threshold, the level and the clock readings are binary64 values,
    the two durations are Python ints. *)
Record MicrophoneMonitor : Type :=
  mk { threshold : float; attack_ms : Z; release_ms : Z;
       _last_above : float; _last_below : float; _attack_reached : bool }.

(** [MicrophoneMonitor(cfg)], constructed at clock reading [t0]. *)
Definition init (threshold0 : float) (attack release : Z) (t0 : float)
  : MicrophoneMonitor :=
  mk threshold0 attack release 0%float t0 false.

(** One audio block: its RMS level and the clock reading of line 528. *)
Definition sample : Type := (float * float)%type.
Definition rms (s : sample) : float := fst s.
Definition at_time (s : sample) : float := snd s.

(** [x >= n] for a float [x] and an int [n]: Python compares the two
    values exactly; a NaN is not [>=] anything. *)
Definition ge_int (x : float) (n : Z) : bool :=
  match Prim2SF x with
  | S754_nan => false
  | S754_infinity neg => negb neg
  | S754_zero _ => n <=? 0
  | S754_finite neg m e =>
      let v := if neg then Z.neg m else Z.pos m in
      if 0 <=? e then n <=? v * 2 ^ e else n * 2 ^ (- e) <=? v
  end.

(** [(now - since) * 1000], in binary64. *)
Definition elapsed_ms (now since : float) : float :=
  ((now - since) * 1000)%float.

(** [_callback]: lines 528-539, on the level [rms] computed above them. *)
Definition _callback (st : MicrophoneMonitor * MicState) (s : sample)
  : MicrophoneMonitor * MicState :=
  let '(self, mic) := st in
  let now := at_time s in
  if (threshold self <=? rms s)%float then
    let self :=
      if negb (_attack_reached self)
      then mk (threshold self) (attack_ms self) (release_ms self)
              now (_last_below self) true
      else self in
    let mic :=
      if ge_int (elapsed_ms now (_last_above self)) (attack_ms self)
      then mark_active mic else mic in
    (mk (threshold self) (attack_ms self) (release_ms self)
        (_last_above self) now (_attack_reached self), mic)
  else
    if ge_int (elapsed_ms now (_last_below self)) (release_ms self)
    then (mk (threshold self) (attack_ms self) (release_ms self)
             (_last_above self) (_last_below self) false, mark_idle mic)
    else (self, mic).

(** The callbacks of a sequence of blocks, in order. *)
Definition run (st : MicrophoneMonitor * MicState) (samples : list sample)
  : MicrophoneMonitor * MicState :=
  fold_left _callback samples st.

(** [rms >= threshold]; a NaN level is not above the threshold. *)
Definition above (th : float) (s : sample) : bool := (th <=? rms s)%float.

(** The above-threshold blocks that end a sequence, without a
    below-threshold block between them: the current excursion. *)
Fixpoint excursion_rev (th : float) (rev_samples : list sample)
  : list sample :=
  match rev_samples with
  | s :: r => if above th s then s :: excursion_rev th r else []
  | [] => []
  end.
Definition excursion (th : float) (samples : list sample) : list sample :=
  rev (excursion_rev th (rev samples)).

(** The claim as the specification words it, for the block [s] that follows
    [pre]: the signal has stayed above the threshold, without a break, for
    at least [attack] milliseconds when [s] arrives. *)
Definition stayed_above_for (th : float) (attack : Z) (pre : list sample)
  (s : sample) : Prop :=
  match excursion th (pre ++ [s]) with
  | first :: _ => ge_int (elapsed_ms (at_time s) (at_time first)) attack = true
  | [] => False
  end.

(** The reading of the last above-threshold block of [pre]; [t0], the
    reading at which the monitor was made, when there is none. *)
Definition last_loud (th : float) (t0 : float) (pre : list sample) : float :=
  fold_left (fun t s => if above th s then at_time s else t) pre t0.

(** The block [r] that follows [pre] completes a release: it is below the
    threshold and comes at least [release] ms after the last
    above-threshold block (after [t0] when there is none). *)
Definition released (th : float) (release : Z) (t0 : float)
  (pre : list sample) (r : sample) : Prop :=
  above th r = false /\
  ge_int (elapsed_ms (at_time r) (last_loud th t0 pre)) release = true.

(** [f] is the first above-threshold block of [hist] since the monitor was
    made or since the last completed release: [hist] is [pre1], which is
    empty or ends with a block that completes a release, then blocks below
    the threshold, then [f], then blocks none of which completes a
    release. *)
Definition first_loud_since_release (th : float) (release : Z) (t0 : float)
  (hist : list sample) (f : sample) : Prop :=
  exists pre1 quiet mid,
    hist = pre1 ++ quiet ++ f :: mid /\
    (pre1 = [] \/
     exists pre0 r, pre1 = pre0 ++ [r] /\ released th release t0 pre0 r) /\
    Forall (fun q => above th q = false) quiet /\
    above th f = true /\
    (forall m1 r m2, mid = m1 ++ r :: m2 ->
       ~ released th release t0 (pre1 ++ quiet ++ f :: m1) r).

End Mic.

(* ===================================================================== *)
(** * _trim, send_to_animaze and OutboxBatcher (lines 270-280, 460-498)    *)
(* ===================================================================== *)

Module Outbox.

(** [_trim(s)]; [maxlen] is [cfg["style"]["max_line_length"]]. *)
Definition _trim (maxlen : Z) (s : str) : str :=
  let s := strip s in
  if len s <=? maxlen then s else slice_to s (maxlen - 1) ++ [ellipsis].

(** [send_to_animaze(text)] on the unbounded [message_queue]: the queue
    after the call. *)
Definition send_to_animaze (maxlen : Z) (message_queue : list str)
  (text : str) : list str :=
  if negb (truthy text) then message_queue
  else
    let t := _trim maxlen text in
    message_queue ++ [t].

Record OutboxBatcher : Type :=
  mk { window_s : Z; max_items : Z; max_chars : Z; sep : str;
       buffer : list str; first_ts : option Q }.

(** [OutboxBatcher(window_s, max_items, max_chars, sep)] *)
Definition init (window_s0 max_items0 max_chars0 : Z) (sep0 : str)
  : OutboxBatcher :=
  mk window_s0 max_items0 max_chars0 sep0 [] None.

(** [_flush_locked()]: the batcher and the message queue after it. *)
Definition _flush_locked (maxlen : Z) (self : OutboxBatcher)
  (message_queue : list str) : OutboxBatcher * list str :=
  match buffer self with
  | [] => (self, message_queue)
  | _ =>
      let payload := join (sep self) (buffer self) in
      (mk (window_s self) (max_items self) (max_chars self) (sep self)
          [] None,
       send_to_animaze maxlen message_queue payload)
  end.

(** [add(text)] at clock reading [now]. *)
Definition add (maxlen : Z) (now : Q) (self : OutboxBatcher)
  (message_queue : list str) (text : str) : OutboxBatcher * list str :=
  if negb (truthy text) then (self, message_queue)
  else
    let self :=
      mk (window_s self) (max_items self) (max_chars self) (sep self)
         (buffer self ++ [strip text])
         (match first_ts self with None => Some now | Some ts => Some ts end)
    in
    let joined := join (sep self) (buffer self) in
    if (max_chars self <? len joined)
       || (max_items self <=? Z.of_nat (length (buffer self)))
    then _flush_locked maxlen self message_queue
    else (self, message_queue).

(** The flush condition as the specification words it: the joined length
    exceeds the character cap or the item count exceeds the item cap. *)
Definition exceeds_a_cap (self : OutboxBatcher) (items : list str) : bool :=
  (max_chars self <? len (join (sep self) items))
  || (max_items self <? Z.of_nat (length items)).

(** The flush condition of line 477: the item count reaches the cap. *)
Definition flush_due (self : OutboxBatcher) (items : list str) : bool :=
  (max_chars self <? len (join (sep self) items))
  || (max_items self <=? Z.of_nat (length items)).

(** The separator of the default settings. *)
Definition default_sep : str := lit " " ++ [bullet] ++ lit " ".

End Outbox.

(* ===================================================================== *)
(** * Relevance (lines 382-414)                                           *)
(* ===================================================================== *)

Module Relevance.

Section WithRuntime.

(** [str.lower] and the three compiled patterns' [search] belong to the
    Python runtime ([str], [re]); they are parameters of the scorer.
    [url_re] is [https?://|\bdiscord\.gg\b], [greetings_re] and
    [thanks_re] are the word lists of lines 388-389 between [\b]. *)
Variable lower : str -> str.
Variables url_re greetings_re thanks_re : str -> bool.

Record conf : Type :=
  mkConf { keywords_bonus : list str; ignore_if_startswith : list str;
           ignore_contains_conf : list str }.

Record t : Type :=
  mk { kw_bonus : list str; ignore_sw : list str;
       ignore_contains : list str }.

(** [Relevance(conf)] *)
Definition init (c : conf) : t :=
  mk (map lower (keywords_bonus c)) (map lower (ignore_if_startswith c))
     (map lower (ignore_contains_conf c)).

Definition is_ignored (self : t) (text : str) : bool :=
  let low := strip (lower text) in
  if existsb (fun s => startswith s low) (ignore_sw self) then true
  else if existsb (fun c => contains c low) (ignore_contains self) then true
  else if url_re low then true
  else false.

Definition is_greeting (self : t) (text : str) : bool := greetings_re text.
Definition is_thanks (self : t) (text : str) : bool := thanks_re text.

(** [min(1.0, score)]: the second argument wins only when it is smaller. *)
Definition min1 (score : float) : float :=
  if (score <? 1)%float then score else 1%float.

Definition score (self : t) (text : str) : float :=
  let low := strip (lower text) in
  let score := 0%float in
  let score := if contains (lit "?") low then (score + 0.6)%float else score in
  let score :=
    if existsb (fun k => contains k low) (kw_bonus self)
    then (score + 0.35)%float else score in
  let score := if 7 <=? len low then (score + 0.1)%float else score in
  let score :=
    if existsb (fun p => contains p low) [lit ":"; lit ";"; lit "!"]
    then (score + 0.05)%float else score in
  min1 score.

End WithRuntime.

(** The key words of [DEFAULT_SETTINGS]. *)
Definition default_keywords : list str :=
  map lit ["warum"; "wieso"; "wie"; "wann"; "wo"; "wer"; "was"; "welche";
           "welcher"; "welches"; "why"; "how"; "when"; "where"; "who";
           "what"; "which"; "how much"; "how many"]%string.

Definition default_conf : conf :=
  mkConf default_keywords [lit "!"]
         [lit "http://"; lit "https://"; lit "discord.gg"].

(** The sum of the bonuses that apply, in the order of the code, clamped. *)
Definition bonus_sum (question keyword long punct : bool) : float :=
  min1 (fold_left PrimFloat.add
          [if question then 0.6 else 0; if keyword then 0.35 else 0;
           if long then 0.1 else 0; if punct then 0.05 else 0]%float
          0%float).

(** The score as the specification words it: the four tests are made on the
    comment text itself and on the key words as configured. *)
Definition score_as_worded (keywords : list str) (text : str) : float :=
  bonus_sum (contains (lit "?") text)
            (existsb (fun k => contains k text) keywords)
            (7 <=? len text)
            (existsb (fun p => contains p text) [lit ":"; lit ";"; lit "!"]).

End Relevance.

(* ===================================================================== *)
(** * The comment pipeline: process_comments (lines 627-701),
      ResponseEngine.reply_to_comment (421-439), touch_viewer, _mem_user   *)
(* ===================================================================== *)

Module Pipeline.

(** What the pipeline takes from outside the repository: the Python
    runtime ([str.lower], the compiled patterns' [search]) and the clock.
    [clock i] is the [i]-th reading of [time.time()]. *)
Record Runtime : Type :=
  mkRuntime { lower : str -> str; url_re : str -> bool;
              greetings_re : str -> bool; thanks_re : str -> bool;
              clock : nat -> Q }.

(** The ["comment"] section of the settings, and [style.max_line_length]. *)
Record comment_cfg : Type :=
  mkCfg { enabled : Z; global_cooldown : Z; per_user_cooldown : Z;
          min_length : Z; max_replies_per_min : Z;
          reply_threshold_cfg : float;
          respond_to_greetings : Z; greeting_cooldown : Z;
          respond_to_thanks : Z; relevance : Relevance.conf;
          max_line_length : Z }.

(** An entry of [viewers]. *)
Record Viewer : Type :=
  mkViewer { v_nick : str; joined : Q; last_active : Q; greeted : bool }.

(** An entry of [MEMORY["users"]].  [last_greet] may be missing in a record
    read from the memory file; [u.get("last_greet", 0)] then reads 0. *)
Record User : Type :=
  mkUser { first_seen : Q; last_seen : Q; nickname : str;
           likes : Z; gifts : Z; follows : Z; subs : Z; shares : Z;
           joins : Z; messages : list str; last_greet : option Q;
           background : list (str * str) }.

Definition get_last_greet (u : User) : Q := default 0%Q (last_greet u).

(** An item of [comment_queue]. *)
Record Item : Type := mkItem { uid : str; nick : str; text : str }.

(** What an iteration does that the properties speak of. *)
Inductive event : Type :=
| EvSleep (seconds : Q)               (* asyncio.sleep *)
| EvGenerate (nick text uid : str)    (* the text-generation call *)
| EvAdd (fragment : str).             (* batcher.add(fragment) *)

Record World : Type :=
  mkWorld { tick : nat;
            viewers : gmap str Viewer;
            users : gmap str User;
            batcher : option Outbox.OutboxBatcher;
            message_queue : list str;
            comment_queue : list Item;
            bucket : TokenBucket.t;
            next_allowed_global : Q;
            per_user_until_local : gmap str Q;
            trace : list event }.

Definition set_tick (v : nat) (w : World) : World :=
  mkWorld v (viewers w) (users w) (batcher w) (message_queue w)
    (comment_queue w) (bucket w) (next_allowed_global w)
    (per_user_until_local w) (trace w).
Definition set_viewers (v : gmap str Viewer) (w : World) : World :=
  mkWorld (tick w) v (users w) (batcher w) (message_queue w)
    (comment_queue w) (bucket w) (next_allowed_global w)
    (per_user_until_local w) (trace w).
Definition set_users (v : gmap str User) (w : World) : World :=
  mkWorld (tick w) (viewers w) v (batcher w) (message_queue w)
    (comment_queue w) (bucket w) (next_allowed_global w)
    (per_user_until_local w) (trace w).
Definition set_batcher (v : option Outbox.OutboxBatcher) (w : World) : World :=
  mkWorld (tick w) (viewers w) (users w) v (message_queue w)
    (comment_queue w) (bucket w) (next_allowed_global w)
    (per_user_until_local w) (trace w).
Definition set_message_queue (v : list str) (w : World) : World :=
  mkWorld (tick w) (viewers w) (users w) (batcher w) v (comment_queue w)
    (bucket w) (next_allowed_global w) (per_user_until_local w) (trace w).
Definition set_comment_queue (v : list Item) (w : World) : World :=
  mkWorld (tick w) (viewers w) (users w) (batcher w) (message_queue w) v
    (bucket w) (next_allowed_global w) (per_user_until_local w) (trace w).
Definition set_bucket (v : TokenBucket.t) (w : World) : World :=
  mkWorld (tick w) (viewers w) (users w) (batcher w) (message_queue w)
    (comment_queue w) v (next_allowed_global w) (per_user_until_local w)
    (trace w).
Definition set_next_allowed_global (v : Q) (w : World) : World :=
  mkWorld (tick w) (viewers w) (users w) (batcher w) (message_queue w)
    (comment_queue w) (bucket w) v (per_user_until_local w) (trace w).
Definition set_per_user_until_local (v : gmap str Q) (w : World) : World :=
  mkWorld (tick w) (viewers w) (users w) (batcher w) (message_queue w)
    (comment_queue w) (bucket w) (next_allowed_global w) v (trace w).
Definition set_trace (v : list event) (w : World) : World :=
  mkWorld (tick w) (viewers w) (users w) (batcher w) (message_queue w)
    (comment_queue w) (bucket w) (next_allowed_global w)
    (per_user_until_local w) v.

(** The locals that [process_comments] computes once, before its loop. *)
Record Locals : Type :=
  mkLocals { global_cd : Z; per_user_cd : Z; reply_threshold : float;
             resp_greet : bool; greet_cd : Z; resp_thanks : bool;
             scorer : Relevance.t; min_len : Z; maxlen : Z }.

(** How a piece of the loop body ends: normally, suspended for good (a
    lock that is never released), or with an exception, which the
    [except Exception] of line 700 logs. *)
Inductive result (A : Type) : Type :=
| Ok (a : A) (w : World)
| Suspend (w : World)
| Raise (w : World).
Arguments Ok {A}. Arguments Suspend {A}. Arguments Raise {A}.

Definition M (A : Type) : Type := World -> result A.

Definition ret {A} (a : A) : M A := fun w => Ok a w.
Definition bind {A B} (m : M A) (k : A -> M B) : M B :=
  fun w =>
    match m w with
    | Ok a w' => k a w'
    | Suspend w' => Suspend w'
    | Raise w' => Raise w'
    end.
Definition gets {A} (f : World -> A) : M A := fun w => Ok (f w) w.
Definition modify (f : World -> World) : M unit := fun w => Ok tt (f w).

Notation "'do' x <- m ; k" := (bind m (fun x => k))
  (at level 10, x name, m at level 100, k at level 200).
Notation "m >> k" := (bind m (fun _ => k))
  (at level 100, k at level 200, right associativity).

Section Body.

Variable rt : Runtime.

(** Lines 636-643: the reply threshold the loop compares with. *)
Definition effective_threshold (configured : float) : float :=
  if (0.8 <? configured)%float then 0.4%float else configured.

(** [bool(int(x))] *)
Definition truth (x : Z) : bool := negb (x =? 0).

(** Lines 628-651. *)
Definition startup (c : comment_cfg) : Locals :=
  mkLocals (global_cooldown c) (per_user_cooldown c)
           (effective_threshold (reply_threshold_cfg c))
           (truth (respond_to_greetings c)) (greeting_cooldown c)
           (truth (respond_to_thanks c))
           (Relevance.init (lower rt) (relevance c))
           (min_length c) (max_line_length c).

(** [time.time()] *)
Definition time_time : M Q :=
  fun w => Ok (clock rt (tick w)) (set_tick (S (tick w)) w).

(** [await asyncio.sleep(seconds)] *)
Definition sleep (seconds : Q) : M unit :=
  modify (fun w => set_trace (trace w ++ [EvSleep seconds]) w).

(** The bucket, the global timer and the per-user timers at line 649-651,
    in a world where the batcher already exists. *)
Definition startup_world (c : comment_cfg) (w : World) : World :=
  set_per_user_until_local ∅
    (set_next_allowed_global 0%Q
       (set_bucket
          (TokenBucket.init (max_replies_per_min c)
             (inject_Z (Z.max 1 (max_replies_per_min c)) / 60)%Q
             (clock rt (tick w)))
          (set_tick (S (tick w)) w))).

(** [touch_viewer(uid, nick)] *)
Definition touch_viewer (uid0 nick0 : str) : M Viewer :=
  do now <- time_time;
  do vs <- gets viewers;
  let v := default (mkViewer (if truthy nick0 then nick0 else uid0)
                             now now false) (vs !! uid0) in
  let v := if truthy nick0
           then mkViewer nick0 (joined v) (last_active v) (greeted v)
           else v in
  let v := mkViewer (v_nick v) (joined v) now (greeted v) in
  modify (set_viewers (<[uid0 := v]> vs)) >> ret v.

(** [_mem_user(uid)].  The [deque] of a new record is made with the
    [per_user_history] of the settings as its [maxlen], 100 by default; a
    negative one, at which the constructor raises [ValueError], is not part
    of this model of the pipeline. *)
Definition _mem_user (uid0 : str) : M User :=
  do us <- gets users;
  match us !! uid0 with
  | Some u => ret u
  | None =>
      do t1 <- time_time;
      do t2 <- time_time;
      let u := mkUser t1 t2 [] 0 0 0 0 0 0 [] (Some 0%Q) [] in
      modify (set_users (<[uid0 := u]> us)) >> ret u
  end.

(** [u["last_greet"] = now] on the record of [uid] that [_mem_user] gave:
    the record is the one stored in [MEMORY]. *)
Definition set_last_greet (uid0 : str) (u : User) (now : Q) : M unit :=
  modify (fun w =>
    set_users
      (<[uid0 := mkUser (first_seen u) (last_seen u) (nickname u) (likes u)
                   (gifts u) (follows u) (subs u) (shares u) (joins u)
                   (messages u) (Some now) (background u)]> (users w)) w).

(** [await bucket.take()].  Two steps of [TokenBucket.take] decide its
    outcome ([take_two_steps_decide] below). *)
Definition bucket_take : M unit :=
  fun w =>
    match TokenBucket.take 2 (clock rt) (tick w) (bucket w) with
    | TokenBucket.Returned b => Ok tt (set_bucket b (set_tick (S (tick w)) w))
    | TokenBucket.Raised b => Raise (set_bucket b (set_tick (S (tick w)) w))
    | TokenBucket.Suspended b => Suspend (set_bucket b w)
    | TokenBucket.OutOfFuel => Suspend w
    end.

(** Lines 673-674 (and 684-685, 693-694): wait for the global cooldown. *)
Definition wait_global : M unit :=
  do t <- time_time;
  do nag <- gets next_allowed_global;
  if Qltb t nag then
    do t' <- time_time;
    sleep (Qmax (1 # 100) (nag - t'))
  else ret tt.

(** [if batcher: await batcher.add(fragment)].  [add] reads the clock only
    for the first fragment of a batch. *)
Definition batcher_add (l : Locals) (fragment : str) : M unit :=
  fun w =>
    match batcher w with
    | None => Ok tt w
    | Some b =>
        let reads :=
          if truthy fragment
          then match Outbox.first_ts b with None => 1%nat | Some _ => 0%nat end
          else 0%nat in
        let '(b', q') :=
          Outbox.add (maxlen l) (clock rt (tick w)) b (message_queue w)
            fragment in
        Ok tt (set_trace (trace w ++ [EvAdd fragment])
                 (set_message_queue q'
                    (set_batcher (Some b')
                       (set_tick (tick w + reads)%nat w))))
    end.

(** Lines 677-678 (and 688-689, 698-699): both timers. *)
Definition set_cooldowns (l : Locals) (uid0 : str) : M unit :=
  do t <- time_time;
  modify (set_next_allowed_global (t + inject_Z (global_cd l))%Q) >>
  do t' <- time_time;
  modify (fun w =>
    set_per_user_until_local
      (<[uid0 := (t' + inject_Z (per_user_cd l))%Q]> (per_user_until_local w))
      w).

(** [ResponseEngine.reply_to_comment]: the answer of the chat-completion
    call is [response], [None] when the call raised or timed out (line
    437); the prompt only goes to that call.  Lines 432-436 shorten the
    answer. *)
Definition reply_to_comment (response : option str) (nick0 text0 uid0 : str)
  : M (option str) :=
  modify (fun w => set_trace (trace w ++ [EvGenerate nick0 text0 uid0]) w) >>
  match response with
  | None => ret None
  | Some content =>
      let reply := strip content in
      let words := split reply in
      if 18 <? Z.of_nat (length words)
      then ret (Some (join (lit " ") (firstn 18 words) ++ lit "."))
      else ret (Some reply)
  end.

(** Lines 668-679: the greeting fast path; the result is [quick]. *)
Definition greeting_path (l : Locals) (it : Item) (now : Q) : M bool :=
  if resp_greet l && Relevance.is_greeting (greetings_re rt) (scorer l) (text it)
     && negb (contains (lit "?") (text it))
     && (Z.of_nat (length (split (text it))) <=? 4)
  then
    do u <- _mem_user (uid it);
    if Qleb (inject_Z (greet_cd l)) (now - get_last_greet u) then
      set_last_greet (uid it) u now >>
      bucket_take >>
      wait_global >>
      batcher_add l (nick it ++ lit " sagt hallo") >>
      set_cooldowns l (uid it) >>
      ret true
    else ret false
  else ret false.

(** Lines 682-690: the thanks fast path. *)
Definition thanks_path (l : Locals) (it : Item) : M unit :=
  bucket_take >>
  wait_global >>
  batcher_add l (nick it ++ lit " bedankt sich") >>
  set_cooldowns l (uid it).

(** Lines 691-699: the scored reply. *)
Definition reply_path (l : Locals) (it : Item) (response : option str)
  : M unit :=
  bucket_take >>
  wait_global >>
  do reply <- reply_to_comment response (nick it) (text it) (uid it);
  do b <- gets batcher;
  match reply, b with
  | Some r, Some _ =>
      if truthy r then
        batcher_add l (lit "@" ++ nick it ++ lit ": " ++ text it
                       ++ lit " " ++ [arrow] ++ lit " " ++ r) >>
        set_cooldowns l (uid it)
      else ret tt
  | _, _ => ret tt
  end.

(** Lines 655-699: the body of the loop for the dequeued [item];
    [response] is what the chat-completion call answers if it is made. *)
Definition body (l : Locals) (it : Item) (response : option str) : M unit :=
  touch_viewer (uid it) (nick it) >>
  do now <- time_time;
  if (len (text it) <? min_len l)
     || Relevance.is_ignored (lower rt) (url_re rt) (scorer l) (text it)
  then ret tt
  else
    do until <- gets per_user_until_local;
    if Qltb now (default 0%Q (until !! uid it)) then
      sleep (5 # 100) >>
      modify (fun w => set_comment_queue (comment_queue w ++ [it]) w)
    else
      let score := Relevance.score (lower rt) (scorer l) (text it) in
      do quick <- greeting_path l it now;
      if quick then ret tt
      else if resp_thanks l && Relevance.is_thanks (thanks_re rt) (scorer l) (text it)
      then thanks_path l it
      else if (reply_threshold l <=? score)%float
      then reply_path l it response
      else ret tt.

(** The world after [touch_viewer] and the clock reading of line 659. *)
Definition after_touch (it : Item) (w : World) : World :=
  match (touch_viewer (uid it) (nick it) >> time_time) w with
  | Ok _ w' => w'
  | Suspend w' => w'
  | Raise w' => w'
  end.

(** One turn of [process_comments]' loop for the settings [c]: take the next
    item; with comments disabled (lines 629-631) drop it; otherwise run the
    body and, at an exception, log it and go on.  [None]: the queue is
    empty (the task waits) or the body never returns. *)
Definition process_comments_turn (c : comment_cfg) (response : option str)
  (w : World) : option World :=
  match comment_queue w with
  | [] => None
  | it :: rest =>
      if negb (truth (enabled c)) then Some (set_comment_queue rest w)
      else
        match body (startup c) it response (set_comment_queue rest w) with
        | Ok _ w' => Some w'
        | Raise w' => Some w'
        | Suspend _ => None
        end
  end.

End Body.

(** The cooldown of the greeting of [uid], as lines 670 and 614 read it. *)
Definition greet_cooldown_of (w : World) (uid0 : str) : Q :=
  match users w !! uid0 with
  | Some u => get_last_greet u
  | None => 0%Q
  end.

(** The ["comment"] section of [DEFAULT_SETTINGS] and the default line
    length. *)
Definition default_cfg : comment_cfg :=
  mkCfg 1 6 15 3 20 0.6%float 1 360 1 Relevance.default_conf 140.

(** A runtime to evaluate the model on ASCII text: ASCII lower-casing, the
    patterns as plain substring tests, a clock that starts at 1000 s and
    advances one second per reading. *)
Definition ascii_runtime : Runtime :=
  mkRuntime ascii_lower
    (fun s => contains (lit "http://") s || contains (lit "https://") s
              || contains (lit "discord.gg") s)
    (fun s => existsb (fun g => contains g (ascii_lower s))
                (map lit ["hallo"; "hey"; "servus"; "moin"; "hello"]%string))
    (fun s => existsb (fun g => contains g (ascii_lower s))
                (map lit ["danke"; "thx"; "thanks"; "merci"]%string))
    (fun i => inject_Z (1000 + Z.of_nat i)).

(** The world [start_all] and the first lines of [process_comments] leave:
    the batcher of the default settings, empty queues and tables, a full
    bucket. *)
Definition fresh_world (rt : Runtime) (c : comment_cfg) : World :=
  startup_world rt c
    (mkWorld 0 ∅ ∅ (Some (Outbox.init 8 8 320 Outbox.default_sep)) [] []
       (TokenBucket.init 0 0 0) 0%Q ∅ []).

(** The world after the body, when it comes to its end. *)
Definition after_body (rt : Runtime) (l : Locals) (it : Item)
  (response : option str) (w : World) : World :=
  match body rt l it response w with
  | Ok _ w' => w'
  | Suspend w' => w'
  | Raise w' => w'
  end.

(** The fragments an event list hands to the batcher. *)
Definition added (evs : list event) : list str :=
  flat_map (fun e => match e with EvAdd f => [f] | _ => [] end) evs.

(** The text-generation calls of an event list. *)
Definition generated (evs : list event) : nat :=
  length (List.filter (fun e => match e with EvGenerate _ _ _ => true
                                        | _ => false end) evs).

End Pipeline.

(* ===================================================================== *)
(** * The event handlers of tiktok_listener (lines 802-873)               *)
(* ===================================================================== *)

Module Listener.

(** [evt.user]: [uniqueId], [id] and [nickname], each [""] when missing. *)
Record UserInfo : Type :=
  mkUser { uniqueId : str; id : str; nickname : str }.

(** The audience events the client delivers. *)
Inductive payload : Type :=
| Comment (comment : str)
| Gift (name : str) (repeat_count : Z)
| Follow
| Subscribe
| Like (count : Z)
| Share
| Join.

Record LiveEvent : Type := mkEvent { user : UserInfo; what : payload }.

(** The deduplicator, the seven queues, the attribute [on_follow._last] and
    the number of clock readings made.  [touch_viewer] and
    [remember_event], which the comment and join handlers call after the
    deduplicator, write neither of these and are left out. *)
Record State : Type :=
  mkState { deduper : EventDeduper.t;
            comment_queue : list Pipeline.Item;
            gift_queue : list LiveEvent; like_queue : list LiveEvent;
            join_queue : list LiveEvent; follow_queue : list LiveEvent;
            share_queue : list LiveEvent; subscribe_queue : list LiveEvent;
            follow_last : Q; tick : nat }.

Section Handlers.

(** From outside the repository: [str.lower], the URL pattern, SHA-1 as a
    hex digest, [str] of an integer, and the clock. *)
Variable lower : str -> str.
Variable url_re : str -> bool.
Variable sha1_hexdigest : str -> str.
Variable str_of_int : Z -> str.
Variable clock : nat -> Q.

(** [min_len], [scorer] and [global_cooldown] of line 802-804 and 838. *)
Variable min_len : Z.
Variable scorer : Relevance.t.
Variable global_cooldown : Z.

(** [getattr(evt.user, "uniqueId", "") or getattr(evt.user, "id", "")] *)
Definition uid_of (u : UserInfo) : str :=
  if truthy (uniqueId u) then uniqueId u else id u.

(** [make_sig(prefix, *parts)] on parts already rendered by [str]. *)
Definition make_sig (prefix : str) (parts : list str) : str :=
  sha1_hexdigest (prefix ++ lit "|" ++ join (lit "|") parts).

(** [await deduper.seen(sig)]: one clock reading. *)
Definition seen (sig : str) (st : State) : bool * State :=
  let '(dup, d) := EventDeduper.seen (deduper st) (clock (tick st)) sig in
  (dup,
   mkState d (comment_queue st) (gift_queue st) (like_queue st)
     (join_queue st) (follow_queue st) (share_queue st) (subscribe_queue st)
     (follow_last st) (S (tick st))).

Definition put_comment (it : Pipeline.Item) (st : State) : State :=
  mkState (deduper st) (comment_queue st ++ [it]) (gift_queue st)
    (like_queue st) (join_queue st) (follow_queue st) (share_queue st)
    (subscribe_queue st) (follow_last st) (tick st).
Definition put_gift (e : LiveEvent) (st : State) : State :=
  mkState (deduper st) (comment_queue st) (gift_queue st ++ [e])
    (like_queue st) (join_queue st) (follow_queue st) (share_queue st)
    (subscribe_queue st) (follow_last st) (tick st).
Definition put_like (e : LiveEvent) (st : State) : State :=
  mkState (deduper st) (comment_queue st) (gift_queue st)
    (like_queue st ++ [e]) (join_queue st) (follow_queue st) (share_queue st)
    (subscribe_queue st) (follow_last st) (tick st).
Definition put_join (e : LiveEvent) (st : State) : State :=
  mkState (deduper st) (comment_queue st) (gift_queue st)
    (like_queue st) (join_queue st ++ [e]) (follow_queue st) (share_queue st)
    (subscribe_queue st) (follow_last st) (tick st).
Definition put_follow (e : LiveEvent) (st : State) : State :=
  mkState (deduper st) (comment_queue st) (gift_queue st)
    (like_queue st) (join_queue st) (follow_queue st ++ [e]) (share_queue st)
    (subscribe_queue st) (follow_last st) (tick st).
Definition put_share (e : LiveEvent) (st : State) : State :=
  mkState (deduper st) (comment_queue st) (gift_queue st)
    (like_queue st) (join_queue st) (follow_queue st) (share_queue st ++ [e])
    (subscribe_queue st) (follow_last st) (tick st).
Definition put_subscribe (e : LiveEvent) (st : State) : State :=
  mkState (deduper st) (comment_queue st) (gift_queue st)
    (like_queue st) (join_queue st) (follow_queue st) (share_queue st)
    (subscribe_queue st ++ [e]) (follow_last st) (tick st).

(** Lines 811-827. *)
Definition on_comment (evt : LiveEvent) (comment : str) (st : State) : State :=
  let txt := strip comment in
  let low := lower txt in
  if (len low <? min_len) || Relevance.is_ignored lower url_re scorer low
  then st
  else
    let uid := uid_of (user evt) in
    if negb (truthy uid) then st
    else
      let nick := if truthy (nickname (user evt))
                  then nickname (user evt) else uid in
      let sig := make_sig (lit "comment") [uid; low] in
      let '(dup, st) := seen sig st in
      if dup then st
      else put_comment (Pipeline.mkItem uid nick low) st.

(** Lines 828-834. *)
Definition on_gift (evt : LiveEvent) (name : str) (repeat_count : Z)
  (st : State) : State :=
  let uid := uid_of (user evt) in
  let sig := make_sig (lit "gift") [uid; name; str_of_int repeat_count] in
  let '(dup, st) := seen sig st in
  if dup then st else put_gift evt st.

(** Lines 835-845. *)
Definition on_follow (evt : LiveEvent) (st : State) : State :=
  let now := clock (tick st) in
  let st := mkState (deduper st) (comment_queue st) (gift_queue st)
              (like_queue st) (join_queue st) (follow_queue st)
              (share_queue st) (subscribe_queue st) (follow_last st)
              (S (tick st)) in
  if Qltb (now - follow_last st) (inject_Z global_cooldown) then st
  else
    let st := mkState (deduper st) (comment_queue st) (gift_queue st)
                (like_queue st) (join_queue st) (follow_queue st)
                (share_queue st) (subscribe_queue st) now (tick st) in
    let uid := uid_of (user evt) in
    let sig := make_sig (lit "follow") [uid] in
    let '(dup, st) := seen sig st in
    if dup then st else put_follow evt st.

(** Lines 846-852. *)
Definition on_subscribe (evt : LiveEvent) (st : State) : State :=
  let uid := uid_of (user evt) in
  let sig := make_sig (lit "subscribe") [uid] in
  let '(dup, st) := seen sig st in
  if dup then st else put_subscribe evt st.

(** Lines 853-855. *)
Definition on_like (evt : LiveEvent) (st : State) : State :=
  put_like evt st.

(** Lines 856-862. *)
Definition on_share (evt : LiveEvent) (st : State) : State :=
  let uid := uid_of (user evt) in
  let sig := make_sig (lit "share") [uid] in
  let '(dup, st) := seen sig st in
  if dup then st else put_share evt st.

(** Lines 863-873. *)
Definition on_join (evt : LiveEvent) (st : State) : State :=
  let uid := uid_of (user evt) in
  if negb (truthy uid) then st
  else
    let sig := make_sig (lit "join") [uid] in
    let '(dup, st) := seen sig st in
    if dup then st else put_join evt st.

(** The client's dispatch on the event type ([@client.on(...)]). *)
Definition dispatch (evt : LiveEvent) (st : State) : State :=
  match what evt with
  | Comment c => on_comment evt c st
  | Gift n k => on_gift evt n k st
  | Follow => on_follow evt st
  | Subscribe => on_subscribe evt st
  | Like _ => on_like evt st
  | Share => on_share evt st
  | Join => on_join evt st
  end.

(** The fingerprint a handler computes for an event, for the categories
    whose handler computes one. *)
Definition fingerprint (evt : LiveEvent) : option str :=
  let uid := uid_of (user evt) in
  match what evt with
  | Comment c => Some (make_sig (lit "comment") [uid; lower (strip c)])
  | Gift n k => Some (make_sig (lit "gift") [uid; n; str_of_int k])
  | Follow => Some (make_sig (lit "follow") [uid])
  | Subscribe => Some (make_sig (lit "subscribe") [uid])
  | Like _ => None
  | Share => Some (make_sig (lit "share") [uid])
  | Join => Some (make_sig (lit "join") [uid])
  end.

(** The number of events waiting in the seven queues. *)
Definition enqueued (st : State) : nat :=
  (length (comment_queue st) + length (gift_queue st)
   + length (like_queue st) + length (join_queue st)
   + length (follow_queue st) + length (share_queue st)
   + length (subscribe_queue st))%nat.

End Handlers.

End Listener.

(* ===================================================================== *)
(** * OutboxBatcher.worker (lines 481-490)                                *)
(* ===================================================================== *)

Module Worker.
Import Outbox.

(** [self.first_ts or time.time()]: [None] and [0.0] are both falsy. *)
Definition first_ts_or (self : OutboxBatcher) (now : Q) : Q :=
  match first_ts self with
  | Some ts => if Qeq_bool ts 0 then now else ts
  | None => now
  end.

(** One turn of [OutboxBatcher.worker] (lines 482-490) after its sleep:
    [mic_active] and [speaking] are [mic.is_active()] and
    [speech.is_speaking()]; [now1] and [now2] are the two readings of
    [time.time()] on line 489, the second made only when [first_ts] is
    falsy. *)
Definition worker_turn (maxlen : Z) (mic_active speaking : bool)
  (now1 now2 : Q) (self : OutboxBatcher) (message_queue : list str)
  : OutboxBatcher * list str :=
  if mic_active || speaking then (self, message_queue)
  else
    match buffer self with
    | [] => (self, message_queue)
    | _ =>
        if Qleb (inject_Z (window_s self)) (now1 - first_ts_or self now2)
        then _flush_locked maxlen self message_queue
        else (self, message_queue)
    end.

(** What the tasks do to a batcher: a fragment is added, the worker takes a
    turn. *)
Inductive op : Type :=
| Add (now : Q) (text : str)
| Turn (mic_active speaking : bool) (now1 now2 : Q).

Definition apply_op (maxlen : Z) (st : OutboxBatcher * list str) (o : op)
  : OutboxBatcher * list str :=
  match o with
  | Add now text => add maxlen now (fst st) (snd st) text
  | Turn m s now1 now2 => worker_turn maxlen m s now1 now2 (fst st) (snd st)
  end.

Definition run (maxlen : Z) (st : OutboxBatcher * list str) (ops : list op)
  : OutboxBatcher * list str :=
  fold_left (apply_op maxlen) ops st.

(** [add] of each fragment in turn, at the readings given with them. *)
Definition add_all (maxlen : Z) (st : OutboxBatcher * list str)
  (fragments : list (Q * str)) : OutboxBatcher * list str :=
  run maxlen st (map (fun f => Add (fst f) (snd f)) fragments).

End Worker.

(* ===================================================================== *)
(** * The user memory (lines 121-125, 315-364)                            *)
(* ===================================================================== *)

Module Memory.

(** [u["messages"]]: a [list] in a record read from the memory file, a
    [deque] with a [maxlen] in a record that [_mem_user] made. *)
Inductive history : Type :=
| PyList (items : list str)
| Deque (maxlen : Z) (items : list str).

Definition items_of (h : history) : list str :=
  match h with PyList l => l | Deque _ l => l end.

Definition is_list (h : history) : bool :=
  match h with PyList _ => true | Deque _ _ => false end.

(** The last [n] elements. *)
Definition lastn {A} (n : nat) (l : list A) : list A :=
  skipn (length l - n) l.

(** [deque(init, maxlen=maxlen)]; a negative [maxlen] is a [ValueError]. *)
Definition deque (init : list str) (maxlen : Z) : option history :=
  if maxlen <? 0 then None
  else Some (Deque maxlen (lastn (Z.to_nat maxlen) init)).

(** [h.append(x)]: a full deque drops its oldest element. *)
Definition append (h : history) (x : str) : history :=
  match h with
  | PyList l => PyList (l ++ [x])
  | Deque m l => Deque m (lastn (Z.to_nat m) (l ++ [x]))
  end.

(** An entry of [MEMORY["users"]] with every key that [_mem_user] writes. *)
Record User : Type :=
  mkUser { first_seen : Q; last_seen : Q; nickname : str;
           likes : Z; gifts : Z; follows : Z; subs : Z; shares : Z;
           joins : Z; messages : history; last_greet : Q;
           background : list (str * str) }.

(** The ["memory"] section of the settings. *)
Record mem_cfg : Type :=
  mkCfg { enabled : Z; per_user_history : Z; decay_days : Z }.

(** [MEMORY["users"]], what the memory file holds of it ([None]: not
    written yet), and the number of clock readings made. *)
Record t : Type :=
  mk { users : gmap str User; file : option (gmap str User); tick : nat }.

(** The arguments of a call of [remember_event]. *)
Record call : Type :=
  mkCall { uid : str; c_nickname : str; like_inc : Z; gift_inc : Z;
           follow : bool; sub : bool; share : bool; join : bool;
           message : option str; c_background : list (str * str) }.

(** [d.update(other)] on a dict as its items in insertion order. *)
Fixpoint dict_set (k v : str) (d : list (str * str)) : list (str * str) :=
  match d with
  | [] => [(k, v)]
  | (k', v') :: d' =>
      if bool_decide (k' = k) then (k, v) :: d' else (k', v') :: dict_set k v d'
  end.
Definition dict_update (d other : list (str * str)) : list (str * str) :=
  fold_left (fun acc kv => dict_set (fst kv) (snd kv) acc) other d.

(** [json.dump] writes lists; for a [deque] it raises [TypeError]. *)
Definition serializable (us : gmap str User) : bool :=
  bool_decide (map_Forall (fun _ u => is_list (messages u) = true) us).

Section WithSettings.

Variable clock : nat -> Q.
Variable cfg : mem_cfg.

(** [_mem_user(uid)]: the record of [uid], made and stored if there is
    none.  [None]: the [deque] constructor raised. *)
Definition _mem_user (uid0 : str) (st : t) : option (User * t) :=
  match users st !! uid0 with
  | Some u => Some (u, st)
  | None =>
      let t1 := clock (tick st) in
      let t2 := clock (S (tick st)) in
      match deque [] (per_user_history cfg) with
      | None => None
      | Some h =>
          let u := mkUser t1 t2 [] 0 0 0 0 0 0 h 0 [] in
          Some (u, mk (<[uid0 := u]> (users st)) (file st) (S (S (tick st))))
      end
  end.

(** [save_memory(MEMORY, file)] inside [try: ... except Exception: pass]:
    the file is replaced only after [json.dump] has written all of it. *)
Definition try_save (st : t) : t :=
  if serializable (users st) then mk (users st) (Some (users st)) (tick st)
  else st.

(** The record after lines 339-361. *)
Definition updated (c : call) (now : Q) (u : User) : User :=
  mkUser (first_seen u) now
    (if truthy (c_nickname c) then c_nickname c else nickname u)
    (if negb (like_inc c =? 0) then likes u + like_inc c else likes u)
    (if negb (gift_inc c =? 0) then gifts u + gift_inc c else gifts u)
    (if follow c then follows u + 1 else follows u)
    (if sub c then subs u + 1 else subs u)
    (if share c then shares u + 1 else shares u)
    (if join c then joins u + 1 else joins u)
    (match message c with
     | Some m => if truthy m then append (messages u) m else messages u
     | None => messages u
     end)
    (last_greet u)
    (match c_background c with
     | [] => background u
     | b => dict_update (background u) b
     end).

(** [remember_event(uid, nickname, like_inc=..., ...)].  [None]: the
    exception of [_mem_user] leaves the function. *)
Definition remember_event (c : call) (st : t) : option t :=
  if enabled cfg =? 0 then Some st
  else
    match _mem_user (uid c) st with
    | None => None
    | Some (u, st) =>
        let now := clock (tick st) in
        let u := updated c now u in
        Some (try_save (mk (<[uid c := u]> (users st)) (file st)
                          (S (tick st))))
    end.

(** Calls one after the other; an exception ends the run. *)
Fixpoint remember_all (cs : list call) (st : t) : option t :=
  match cs with
  | [] => Some st
  | c :: cs' =>
      match remember_event c st with
      | Some st' => remember_all cs' st'
      | None => None
      end
  end.

End WithSettings.

(** What the calls for [who] say, in order. *)
Definition said (who : str) (cs : list call) : list str :=
  flat_map (fun c =>
    if bool_decide (uid c = who)
    then match message c with
         | Some m => if truthy m then [m] else []
         | None => []
         end
    else []) cs.

(** A counter over the calls for [who]. *)
Definition total (who : str) (f : call -> Z) (cs : list call) : Z :=
  fold_right Z.add 0
    (map (fun c => if bool_decide (uid c = who) then f c else 0) cs).

Definition flag (b : bool) : Z := if b then 1 else 0.

End Memory.

(* ===================================================================== *)
(** * SpeechState and handle_animaze_messages (lines 134-168, 247-268)    *)
(* ===================================================================== *)

Module Speech.

(** The two [asyncio.Event]s, each as its flag. *)
Record SpeechState : Type := mk { _started : bool; _ended : bool }.

(** [SpeechState()] *)
Definition init : SpeechState := mk false true.

Definition mark_started (self : SpeechState) : SpeechState :=
  let self := mk (_started self) false in   (* self._ended.clear() *)
  mk true (_ended self).                    (* self._started.set() *)

Definition mark_ended (self : SpeechState) : SpeechState :=
  let self := mk false (_ended self) in     (* self._started.clear() *)
  mk (_started self) true.                  (* self._ended.set() *)

Definition is_speaking (self : SpeechState) : bool :=
  _started self && negb (_ended self).

(** [wait_idle()] returns without waiting when [_ended] is set. *)
Definition idle_now (self : SpeechState) : bool := _ended self.

(** A JSON value as far as the handler looks at it: a string, or something
    else with its truth value. *)
Inductive jval : Type :=
| JStr (s : str)
| JOther (truth : bool).

Definition jtruthy (v : jval) : bool :=
  match v with JStr s => truthy s | JOther b => b end.

(** What [json.loads(raw)] gives for a frame: a [JSONDecodeError], a value
    that is no object (it has no [get]), or an object with the values, if
    any, of its keys ["action"] and ["event"]. *)
Inductive frame : Type :=
| Unparsable
| NotObject
| Object (action event : option jval).

(** [msg.get("action") or msg.get("event") or ""] *)
Definition act_of (action event : option jval) : jval :=
  let a := default (JOther false) action in
  if jtruthy a then a
  else
    let e := default (JOther false) event in
    if jtruthy e then e else JStr [].

Definition is_str (v : jval) (s : str) : bool :=
  match v with JStr s' => bool_decide (s' = s) | JOther _ => false end.

(** The body of the loop for one frame; [None]: an exception leaves the
    loop. *)
Definition on_frame (f : frame) (speech : SpeechState) : option SpeechState :=
  match f with
  | Unparsable => Some speech
  | NotObject => None
  | Object action event =>
      let act := act_of action event in
      if is_str act (lit "ChatbotSpeechStarted") then Some (mark_started speech)
      else if is_str act (lit "ChatbotSpeechEnded") then Some (mark_ended speech)
      else Some speech
  end.

(** The loop over the frames that arrive before the connection ends: the
    state when the loop is left. *)
Fixpoint receive (frames : list frame) (speech : SpeechState) : SpeechState :=
  match frames with
  | [] => speech
  | f :: rest =>
      match on_frame f speech with
      | Some speech' => receive rest speech'
      | None => speech
      end
  end.

(** [handle_animaze_messages()] up to its [finally]. *)
Definition handle_animaze_messages (frames : list frame)
  (speech : SpeechState) : SpeechState :=
  mark_ended (receive frames speech).

(** The speech actions among the frames that the loop reads: [true] for a
    start, [false] for an end. *)
Fixpoint speech_actions (frames : list frame) : list bool :=
  match frames with
  | [] => []
  | Unparsable :: rest => speech_actions rest
  | NotObject :: _ => []
  | Object action event :: rest =>
      let act := act_of action event in
      if is_str act (lit "ChatbotSpeechStarted") then true :: speech_actions rest
      else if is_str act (lit "ChatbotSpeechEnded")
           then false :: speech_actions rest
           else speech_actions rest
  end.

End Speech.

(* ===================================================================== *)
(** * load_settings (lines 83-102)                                        *)
(* ===================================================================== *)

Module Settings.

(** A JSON value as [merge] looks at it: a dict, as its items in insertion
    order, or any other value ([L] is the type of those). *)
#[local] Unset Elimination Schemes.
Inductive json (L : Type) : Type :=
| JLeaf (x : L)
| JDict (items : list (str * json L)).
#[local] Set Elimination Schemes.
Arguments JLeaf {L}. Arguments JDict {L}.

Section WithLeaves.
Context {L : Type}.

(** [d.get(k)] *)
Fixpoint lookup (k : str) (d : list (str * json L)) : option (json L) :=
  match d with
  | [] => None
  | (k', v) :: d' => if bool_decide (k' = k) then Some v else lookup k d'
  end.

(** [d[k] = v] *)
Fixpoint set (k : str) (v : json L) (d : list (str * json L))
  : list (str * json L) :=
  match d with
  | [] => [(k, v)]
  | (k', v') :: d' =>
      if bool_decide (k' = k) then (k', v) :: d' else (k', v') :: set k v d'
  end.

(** [d.setdefault(k, v)] *)
Definition setdefault (k : str) (v : json L) (d : list (str * json L))
  : list (str * json L) :=
  match lookup k d with
  | Some _ => d
  | None => d ++ [(k, v)]
  end.

(** [merge(a, b)].  [None]: an [AttributeError], because [a] (or [b]) is
    no dict where one is used as one. *)
Fixpoint merge (a b : json L) {struct b} : option (json L) :=
  match b with
  | JLeaf _ => None
  | JDict items =>
      (fix go (a : json L) (items : list (str * json L)) {struct items}
         : option (json L) :=
         match items with
         | [] => Some a
         | (k, v) :: rest =>
             match a with
             | JLeaf _ => None
             | JDict d =>
                 match v with
                 | JDict _ =>
                     match merge (default (JDict []) (lookup k d)) v with
                     | Some m => go (JDict (set k m d)) rest
                     | None => None
                     end
                 | JLeaf _ => go (JDict (setdefault k v d)) rest
                 end
             end
         end) a items
  end.

(** The loop of [merge] over the items of [b]. *)
Fixpoint merge_items (a : json L) (items : list (str * json L))
  : option (json L) :=
  match items with
  | [] => Some a
  | (k, v) :: rest =>
      match a with
      | JLeaf _ => None
      | JDict d =>
          match v with
          | JDict _ =>
              match merge (default (JDict []) (lookup k d)) v with
              | Some m => merge_items (JDict (set k m d)) rest
              | None => None
              end
          | JLeaf _ => merge_items (JDict (setdefault k v d)) rest
          end
      end
  end.

(** [load_settings()] for the defaults [defaults]: [file] is [None] when
    there is no settings file, [Some None] when it cannot be read or
    parsed, [Some (Some cfg)] when it holds [cfg].  The result is what is
    returned (and saved); [None]: an exception leaves the function. *)
Definition load_settings (defaults : json L) (file : option (option (json L)))
  : option (json L) :=
  match file with
  | None => Some defaults
  | Some None => Some defaults
  | Some (Some cfg) => merge cfg defaults
  end.

(** The value at a path of keys. *)
Fixpoint get (path : list str) (j : json L) : option (json L) :=
  match path with
  | [] => Some j
  | k :: p =>
      match j with
      | JDict d => match lookup k d with Some v => get p v | None => None end
      | JLeaf _ => None
      end
  end.

End WithLeaves.

End Settings.

(* ===================================================================== *)
(** * Joins and the other audience events (lines 585-625, 703-781)        *)
(* ===================================================================== *)

Module Joins.

(** The ["join_rules"] section of the settings. *)
Record join_rules : Type :=
  mkRules { enabled : Z; greet_after_seconds : Z; active_ttl_seconds : Z;
            min_idle_since_last_output_sec : Z;
            greet_global_cooldown_sec : Z }.

(** The settings these functions read. *)
Record settings : Type :=
  mkSettings { rules : join_rules; greeting_cooldown : Z; like_threshold : Z;
               memory : Memory.mem_cfg; max_line_length : Z }.

(** [viewers], [MEMORY] and its file, the batcher and the delivery queue,
    [PENDING_JOINS], the keys of [greet_tasks],
    [LAST_JOIN_ANNOUNCE_TS], the number of clock readings made, and the
    fragments handed to [batcher.add] so far. *)
Record World : Type :=
  mkWorld { tick : nat;
            viewers : gmap str Pipeline.Viewer;
            users : gmap str Memory.User;
            file : option (gmap str Memory.User);
            batcher : option Outbox.OutboxBatcher;
            message_queue : list str;
            pending_joins : gset str;
            greet_tasks : gset str;
            last_join_announce_ts : Q;
            handed : list str }.

Definition set_tick (v : nat) (w : World) : World :=
  mkWorld v (viewers w) (users w) (file w) (batcher w) (message_queue w)
    (pending_joins w) (greet_tasks w) (last_join_announce_ts w) (handed w).
Definition set_viewers (v : gmap str Pipeline.Viewer) (w : World) : World :=
  mkWorld (tick w) v (users w) (file w) (batcher w) (message_queue w)
    (pending_joins w) (greet_tasks w) (last_join_announce_ts w) (handed w).
Definition set_users (v : gmap str Memory.User) (w : World) : World :=
  mkWorld (tick w) (viewers w) v (file w) (batcher w) (message_queue w)
    (pending_joins w) (greet_tasks w) (last_join_announce_ts w) (handed w).
Definition set_pending_joins (v : gset str) (w : World) : World :=
  mkWorld (tick w) (viewers w) (users w) (file w) (batcher w)
    (message_queue w) v (greet_tasks w) (last_join_announce_ts w) (handed w).
Definition set_greet_tasks (v : gset str) (w : World) : World :=
  mkWorld (tick w) (viewers w) (users w) (file w) (batcher w)
    (message_queue w) (pending_joins w) v (last_join_announce_ts w) (handed w).
Definition set_last_join_announce_ts (v : Q) (w : World) : World :=
  mkWorld (tick w) (viewers w) (users w) (file w) (batcher w)
    (message_queue w) (pending_joins w) (greet_tasks w) v (handed w).

(** How the handling of an event ends: normally, or with an exception,
    which the [except Exception] of line 756 logs. *)
Inductive outcome : Type :=
| Done (w : World)
| Threw (w : World).

Definition world_of (o : outcome) : World :=
  match o with Done w => w | Threw w => w end.

Section WithSettings.

Variable clock : nat -> Q.
Variable str_of_int : Z -> str.
Variable s : settings.

(** [touch_viewer(uid, nick)] *)
Definition touch_viewer (uid nick : str) (w : World)
  : Pipeline.Viewer * World :=
  let now := clock (tick w) in
  let v := default (Pipeline.mkViewer (if truthy nick then nick else uid)
                      now now false) (viewers w !! uid) in
  let v := if truthy nick
           then Pipeline.mkViewer nick (Pipeline.joined v)
                  (Pipeline.last_active v) (Pipeline.greeted v)
           else v in
  let v := Pipeline.mkViewer (Pipeline.v_nick v) (Pipeline.joined v) now
             (Pipeline.greeted v) in
  (v, set_viewers (<[uid := v]> (viewers w)) (set_tick (S (tick w)) w)).

(** [should_consider_present(uid)] *)
Definition should_consider_present (uid : str) (w : World) : bool * World :=
  match viewers w !! uid with
  | None => (false, w)
  | Some v =>
      (Qleb (clock (tick w) - Pipeline.last_active v)
            (inject_Z (active_ttl_seconds (rules s))),
       set_tick (S (tick w)) w)
  end.

(** [MEMORY] as the functions of the memory see it, and back. *)
Definition memory_of (w : World) : Memory.t :=
  Memory.mk (users w) (file w) (tick w).
Definition with_memory (m : Memory.t) (w : World) : World :=
  mkWorld (Memory.tick m) (viewers w) (Memory.users m) (Memory.file m)
    (batcher w) (message_queue w) (pending_joins w) (greet_tasks w)
    (last_join_announce_ts w) (handed w).

(** [_mem_user(uid)]; at the [ValueError] of the [deque] constructor the
    two readings of lines 319-320 have been made. *)
Definition _mem_user (uid : str) (w : World) : Memory.User * World + World :=
  match Memory._mem_user clock (memory s) uid (memory_of w) with
  | Some (u, m) => inl (u, with_memory m w)
  | None => inr (set_tick (S (S (tick w))) w)
  end.

(** [remember_event(...)] *)
Definition remember_event (c : Memory.call) (w : World) : outcome :=
  match Memory.remember_event clock (memory s) c (memory_of w) with
  | Some m => Done (with_memory m w)
  | None => Threw (set_tick (S (S (tick w))) w)
  end.

(** [if batcher: await batcher.add(text)] *)
Definition batcher_add (text : str) (w : World) : World :=
  match batcher w with
  | None => w
  | Some b =>
      let reads :=
        if truthy text
        then match Outbox.first_ts b with None => 1%nat | Some _ => 0%nat end
        else 0%nat in
      let '(b', q') :=
        Outbox.add (max_line_length s) (clock (tick w)) b (message_queue w)
          text in
      mkWorld (tick w + reads)%nat (viewers w) (users w) (file w) (Some b') q'
        (pending_joins w) (greet_tasks w) (last_join_announce_ts w)
        (handed w ++ [text])
  end.

(** The task [schedule_greeting(uid)] once its sleep is over (lines
    607-625); nothing else runs between its lines. *)
Definition greet (uid : str) (w : World) : World :=
  match viewers w !! uid with
  | None => w
  | Some v =>
      if Pipeline.greeted v then w
      else
        match _mem_user uid w with
        | inr w => w
        | inl (u, w) =>
            let t := clock (tick w) in
            let w := set_tick (S (tick w)) w in
            if Qltb (t - Memory.last_greet u)
                    (inject_Z (greeting_cooldown s))
            then w
            else
              let '(present, w) := should_consider_present uid w in
              if negb present then w
              else
                let w :=
                  set_viewers
                    (<[uid := Pipeline.mkViewer (Pipeline.v_nick v)
                                (Pipeline.joined v) (Pipeline.last_active v)
                                true]> (viewers w)) w in
                let t := clock (tick w) in
                let w := set_tick (S (tick w)) w in
                let w :=
                  set_users
                    (<[uid := Memory.mkUser (Memory.first_seen u)
                                (Memory.last_seen u) (Memory.nickname u)
                                (Memory.likes u) (Memory.gifts u)
                                (Memory.follows u) (Memory.subs u)
                                (Memory.shares u) (Memory.joins u)
                                (Memory.messages u) t
                                (Memory.background u)]> (users w)) w in
                set_pending_joins ({[Pipeline.v_nick v]} ∪ pending_joins w) w
        end
  end.

(** [schedule_greeting(uid)] *)
Definition schedule_greeting (uid : str) (w : World) : World :=
  if enabled (rules s) =? 0 then w
  else
    let w := greet uid w in
    set_greet_tasks (greet_tasks w ∖ {[uid]}) w.

(** Lines 717-753: the body of the loop over [done] for one event. *)
Definition handle_event (evt : Listener.LiveEvent) (w : World) : outcome :=
  let u := Listener.user evt in
  let uid := if truthy (Listener.uniqueId u) then Listener.uniqueId u
             else Listener.id u in
  if negb (truthy uid) then Done w
  else
    let nick := if truthy (Listener.nickname u) then Listener.nickname u
                else uid in
    let w := snd (touch_viewer uid nick w) in
    let then_add (o : outcome) (text : str) : outcome :=
      match o with
      | Done w => Done (batcher_add text w)
      | Threw w => Threw w
      end in
    match Listener.what evt with
    | Listener.Gift gname repeat_count =>
        let count := if repeat_count =? 0 then 1 else repeat_count in
        then_add
          (remember_event
             (Memory.mkCall uid nick 0 count false false false false None [])
             w)
          (nick ++ lit " sent " ++ gname ++ lit " x" ++ str_of_int count)
    | Listener.Join =>
        match remember_event
                (Memory.mkCall uid nick 0 0 false false false true None []) w
        with
        | Done w =>
            if enabled (rules s) =? 0 then Done w
            else
              let w := set_greet_tasks ({[uid]} ∪ greet_tasks w) w in
              Done (set_pending_joins ({[nick]} ∪ pending_joins w) w)
        | Threw w => Threw w
        end
    | Listener.Follow =>
        then_add
          (remember_event
             (Memory.mkCall uid nick 0 0 true false false false None []) w)
          (nick ++ lit " followed")
    | Listener.Share =>
        then_add
          (remember_event
             (Memory.mkCall uid nick 0 0 false false true false None []) w)
          (nick ++ lit " shared")
    | Listener.Subscribe =>
        then_add
          (remember_event
             (Memory.mkCall uid nick 0 0 false true false false None []) w)
          (nick ++ lit " subscribed")
    | Listener.Like count =>
        if like_threshold s <=? count then
          then_add
            (remember_event
               (Memory.mkCall uid nick count 0 false false false false None [])
               w)
            (nick ++ lit " liked x" ++ str_of_int count)
        else Done w
    | Listener.Comment _ => Done w
    end.

(** One turn of [process_event_batch] for the events [done] whose [get]
    completed: an exception ends the turn. *)
Fixpoint process_event_batch_turn (done : list Listener.LiveEvent)
  (w : World) : World :=
  match done with
  | [] => w
  | evt :: rest =>
      match handle_event evt w with
      | Done w => process_event_batch_turn rest w
      | Threw w => w
      end
  end.

(** [list(PENDING_JOINS)[:20]]: the set has its own order; [elements]
    stands for it. *)
Definition names_of (pending : gset str) : list str :=
  firstn 20 (elements pending).

(** One turn of [join_announcer_worker] after its sleep (lines 762-781);
    [speaking], [mic_active] and [last_output_ts] are
    [speech.is_speaking()], [mic.is_active()] and [LAST_OUTPUT_TS]. *)
Definition join_announcer_turn (speaking mic_active : bool)
  (last_output_ts : Q) (w : World) : World :=
  match batcher w with
  | None => w
  | Some _ =>
      if speaking || mic_active then w
      else if bool_decide (pending_joins w = ∅) then w
      else
        let t1 := clock (tick w) in
        let w := set_tick (S (tick w)) w in
        if Qltb (t1 - last_output_ts)
                (inject_Z (min_idle_since_last_output_sec (rules s)))
        then w
        else
          let t2 := clock (tick w) in
          let w := set_tick (S (tick w)) w in
          if Qltb (t2 - last_join_announce_ts w)
                  (inject_Z (greet_global_cooldown_sec (rules s)))
          then w
          else
            let names := names_of (pending_joins w) in
            let w :=
              set_pending_joins (pending_joins w ∖ list_to_set names) w in
            match names with
            | [] => w
            | _ =>
                let w :=
                  batcher_add (lit "Neu dabei: " ++ join (lit ", ") names) w in
                let t3 := clock (tick w) in
                set_last_join_announce_ts t3 (set_tick (S (tick w)) w)
            end
  end.

(** What the tasks do, one step at a time. *)
Inductive op : Type :=
| Events (done : list Listener.LiveEvent)
| Greeting (uid : str)
| Announce (speaking mic_active : bool) (last_output_ts : Q).

Definition apply_op (w : World) (o : op) : World :=
  match o with
  | Events done => process_event_batch_turn done w
  | Greeting uid => schedule_greeting uid w
  | Announce sp m t => join_announcer_turn sp m t w
  end.

Definition run (ops : list op) (w : World) : World :=
  fold_left apply_op ops w.

End WithSettings.

End Joins.

(* ===================================================================== *)
(** * Properties                                                          *)
(* ===================================================================== *)

(** ** Clock comparisons *)

Lemma Qltb_lt x y : Qltb x y = true <-> (x < y)%Q.
Proof.
  unfold Qltb. rewrite negb_true_iff.
  destruct (Qle_bool y x) eqn:E.
  - apply Qle_bool_iff in E. split; [discriminate | intros H; exfalso; lra].
  - split; [intros _ | reflexivity].
    destruct (Qlt_le_dec x y) as [H|H]; [exact H|].
    apply Qle_bool_iff in H. congruence.
Qed.

Lemma Qltb_ge x y : Qltb x y = false <-> (y <= x)%Q.
Proof. unfold Qltb. rewrite negb_false_iff. apply Qle_bool_iff. Qed.

Lemma Qleb_le x y : Qleb x y = true <-> (x <= y)%Q.
Proof. apply Qle_bool_iff. Qed.

Lemma Qleb_gt x y : Qleb x y = false <-> (y < x)%Q.
Proof.
  rewrite <- Qltb_lt. unfold Qltb, Qleb.
  destruct (Qle_bool x y); simpl; split; congruence.
Qed.

(** ** EventDeduper *)

Section DeduperFacts.
Import EventDeduper.

(** A dictionary holds each key once. *)
Definition is_dict (d : ordered_dict) : Prop := List.NoDup (map fst d).

Lemma has_key_In k d : has_key k d = true <-> In k (map fst d).
Proof.
  unfold has_key. rewrite existsb_exists, in_map_iff. split.
  - intros (kv & Hin & Hk). apply bool_decide_eq_true in Hk. eauto.
  - intros (kv & Hk & Hin). exists kv. split; [done|]. by apply bool_decide_eq_true.
Qed.

Lemma has_key_false k d : has_key k d = false <-> ~ In k (map fst d).
Proof. rewrite <- has_key_In. destruct (has_key k d); split; congruence. Qed.

Lemma pop_keys_incl k d x : In x (map fst (pop k d)) -> In x (map fst d).
Proof.
  induction d as [|kv d IH]; simpl; [done|].
  case_bool_decide; simpl; tauto.
Qed.

Lemma pop_is_dict k d : is_dict d -> is_dict (pop k d).
Proof.
  unfold is_dict. induction d as [|kv d IH]; simpl; [done|].
  intros H. apply List.NoDup_cons_iff in H as [Hn Hd].
  case_bool_decide; [done|]. simpl. apply List.NoDup_cons_iff. split; [|auto].
  intros Hin. apply Hn. eapply pop_keys_incl, Hin.
Qed.

Lemma pop_length k d : (length (pop k d) <= length d)%nat.
Proof.
  induction d as [|kv d IH]; simpl; [lia|]. case_bool_decide; simpl; lia.
Qed.

Lemma fold_pop_length ks d :
  (length (fold_left (fun acc k => pop k acc) ks d) <= length d)%nat.
Proof.
  revert d. induction ks as [|k ks IH]; intros d; simpl; [lia|].
  etransitivity; [apply IH | apply pop_length].
Qed.

Lemma purge_length now d : (length (purge now d) <= length d)%nat.
Proof. apply fold_pop_length. Qed.

Lemma fold_pop_skip ks kv d :
  ~ In (fst kv) ks ->
  fold_left (fun acc k => pop k acc) ks (kv :: d)
  = kv :: fold_left (fun acc k => pop k acc) ks d.
Proof.
  revert d. induction ks as [|k ks IH]; intros d Hn; simpl; [done|].
  simpl in Hn. case_bool_decide; [exfalso; apply Hn; left; congruence|].
  apply IH. tauto.
Qed.

Lemma expired_incl now d k : In k (expired now d) -> In k (map fst d).
Proof.
  unfold expired. rewrite !in_map_iff. intros (kv & Hk & Hin).
  apply filter_In in Hin. exists kv. tauto.
Qed.

(** On a dictionary the purge keeps exactly the items whose expiry is not
    before [now], in their order. *)
Lemma purge_filter now d :
  is_dict d ->
  purge now d = List.filter (fun kv => negb (Qltb (snd kv) now)) d.
Proof.
  unfold purge, is_dict. induction d as [|kv d IH]; [done|].
  intros H. apply List.NoDup_cons_iff in H as [Hn Hd].
  unfold expired in *. simpl. destruct (Qltb (snd kv) now) eqn:E; simpl.
  - rewrite bool_decide_eq_true_2 by done. auto.
  - rewrite fold_pop_skip; [by rewrite IH|].
    intros Hin. apply Hn. eapply expired_incl, Hin.
Qed.

Lemma filter_is_dict (f : str * Q -> bool) d :
  is_dict d -> is_dict (List.filter f d).
Proof.
  unfold is_dict. induction d as [|kv d IH]; simpl; [done|].
  intros H. apply List.NoDup_cons_iff in H as [Hn Hd].
  destruct (f kv); simpl; [|auto].
  apply List.NoDup_cons_iff. split; [|auto].
  rewrite in_map_iff. intros (kv' & Hk & Hin). apply filter_In in Hin.
  apply Hn. rewrite in_map_iff. exists kv'. tauto.
Qed.

Lemma purge_is_dict now d : is_dict d -> is_dict (purge now d).
Proof. intros H. rewrite purge_filter by done. by apply filter_is_dict. Qed.

Lemma dict_functional d k v v' :
  is_dict d -> In (k, v) d -> In (k, v') d -> v = v'.
Proof.
  unfold is_dict. induction d as [|kv d IH]; simpl; [done|].
  intros H. apply List.NoDup_cons_iff in H as [Hn Hd].
  intros [->|H1] [E|H2]; simpl in *.
  - congruence.
  - exfalso. apply Hn. apply in_map_iff. by exists (k, v').
  - subst kv. exfalso. apply Hn. apply in_map_iff. by exists (k, v).
  - eauto.
Qed.

Lemma tl_is_dict d : is_dict d -> is_dict (tl d).
Proof.
  unfold is_dict. destruct d; simpl; [done|].
  intros H. by apply List.NoDup_cons_iff in H as [_ ?].
Qed.

Lemma app_new_is_dict d k v :
  is_dict d -> has_key k d = false -> is_dict (d ++ [(k, v)]).
Proof.
  unfold is_dict. intros Hd Hk. apply has_key_false in Hk.
  rewrite map_app. simpl. apply List.NoDup_app; [done| |].
  - apply List.NoDup_cons; [simpl; tauto | apply List.NoDup_nil].
  - intros x Hx [<-|[]]. done.
Qed.

Lemma seen_is_dict self now sig :
  is_dict (_store self) -> is_dict (_store (snd (seen self now sig))).
Proof.
  intros H. unfold seen.
  pose proof (purge_is_dict now _ H) as Hp.
  destruct (has_key sig (purge now (_store self))) eqn:E; simpl; [done|].
  unfold setitem. rewrite E.
  pose proof (app_new_is_dict _ sig (now + inject_Z (ttl self))%Q Hp E).
  destruct (_ <? _); [by apply tl_is_dict | done].
Qed.

Lemma seen_ttl self now sig : ttl (snd (seen self now sig)) = ttl self.
Proof. unfold seen. by destruct (has_key _ _). Qed.

Lemma run_is_dict calls self :
  is_dict (_store self) -> is_dict (_store (run self calls)).
Proof.
  revert self. induction calls as [|c calls IH]; intros self H; simpl; [done|].
  apply IH. by apply seen_is_dict.
Qed.

Lemma run_ttl calls self : ttl (run self calls) = ttl self.
Proof.
  unfold run. revert self.
  induction calls as [|c calls IH]; intros self; simpl; [done|].
  rewrite IH. apply seen_ttl.
Qed.

Lemma purge_keys_incl now d k :
  is_dict d -> In k (map fst (purge now d)) -> In k (map fst d).
Proof.
  intros Hd. rewrite purge_filter by done. rewrite !in_map_iff.
  intros (kv & Hk & Hin). apply filter_In in Hin. exists kv. tauto.
Qed.

(** The item just inserted survives the eviction: it is the last one, and
    eviction takes the first of more than [hard_cap] items. *)
Lemma new_item_survives d (x : str * Q) :
  In x (if hard_cap <? Z.of_nat (length (d ++ [x]))
        then popitem_first (d ++ [x]) else d ++ [x]).
Proof.
  destruct (_ <? _) eqn:E.
  - destruct d as [|y d]; simpl in *.
    + unfold hard_cap in E. discriminate.
    + apply in_or_app. right. by left.
  - apply in_or_app. right. by left.
Qed.

(** One fresh call, then a second within the TTL, then a third after it, on
    any dictionary. *)
Lemma seen_three_calls self fp now1 now2 now3 :
  is_dict (_store self) ->
  has_key fp (_store self) = false ->
  (now2 <= now1 + inject_Z (ttl self))%Q ->
  (now1 + inject_Z (ttl self) < now3)%Q ->
  let d1 := snd (seen self now1 fp) in
  let d2 := snd (seen d1 now2 fp) in
  fst (seen self now1 fp) = false /\
  fst (seen d1 now2 fp) = true /\
  fst (seen d2 now3 fp) = false.
Proof.
  intros Hd Hfresh Hin Hout d1 d2.
  set (e := (now1 + inject_Z (ttl self))%Q) in *.
  assert (H0 : has_key fp (purge now1 (_store self)) = false).
  { apply has_key_false. intros Hk. apply has_key_false in Hfresh.
    apply Hfresh. eapply purge_keys_incl; eauto. }
  assert (Hd1 : is_dict (_store d1)) by (by apply seen_is_dict).
  assert (Hnew : In (fp, e) (_store d1)).
  { subst d1. unfold seen. rewrite H0. simpl. unfold setitem. rewrite H0.
    apply new_item_survives. }
  assert (Ht1 : ttl d1 = ttl self) by apply seen_ttl.
  assert (H2 : has_key fp (purge now2 (_store d1)) = true).
  { apply has_key_In. rewrite purge_filter by done.
    apply in_map_iff. exists (fp, e). split; [done|].
    apply filter_In. split; [done|]. simpl.
    apply negb_true_iff. apply Qltb_ge. done. }
  assert (Hs2 : _store d2 = purge now2 (_store d1)).
  { subst d2. unfold seen. by rewrite H2. }
  split; [|split].
  - unfold seen. by rewrite H0.
  - unfold seen. by rewrite H2.
  - assert (Hd2 : is_dict (_store d2)) by (by apply seen_is_dict).
    assert (H3 : has_key fp (purge now3 (_store d2)) = false).
    { apply has_key_false. rewrite purge_filter by done.
      rewrite in_map_iff. intros ([k v] & Hk & Hv). simpl in Hk. subst k.
      apply filter_In in Hv as [Hv Hlive]. simpl in Hlive.
      rewrite Hs2, purge_filter in Hv by done.
      apply filter_In in Hv as [Hv _].
      assert (v = e) by (by apply (dict_functional (_store d1) fp)). subst v.
      apply negb_true_iff, Qltb_ge in Hlive. lra. }
    unfold seen. by rewrite H3.
Qed.

(** C1.  On a deduplicator reached by any history of calls whose store does
    not hold the fingerprint: the first [seen] returns false; a second one
    at a reading within the TTL of the first (up to and including
    [now1 + ttl]) returns true; a third one at a reading after the TTL has
    elapsed ([now1 + ttl < now3]) returns false again. *)
Theorem seen_twice_then_expired
  (ttl0 : Z) (history : list (Q * str)) (fp : str) (now1 now2 now3 : Q) :
  let d0 := run (init ttl0) history in
  has_key fp (_store d0) = false ->
  (now2 <= now1 + inject_Z ttl0)%Q ->
  (now1 + inject_Z ttl0 < now3)%Q ->
  let '(r1, d1) := seen d0 now1 fp in
  let '(r2, d2) := seen d1 now2 fp in
  let '(r3, _) := seen d2 now3 fp in
  r1 = false /\ r2 = true /\ r3 = false.
Proof.
  intros d0 Hfresh Hin Hout.
  assert (Hd : is_dict (_store d0)).
  { apply run_is_dict. simpl. apply List.NoDup_nil. }
  assert (Ht : ttl d0 = ttl0) by apply run_ttl.
  pose proof (seen_three_calls d0 fp now1 now2 now3 Hd Hfresh) as H.
  rewrite Ht in H. specialize (H Hin Hout). simpl in H.
  destruct (seen d0 now1 fp) as [r1 d1]. simpl in H.
  destruct (seen d1 now2 fp) as [r2 d2]. simpl in H.
  destruct (seen d2 now3 fp) as [r3 d3]. exact H.
Qed.

(** A run of C1: two other events are in the store, the TTL is 600 s. *)
Lemma seen_twice_then_expired_witness :
  let d0 := run (init 600) [(0%Q, lit "gift|a"); (1%Q, lit "follow|b")] in
  let '(r1, d1) := seen d0 5%Q (lit "comment|c|hi") in
  let '(r2, d2) := seen d1 605%Q (lit "comment|c|hi") in
  let '(r3, _) := seen d2 (6051 # 10)%Q (lit "comment|c|hi") in
  r1 = false /\ r2 = true /\ r3 = false.
Proof.
  apply (seen_twice_then_expired 600
           [(0%Q, lit "gift|a"); (1%Q, lit "follow|b")]
           (lit "comment|c|hi") 5%Q 605%Q (6051 # 10)%Q).
  - vm_compute. reflexivity.
  - vm_compute. discriminate.
  - vm_compute. reflexivity.
Defined.

(** *** The size bound *)

Lemma seen_capped self now sig :
  Z.of_nat (length (_store self)) <= hard_cap ->
  Z.of_nat (length (_store (snd (seen self now sig)))) <= hard_cap.
Proof.
  intros H. pose proof (purge_length now (_store self)) as Hp.
  unfold seen. destruct (has_key sig _) eqn:E; simpl; [lia|].
  unfold setitem. rewrite E.
  destruct (_ <? _) eqn:C; [|lia].
  unfold popitem_first.
  destruct (purge now (_store self)) as [|x s]; simpl in *;
    rewrite ?length_app in *; simpl in *; lia.
Qed.

Lemma run_capped calls self :
  Z.of_nat (length (_store self)) <= hard_cap ->
  Z.of_nat (length (_store (run self calls))) <= hard_cap.
Proof.
  unfold run. revert self.
  induction calls as [|c calls IH]; intros self H; simpl; [done|].
  apply IH. by apply seen_capped.
Qed.

(** *** The ghost numbers are erased to the code *)

Lemma erase_gpop k g : erase (gpop k g) = pop k (erase g).
Proof.
  unfold erase. induction g as [|e g IH]; simpl; [done|].
  case_bool_decide; simpl; congruence.
Qed.

Lemma erase_fold_gpop ks g :
  erase (fold_left (fun acc k => gpop k acc) ks g)
  = fold_left (fun acc k => pop k acc) ks (erase g).
Proof.
  revert g. induction ks as [|k ks IH]; intros g; simpl; [done|].
  by rewrite IH, erase_gpop.
Qed.

Lemma erase_gpurge now g : erase (gpurge now g) = purge now (erase g).
Proof. apply erase_fold_gpop. Qed.

Definition erases (g : ghost) (d : t) : Prop :=
  g_ttl g = ttl d /\ erase (g_store g) = _store d.

Lemma gseen_erases g d now sig :
  erases g d ->
  fst (gseen g now sig) = fst (seen d now sig) /\
  erases (snd (gseen g now sig)) (snd (seen d now sig)).
Proof.
  intros [Ht Hs]. unfold gseen, seen, erases.
  rewrite erase_gpurge, Hs, Ht.
  destruct (has_key sig (purge now (_store d))) eqn:E; simpl.
  { by rewrite erase_gpurge, Hs. }
  unfold setitem. rewrite E.
  assert (Hl : length (gpurge now (g_store g)
                       ++ [(sig, (now + inject_Z (ttl d))%Q, g_calls g)])
               = length (purge now (_store d)
                         ++ [(sig, (now + inject_Z (ttl d))%Q)])).
  { rewrite !length_app. simpl. f_equal.
    rewrite <- Hs, <- erase_gpurge. unfold erase. by rewrite length_map. }
  assert (He : erase (gpurge now (g_store g)
                       ++ [(sig, (now + inject_Z (ttl d))%Q, g_calls g)])
               = purge now (_store d)
                 ++ [(sig, (now + inject_Z (ttl d))%Q)]).
  { unfold erase. rewrite map_app. simpl. f_equal.
    rewrite <- Hs, <- erase_gpurge. done. }
  rewrite Hl. destruct (_ <? _); simpl; (split; [done|split; [done|]]).
  - rewrite <- He. unfold erase, popitem_first.
    by destruct (gpurge now (g_store g) ++ _).
  - done.
Qed.

Lemma grun_erases calls g d :
  erases g d -> erases (grun g calls) (run d calls).
Proof.
  unfold grun, run. revert g d.
  induction calls as [|c calls IH]; intros g d H; simpl; [done|].
  apply IH. by apply gseen_erases.
Qed.

(** *** Items stand in the order of their insertion *)

(** The insertion numbers grow strictly along the store, from [lo] on. *)
Fixpoint increasing (lo : nat) (g : gdict) : Prop :=
  match g with
  | [] => True
  | e :: g' => (lo <= snd e)%nat /\ increasing (S (snd e)) g'
  end.

Definition numbered (g : ghost) : Prop :=
  increasing 0 (g_store g) /\
  Forall (fun e => (snd e < g_calls g)%nat) (g_store g).

Lemma increasing_weaken lo lo' g :
  (lo' <= lo)%nat -> increasing lo g -> increasing lo' g.
Proof. destruct g; simpl; [done|]. intros ? [? ?]. split; [lia|done]. Qed.

Lemma increasing_above lo g e :
  increasing lo g -> In e g -> (lo <= snd e)%nat.
Proof.
  revert lo. induction g as [|x g IH]; intros lo; simpl; [done|].
  intros [Hx Hg] [->|Hin]; [done|].
  specialize (IH _ Hg Hin). lia.
Qed.

Lemma gpop_increasing k lo g : increasing lo g -> increasing lo (gpop k g).
Proof.
  revert lo. induction g as [|e g IH]; intros lo; simpl; [done|].
  intros [He Hg]. case_bool_decide.
  - eapply increasing_weaken; [|exact Hg]. lia.
  - simpl. auto.
Qed.

Lemma gpop_Forall (P : str * Q * nat -> Prop) k g :
  Forall P g -> Forall P (gpop k g).
Proof.
  induction 1 as [|e g He Hg IH]; simpl; [constructor|].
  case_bool_decide; [done|by constructor].
Qed.

Lemma gpurge_numbered now lo n g :
  increasing lo g -> Forall (fun e => (snd e < n)%nat) g ->
  increasing lo (gpurge now g) /\
  Forall (fun e => (snd e < n)%nat) (gpurge now g).
Proof.
  unfold gpurge. generalize (expired now (erase g)) as ks.
  intros ks. revert g. induction ks as [|k ks IH]; intros g Hi Hf; simpl.
  - done.
  - apply IH; [by apply gpop_increasing | by apply gpop_Forall].
Qed.

Lemma increasing_snoc lo n g (x : str * Q * nat) :
  increasing lo g -> Forall (fun e => (snd e < n)%nat) g ->
  snd x = n -> (lo <= n)%nat -> increasing lo (g ++ [x]).
Proof.
  revert lo. induction g as [|e g IH]; intros lo Hi Hf Hx Hlo; simpl.
  - split; [lia|done].
  - destruct Hi as [He Hg]. apply Forall_cons_iff in Hf as [Hen Hf]. split; [done|].
    apply IH; try done; lia.
Qed.

Lemma gseen_numbered g now sig :
  numbered g -> numbered (snd (gseen g now sig)).
Proof.
  intros [Hi Hf]. unfold numbered, gseen.
  destruct (gpurge_numbered now 0 (g_calls g) (g_store g) Hi Hf) as [Hi' Hf'].
  assert (Hup : forall l, Forall (fun e : str * Q * nat => (snd e < g_calls g)%nat) l ->
                          Forall (fun e : str * Q * nat => (snd e < S (g_calls g))%nat) l).
  { intros l. apply List.Forall_impl. intros; lia. }
  destruct (has_key sig _); simpl; [by auto|].
  set (x := (sig, (now + inject_Z (g_ttl g))%Q, g_calls g)).
  assert (Hi2 : increasing 0 (gpurge now (g_store g) ++ [x])).
  { eapply increasing_snoc; eauto. lia. }
  assert (Hf2 : Forall (fun e : str * Q * nat => (snd e < S (g_calls g))%nat)
                  (gpurge now (g_store g) ++ [x])).
  { apply Forall_app. split; [auto|]. constructor; [simpl; lia|constructor]. }
  destruct (_ <? _); simpl; [|done].
  destruct (gpurge now (g_store g) ++ [x]) as [|y l]; simpl in *; [done|].
  split.
  - eapply increasing_weaken; [|apply Hi2]. lia.
  - by apply Forall_cons_iff in Hf2 as [_ ?].
Qed.

Lemma grun_numbered calls g : numbered g -> numbered (grun g calls).
Proof.
  unfold grun. revert g.
  induction calls as [|c calls IH]; intros g H; simpl; [done|].
  apply IH. by apply gseen_numbered.
Qed.

(** The item a call evicts carries a smaller insertion number than every
    item that stays. *)
Lemma gseen_evicts_oldest g now sig e :
  numbered g ->
  g_evicted (snd (gseen g now sig)) = Some e ->
  Z.of_nat (length (g_store (snd (gseen g now sig)))) >= hard_cap /\
  forall e', In e' (g_store (snd (gseen g now sig))) -> (snd e < snd e')%nat.
Proof.
  intros [Hi Hf]. unfold gseen.
  destruct (gpurge_numbered now 0 (g_calls g) (g_store g) Hi Hf) as [Hi' Hf'].
  destruct (has_key sig _); simpl; [done|].
  set (x := (sig, (now + inject_Z (g_ttl g))%Q, g_calls g)).
  assert (Hi2 : increasing 0 (gpurge now (g_store g) ++ [x])).
  { eapply increasing_snoc; eauto. lia. }
  destruct (_ <? _) eqn:C; simpl; [|done].
  destruct (gpurge now (g_store g) ++ [x]) as [|y l] eqn:El.
  { by destruct (gpurge now (g_store g)). }
  cbn [head tl]. intros [= ->]. split.
  { apply Z.ltb_lt in C. cbn [length] in C. unfold hard_cap in *. lia. }
  intros e' Hin. destruct Hi2 as [_ Hl].
  pose proof (increasing_above _ _ _ Hl Hin). lia.
Qed.

(** C8.  After every call of [seen] (the last call of any non-empty history
    from the empty store) the store holds at most 5000 items; and when that
    call's insertion pushed the store past the cap, the one item it evicted
    had been inserted before every item that stays (its insertion number is
    the smallest), leaving exactly 5000.  The insertion numbers are ghost
    state: erasing them gives the store of the code. *)
Theorem store_capped_oldest_evicted
  (ttl0 : Z) (history : list (Q * str)) (now : Q) (sig : str) :
  let d := run (init ttl0) (history ++ [(now, sig)]) in
  let g := grun (ginit ttl0) (history ++ [(now, sig)]) in
  erase (g_store g) = _store d /\
  Z.of_nat (length (_store d)) <= hard_cap /\
  (forall e, g_evicted g = Some e ->
     Z.of_nat (length (_store d)) = hard_cap /\
     forall e', In e' (g_store g) -> (snd e < snd e')%nat).
Proof.
  intros d g.
  assert (He : erases g d).
  { apply grun_erases. by split. }
  assert (Hcap : Z.of_nat (length (_store d)) <= hard_cap).
  { apply run_capped. simpl. unfold hard_cap. lia. }
  split; [apply He|]. split; [done|].
  assert (Hg : g = snd (gseen (grun (ginit ttl0) history) now sig)).
  { subst g. unfold grun. by rewrite fold_left_app. }
  assert (Hn : numbered (grun (ginit ttl0) history)).
  { apply grun_numbered. split; simpl; [done|constructor]. }
  clearbody g d. subst g. intros e Hev.
  destruct (gseen_evicts_oldest _ now sig e Hn Hev) as [Hlen Hold].
  split; [|done].
  destruct He as [_ He]. rewrite <- He in *. unfold erase in *.
  rewrite length_map in *. lia.
Qed.

End DeduperFacts.

(** ** TokenBucket *)

Section TokenBucketFacts.
Import TokenBucket.

Lemma take_unfold fuel clock i self :
  take (S fuel) clock i self
  = if _lock self then Suspended self
    else
      let self := refill (clock i) (set_lock true self) in
      if Qltb (tokens self) 1 then
        if Qeq_bool (rate self) 0 then Raised (set_lock false self)
        else
          match take fuel clock (S i) self with
          | Returned b => Returned (set_lock false b)
          | Raised b => Raised (set_lock false b)
          | Suspended b => Suspended b
          | OutOfFuel => OutOfFuel
          end
      else
        Returned
          (set_lock false
             (mk (capacity self) (tokens self - 1) (rate self)
                 (updated self) (_lock self))).
Proof. reflexivity. Qed.

(** A call that returns leaves a non-negative token count and a free
    lock. *)
Lemma take_returned_nonneg fuel clock i b b' :
  take fuel clock i b = Returned b' ->
  (0 <= tokens b')%Q /\ _lock b' = false.
Proof.
  revert i b b'. induction fuel as [|fuel IH]; intros i b b'; [done|].
  rewrite take_unfold. destruct (_lock b); [done|]. cbv zeta.
  destruct (Qltb _ 1) eqn:E.
  - destruct (Qeq_bool _ 0); [done|].
    destruct (take fuel clock (S i) _) eqn:T; try done.
    intros [= <-]. simpl. split; [|done]. eapply IH, T.
  - intros [= <-]. split; [|done]. apply Qltb_ge in E.
    cbn [tokens set_lock refill capacity rate updated _lock] in *.
    set (x := Qmin _ _) in *. lra.
Qed.

(** With a token available after the refill the call returns at once,
    having taken exactly one. *)
Lemma take_with_token fuel clock i b :
  _lock b = false ->
  (1 <= tokens (refill (clock i) b))%Q ->
  take (S fuel) clock i b
  = Returned (mk (capacity b) (tokens (refill (clock i) b) - 1) (rate b)
                 (clock i) false).
Proof.
  intros Hl Ht. rewrite take_unfold, Hl. cbv zeta.
  assert (E : Qltb (tokens (refill (clock i) (set_lock true b))) 1 = false).
  { apply Qltb_ge. exact Ht. }
  rewrite E. done.
Qed.

(** C2 (the code fails the claim).  A caller that finds fewer than one
    token after the refill, with a positive rate, never returns: the nested
    [take] waits for the lock its own caller holds.  For every amount of
    fuel the outcome is not [Returned], and from two steps on it is
    [Suspended], with the lock held and no token taken. *)
Theorem take_short_of_tokens_never_returns
  (fuel : nat) (clock : nat -> Q) (i : nat) (b : t) :
  _lock b = false ->
  (0 < rate b)%Q ->
  (tokens (refill (clock i) b) < 1)%Q ->
  (forall b', take fuel clock i b <> Returned b') /\
  take (S (S fuel)) clock i b
  = Suspended (refill (clock i) (set_lock true b)).
Proof.
  intros Hl Hr Ht.
  assert (E : Qltb (tokens (refill (clock i) (set_lock true b))) 1 = true).
  { apply Qltb_lt. exact Ht. }
  assert (Z0 : Qeq_bool (rate (refill (clock i) (set_lock true b))) 0 = false).
  { destruct (Qeq_bool _ 0) eqn:Z0; [|done].
    apply Qeq_bool_iff in Z0. simpl in Z0. lra. }
  split.
  - intros b'. destruct fuel as [|fuel]; [done|].
    rewrite take_unfold, Hl. cbv zeta. rewrite E, Z0.
    destruct fuel as [|fuel]; done.
  - rewrite take_unfold, Hl. cbv zeta. rewrite E, Z0.
    rewrite take_unfold. done.
Qed.

(** The bucket of [process_comments] for [max_replies_per_min = 1]: the
    first reply takes the only token; a second [take] ten seconds later
    finds 1/6 of a token and is suspended for good. *)
Lemma take_short_of_tokens_never_returns_witness :
  let b := mk 1 0 (1 # 60) 0 false in
  let clock := fun _ : nat => 10%Q in
  (forall b', take 7 clock 0 b <> Returned b') /\
  take 9 clock 0 b = Suspended (refill (clock 0%nat) (set_lock true b)).
Proof.
  apply (take_short_of_tokens_never_returns 7 (fun _ => 10%Q) 0
           (mk 1 0 (1 # 60) 0 false)).
  - reflexivity.
  - reflexivity.
  - vm_compute. reflexivity.
Defined.

End TokenBucketFacts.

(** ** MicrophoneMonitor *)

Section MicFacts.
Import Mic.

Variables (th : float) (attack release : Z) (t0 : float).

Definition mic_start : MicrophoneMonitor * MicState :=
  (init th attack release t0, mic_init).

Lemma mark_active_on m : _active (mark_active m) = true.
Proof. unfold mark_active. by destruct (_active m) eqn:E. Qed.

Lemma mark_idle_off m : _active (mark_idle m) = false.
Proof. unfold mark_idle. by destruct (_active m) eqn:E. Qed.

Lemma run_snoc st pre s : run st (pre ++ [s]) = _callback (run st pre) s.
Proof. unfold run. by rewrite fold_left_app. Qed.

Lemma last_loud_snoc pre s :
  last_loud th t0 (pre ++ [s])
  = if above th s then at_time s else last_loud th t0 pre.
Proof. unfold last_loud. by rewrite fold_left_app. Qed.

(** No above-threshold block since the monitor was made or since the last
    completed release. *)
Definition quiet_since_release (pre : list sample) : Prop :=
  exists pre1 quiet,
    pre = pre1 ++ quiet /\
    (pre1 = [] \/
     exists pre0 r, pre1 = pre0 ++ [r] /\ released th release t0 pre0 r) /\
    Forall (fun q => above th q = false) quiet.

(** What the monitor remembers of the blocks [pre] it has seen. *)
Definition remembers (pre : list sample) (st : MicrophoneMonitor * MicState)
  : Prop :=
  let '(self, mic) := st in
  (threshold self = th /\ attack_ms self = attack /\ release_ms self = release)
  /\ _last_below self = last_loud th t0 pre
  /\ (if _attack_reached self
      then exists f, first_loud_since_release th release t0 pre f /\
                     _last_above self = at_time f
      else quiet_since_release pre)
  /\ (Forall (fun q => above th q = false) pre -> _active mic = false).

Lemma origin_snoc pre f s :
  first_loud_since_release th release t0 pre f ->
  ~ released th release t0 pre s ->
  first_loud_since_release th release t0 (pre ++ [s]) f.
Proof using Type.
  intros (pre1 & quiet & mid & -> & Hrel & Hq & Hf & Hmid) Hs.
  exists pre1, quiet, (mid ++ [s]). split.
  { by rewrite <- !app_assoc. }
  do 3 (split; [done|]).
  intros m1 r m2 E.
  destruct m2 as [|x m2 _] using rev_ind.
  - apply app_inj_tail in E as [<- <-]. exact Hs.
  - rewrite app_comm_cons, app_assoc in E.
    apply app_inj_tail in E as [E _]. by apply (Hmid m1 r m2).
Qed.

Lemma callback_remembers pre st s :
  remembers pre st -> remembers (pre ++ [s]) (_callback st s).
Proof using Type.
  destruct st as [self mic]. intros ((Ht & Ha & Hr) & Hlow & Horigin & Hidle).
  unfold remembers, _callback. rewrite Ht. fold (above th s).
  rewrite last_loud_snoc.
  destruct (above th s) eqn:Hs.
  - (* an above-threshold block *)
    assert (Hnot : ~ released th release t0 pre s).
    { intros [H _]. congruence. }
    assert (Hloud : Forall (fun q => above th q = false) (pre ++ [s]) ->
                    forall b, b = false).
    { intros H b. apply Forall_app in H as [_ H].
      apply Forall_cons in H as [H _]. congruence. }
    destruct (_attack_reached self) eqn:Har; cbn [negb].
    + destruct Horigin as (f & Hf & Hl).
      cbn [threshold attack_ms release_ms _last_below _last_above
             _attack_reached]. rewrite Har.
      split; [done|]. split; [done|]. split.
      * exists f. split; [by apply origin_snoc | done].
      * intros H. by apply (Hloud H).
    + destruct Horigin as (pre1 & quiet & -> & Hrel & Hq).
      cbn [threshold attack_ms release_ms _last_below _last_above
             _attack_reached].
      split; [done|]. split; [done|]. split.
      * exists s. split; [|done]. exists pre1, quiet, [].
        split; [by rewrite <- app_assoc|]. do 3 (split; [done|]).
        intros m1 r m2 E. by destruct m1.
      * intros H. by apply (Hloud H).
  - (* a below-threshold block *)
    rewrite Hr, Hlow.
    destruct (ge_int (elapsed_ms (at_time s) (last_loud th t0 pre)) release)
      eqn:Hrel;
      cbn [threshold attack_ms release_ms _last_below _last_above
             _attack_reached].
    + split; [done|]. split; [done|]. split.
      * exists (pre ++ [s]), []. rewrite app_nil_r. split; [done|].
        split; [|constructor]. right. by exists pre, s.
      * intros H. apply mark_idle_off.
    + assert (Hnot : ~ released th release t0 pre s).
      { intros [_ H]. congruence. }
      split; [done|]. split; [done|]. split.
      * destruct (_attack_reached self).
        -- destruct Horigin as (f & Hf & Hl). exists f.
           split; [by apply origin_snoc | done].
        -- destruct Horigin as (pre1 & quiet & -> & Hrel' & Hq).
           exists pre1, (quiet ++ [s]). split; [by rewrite app_assoc|].
           split; [done|]. apply Forall_app. split; [done|]. by constructor.
      * intros H. apply Hidle. by apply Forall_app in H as [H _].
Qed.

Lemma run_remembers pre : remembers pre (run mic_start pre).
Proof using Type.
  induction pre as [|s pre IH] using rev_ind.
  - simpl. repeat split; try done. exists [], []. split; [done|].
    split; [by left|constructor].
  - rewrite run_snoc. by apply callback_remembers.
Qed.

(** A history with an above-threshold block ends with one followed by
    blocks below the threshold; its reading is [last_loud]. *)
Lemma last_loud_block pre :
  ~ Forall (fun q => above th q = false) pre ->
  exists pre1 a quiet,
    pre = pre1 ++ a :: quiet /\ above th a = true /\
    Forall (fun q => above th q = false) quiet /\
    last_loud th t0 pre = at_time a.
Proof using Type.
  induction pre as [|s pre IH] using rev_ind; intros H.
  - exfalso. apply H. constructor.
  - rewrite last_loud_snoc. destruct (above th s) eqn:Hs.
    + exists pre, s, []. repeat split; try done.
    + destruct IH as (pre1 & a & quiet & -> & Ha & Hq & Hl).
      { intros Hall. apply H. apply Forall_app. split; [done|].
        by constructor. }
      exists pre1, a, (quiet ++ [s]). split; [by rewrite <- app_assoc|].
      split; [done|]. split; [|done].
      apply Forall_app. split; [done|]. by constructor.
Qed.

Lemma first_loud_earlier hist p1 q1 f1 m1 p2 q2 f2 m2 :
  hist = p1 ++ q1 ++ f1 :: m1 ->
  above th f1 = true ->
  (forall x r y, m1 = x ++ r :: y ->
     ~ released th release t0 (p1 ++ q1 ++ f1 :: x) r) ->
  hist = p2 ++ q2 ++ f2 :: m2 ->
  (p2 = [] \/
   exists pre0 r, p2 = pre0 ++ [r] /\ released th release t0 pre0 r) ->
  Forall (fun q => above th q = false) q2 ->
  (length (p1 ++ q1) <= length (p2 ++ q2))%nat ->
  f1 = f2.
Proof using Type.
  intros -> Hf1 Hmid E Hrel Hq2 Hlen.
  rewrite !app_assoc in E.
  remember (p1 ++ q1) as A eqn:HA. remember (p2 ++ q2) as B eqn:HB.
  apply app_eq_app in E as [l [[EA Em]|[EB Em]]].
  - (* A = B ++ l *)
    destruct l as [|x l].
    + simpl in Em. by injection Em.
    + exfalso. rewrite EA, length_app in Hlen. simpl in Hlen. lia.
  - (* B = A ++ l *)
    destruct l as [|x l].
    + simpl in Em. by injection Em.
    + exfalso. simpl in Em. injection Em as <- Em.
      (* f1 lies in B = p2 ++ q2, and not in q2 *)
      rewrite HB in EB. apply app_eq_app in EB as [k [[Ep Eq]|[EA' Eq]]].
      * (* p2 = A ++ k, f1 :: l = k ++ q2 *)
        destruct k as [|y k].
        -- simpl in Eq. subst q2. apply Forall_cons in Hq2 as [H _]. congruence.
        -- simpl in Eq. injection Eq as <- Eq.
           destruct Hrel as [->|(pre0 & r & Ep2 & Hr)].
           { by destruct A. }
           rewrite Ep2 in Ep.
           destruct k as [|z k _] using rev_ind.
           ++ apply app_inj_tail in Ep as [_ ->]. destruct Hr as [Hr _]. congruence.
           ++ rewrite app_comm_cons, app_assoc in Ep.
              apply app_inj_tail in Ep as [-> ->].
              apply (Hmid k z (q2 ++ f2 :: m2)).
              { rewrite Em, Eq. by rewrite <- !app_assoc. }
              by rewrite app_assoc, <- HA.
      * (* A = p2 ++ k, q2 = k ++ f1 :: l *)
        subst q2. apply Forall_app in Hq2 as [_ H].
        apply Forall_cons in H as [H _]. congruence.
Qed.

(** The block the attack is measured from is determined by the history. *)
Lemma first_loud_since_release_unique hist f1 f2 :
  first_loud_since_release th release t0 hist f1 ->
  first_loud_since_release th release t0 hist f2 ->
  f1 = f2.
Proof using Type.
  intros (p1 & q1 & m1 & E1 & R1 & Q1 & F1 & M1)
         (p2 & q2 & m2 & E2 & R2 & Q2 & F2 & M2).
  destruct (Nat.le_ge_cases (length (p1 ++ q1)) (length (p2 ++ q2))).
  - eapply (first_loud_earlier hist p1 q1 f1 m1 p2 q2 f2 m2); eauto.
  - symmetry. eapply (first_loud_earlier hist p2 q2 f2 m2 p1 q1 f1 m1); eauto.
Qed.

(** *** A single short spike *)

(** Every block of the spike lies less than [attack] ms after its first,
    as line 533 computes the time between them. *)
Definition shorter_than_attack (spike : list sample) : Prop :=
  match spike with
  | [] => True
  | s0 :: _ =>
      Forall (fun s =>
                ge_int (elapsed_ms (at_time s) (at_time s0)) attack = false)
        spike
  end.

Definition quiet (st : MicrophoneMonitor * MicState) : Prop :=
  threshold (fst st) = th /\ attack_ms (fst st) = attack /\
  _attack_reached (fst st) = false /\ _active (snd st) = false.

Definition armed (s0 : sample) (st : MicrophoneMonitor * MicState) : Prop :=
  threshold (fst st) = th /\ attack_ms (fst st) = attack /\
  _attack_reached (fst st) = true /\ _last_above (fst st) = at_time s0 /\
  _active (snd st) = false.

Definition idle_now (st : MicrophoneMonitor * MicState) : Prop :=
  threshold (fst st) = th /\ _active (snd st) = false.

Lemma low_keeps_quiet st s :
  quiet st -> above th s = false -> quiet (_callback st s).
Proof using Type.
  destruct st as [self mic]. unfold quiet, above. simpl.
  intros (Ht & Ha & Har & Hoff) Hs. unfold _callback. rewrite Ht, Hs.
  destruct (ge_int _ _); simpl; unfold mark_idle; rewrite ?Hoff; done.
Qed.

Lemma lows_keep_quiet st lows :
  quiet st -> Forall (fun q => above th q = false) lows ->
  quiet (run st lows).
Proof using Type.
  unfold run. revert st. induction lows as [|s lows IH]; intros st Hq Hl; [done|].
  apply Forall_cons_iff in Hl as [Hs Hl]. simpl. apply IH; [|done].
  by apply low_keeps_quiet.
Qed.

Lemma low_keeps_idle st s :
  idle_now st -> above th s = false -> idle_now (_callback st s).
Proof using Type.
  destruct st as [self mic]. unfold idle_now, above. simpl.
  intros (Ht & Hoff) Hs. unfold _callback. rewrite Ht, Hs.
  destruct (ge_int _ _); simpl; unfold mark_idle; rewrite ?Hoff; done.
Qed.

Lemma lows_keep_idle st lows :
  idle_now st -> Forall (fun q => above th q = false) lows ->
  idle_now (run st lows).
Proof using Type.
  unfold run. revert st. induction lows as [|s lows IH]; intros st Hq Hl; [done|].
  apply Forall_cons_iff in Hl as [Hs Hl]. simpl. apply IH; [|done].
  by apply low_keeps_idle.
Qed.

Lemma spike_head_arms st s0 :
  quiet st -> above th s0 = true ->
  ge_int (elapsed_ms (at_time s0) (at_time s0)) attack = false ->
  armed s0 (_callback st s0).
Proof using Type.
  destruct st as [self mic]. unfold quiet, armed, above. simpl.
  intros (Ht & Ha & Har & Hoff) Hs Hshort. unfold _callback.
  rewrite Ht, Hs, Har. simpl. rewrite Ha, Hshort. done.
Qed.

Lemma spike_keeps_armed st s0 s :
  armed s0 st -> above th s = true ->
  ge_int (elapsed_ms (at_time s) (at_time s0)) attack = false ->
  armed s0 (_callback st s).
Proof using Type.
  destruct st as [self mic]. unfold armed, above. simpl.
  intros (Ht & Ha & Har & Hla & Hoff) Hs Hshort. unfold _callback.
  rewrite Ht, Hs, Har. simpl. rewrite Ha, Hla, Hshort. done.
Qed.

Lemma spike_tail_keeps_armed st s0 rest :
  armed s0 st -> Forall (fun q => above th q = true) rest ->
  Forall (fun s =>
            ge_int (elapsed_ms (at_time s) (at_time s0)) attack = false)
    rest ->
  armed s0 (run st rest).
Proof using Type.
  unfold run. revert st.
  induction rest as [|s rest IH]; intros st Hq Hab Hsh; [done|].
  apply Forall_cons_iff in Hab as [Hs Hab]. apply Forall_cons_iff in Hsh as [Hs' Hsh].
  simpl. apply IH; try done. by apply spike_keeps_armed.
Qed.

Lemma run_app st l1 l2 : run st (l1 ++ l2) = run (run st l1) l2.
Proof. unfold run. by rewrite fold_left_app. Qed.

(** After quiet blocks, one short spike and quiet blocks again, the
    microphone is idle. *)
Lemma single_spike_idle lows1 spike lows2 :
  Forall (fun q => above th q = false) lows1 ->
  Forall (fun q => above th q = true) spike ->
  shorter_than_attack spike ->
  Forall (fun q => above th q = false) lows2 ->
  idle_now (run mic_start (lows1 ++ spike ++ lows2)).
Proof using Type.
  intros H1 Hsp Hshort H2. rewrite !run_app.
  assert (Hq : quiet (run mic_start lows1)).
  { apply lows_keep_quiet; [|done]. by repeat split. }
  apply lows_keep_idle; [|done].
  destruct spike as [|s0 rest].
  - destruct Hq as (? & ? & ? & ?). by split.
  - simpl in Hshort. apply Forall_cons_iff in Hsp as [Hs0 Hrest].
    apply Forall_cons_iff in Hshort as [Hs0' Hrest'].
    change (run (run mic_start lows1) (s0 :: rest))
      with (run (_callback (run mic_start lows1) s0) rest).
    assert (Ha : armed s0 (run (_callback (run mic_start lows1) s0) rest)).
    { apply spike_tail_keeps_armed; try done. by apply spike_head_arms. }
    destruct Ha as (? & ? & ? & ? & ?). by split.
Qed.

Lemma shorter_than_attack_firstn n spike :
  shorter_than_attack spike -> shorter_than_attack (firstn n spike).
Proof.
  destruct n as [|n], spike as [|s0 rest]; simpl; try done.
  intros H. apply Forall_cons_iff in H as [H0 H].
  constructor; [done|]. by apply Forall_take.
Qed.

(** C3, as the code has it.  For the block [s] that follows the blocks
    [pre] since the monitor was made, all times as line 533 and 537
    compute them, in binary64:
    - when [s] is above the threshold, there is the first above-threshold
      block [f] since the monitor was made or since the last completed
      release (possibly [s] itself; the blocks between [f] and [s] need not
      be above the threshold), and the state is Active after [s] exactly
      when it was Active before or [s] comes at least [attack] ms after
      [f];
    - when [s] is not above the threshold, the state is Idle after [s]
      exactly when it was Idle before or [s] comes at least [release] ms
      after the last above-threshold block; if the state was Active, that
      block [a] exists and every block since [a] is below the threshold;
    - when the only excursion above the threshold is one spike whose blocks
      all lie less than [attack] ms after its first block, the state is
      Idle after every prefix of the sequence. *)
Theorem mic_transitions_and_single_spike
  (pre : list sample) (s : sample)
  (lows1 spike lows2 : list sample) (k : nat) :
  let before := run mic_start pre in
  let after := _callback before s in
  (above th s = true ->
   exists f,
     first_loud_since_release th release t0 (pre ++ [s]) f /\
     (forall g, first_loud_since_release th release t0 (pre ++ [s]) g ->
                g = f) /\
     (is_active (snd after) = true <->
      is_active (snd before) = true \/
      ge_int (elapsed_ms (at_time s) (at_time f)) attack = true)) /\
  (above th s = false ->
   (is_active (snd after) = false <->
    is_active (snd before) = false \/
    ge_int (elapsed_ms (at_time s) (last_loud th t0 pre)) release = true) /\
   (is_active (snd before) = true ->
    exists pre1 a quiet,
      pre = pre1 ++ a :: quiet /\ above th a = true /\
      Forall (fun q => above th q = false) quiet /\
      last_loud th t0 pre = at_time a)) /\
  (Forall (fun q => above th q = false) lows1 ->
   Forall (fun q => above th q = true) spike ->
   shorter_than_attack spike ->
   Forall (fun q => above th q = false) lows2 ->
   is_active
     (snd (run mic_start (firstn k (lows1 ++ spike ++ lows2)))) = false).
Proof using Type.
  intros before after. subst after.
  pose proof (run_remembers pre) as Hrem. fold before in Hrem.
  destruct before as [self mic] eqn:Eb.
  destruct Hrem as ((Ht & Ha & Hr) & Hlow & Horigin & Hidle).
  unfold is_active. split; [|split].
  - intros Hs. unfold _callback. rewrite Ht.
    fold (above th s). rewrite Hs.
    destruct (_attack_reached self) eqn:Har; cbn [negb].
    + destruct Horigin as (f & Hf & Hl).
      assert (Hfs : first_loud_since_release th release t0 (pre ++ [s]) f).
      { apply origin_snoc; [done|]. intros [H _]. congruence. }
      exists f. split; [exact Hfs|]. split.
      { intros g Hg. exact (first_loud_since_release_unique _ _ _ Hg Hfs). }
      rewrite Ha, Hl. cbn [snd _last_above attack_ms].
      destruct (ge_int _ attack).
      * rewrite mark_active_on. split; auto.
      * split; [by left|]. intros [H|H]; [done|discriminate].
    + destruct Horigin as (pre1 & quiet & Ep & Hrel & Hq).
      assert (Hfs : first_loud_since_release th release t0 (pre ++ [s]) s).
      { exists pre1, quiet, []. rewrite Ep.
        split; [by rewrite <- app_assoc|]. do 3 (split; [done|]).
        intros m1 r m2 E. by destruct m1. }
      exists s. split; [exact Hfs|]. split.
      { intros g Hg. exact (first_loud_since_release_unique _ _ _ Hg Hfs). }
      cbn [snd _last_above attack_ms]. rewrite Ha.
      destruct (ge_int _ attack).
      * rewrite mark_active_on. split; auto.
      * split; [by left|]. intros [H|H]; [done|discriminate].
  - intros Hs. split.
    + unfold _callback. rewrite Ht. fold (above th s). rewrite Hs, Hr, Hlow.
      destruct (ge_int _ release); cbn [snd].
      * rewrite mark_idle_off. split; auto.
      * split; [by left|]. intros [H|H]; [done|discriminate].
    + cbn [snd]. intros Hon. apply last_loud_block.
      intros Hall. specialize (Hidle Hall). congruence.
  - intros H1 Hsp Hshort H2.
    rewrite !firstn_app.
    apply single_spike_idle.
    + by apply Forall_take.
    + by apply Forall_take.
    + by apply shorter_than_attack_firstn.
    + by apply Forall_take.
Qed.

End MicFacts.

(** The three parts of C3 on the default settings (threshold 0.02, attack
    120 ms, release 1200 ms), the monitor made at reading 100 s: two loud
    blocks 200 ms apart turn the state Active, the first of them being the
    block the attack is measured from; silence 1300 ms after the last loud
    block turns it Idle; a single loud block between silent ones leaves it
    Idle. *)
Lemma mic_transitions_and_single_spike_witness :
  (exists f,
     Mic.first_loud_since_release 0.02 1200 100
       [(0.5, 100); (0.5, 100.2)]%float f /\
     Mic.ge_int (Mic.elapsed_ms 100.2 (Mic.at_time f)) 120 = true)
  /\ Mic.is_active
       (snd (Mic.run (mic_start 0.02 120 1200 100)
               [(0.5, 100); (0.5, 100.2); (0, 101.5)]%float)) = false
  /\ Mic.is_active
       (snd (Mic.run (mic_start 0.02 120 1200 100)
               (firstn 3 ([(0, 100.1)] ++ [(0.5, 100.2)]
                          ++ [(0, 100.3)])%float)))
     = false.
Proof.
  split; [|split].
  - destruct (mic_transitions_and_single_spike 0.02 120 1200 100
                [(0.5, 100)]%float (0.5, 100.2)%float [] [] [] 0)
      as (Hloud & _ & _).
    destruct Hloud as (f & Hf & _ & Hiff); [vm_compute; reflexivity|].
    exists f. split; [exact Hf|].
    destruct (proj1 Hiff) as [H|H]; [vm_compute; reflexivity | | exact H].
    vm_compute in H. discriminate.
  - destruct (mic_transitions_and_single_spike 0.02 120 1200 100
                [(0.5, 100); (0.5, 100.2)]%float (0, 101.5)%float [] [] [] 0)
      as (_ & Hlow & _).
    destruct Hlow as (Hiff & _); [vm_compute; reflexivity|].
    rewrite (run_snoc _ [(0.5, 100); (0.5, 100.2)]%float (0, 101.5)%float).
    apply Hiff. right. vm_compute. reflexivity.
  - apply (mic_transitions_and_single_spike 0.02 120 1200 100
             [] (0, 100)%float [(0, 100.1)]%float [(0.5, 100.2)]%float
             [(0, 100.3)]%float 3).
    + repeat constructor.
    + repeat constructor.
    + repeat constructor.
    + repeat constructor.
Defined.

(** C3 as worded fails: with the default settings a loud block at 0 ms, a
    silent one at 50 ms and a loud one at 130 ms turn the state Active,
    although the signal was below the threshold 80 ms before and the
    excursion that ends at 130 ms has lasted 0 ms. *)
Lemma mic_active_without_continuous_signal :
  let pre := [(0.5, 100); (0, 100.05)]%float in
  let s := (0.5, 100.13)%float in
  let before := Mic.run (mic_start 0.02 120 1200 100) pre in
  Mic.is_active (snd before) = false /\
  Mic.is_active (snd (Mic._callback before s)) = true /\
  Mic.excursion 0.02 (pre ++ [s]) = [s] /\
  (Mic.stayed_above_for 0.02 120 pre s <-> False).
Proof.
  split; [|split; [|split]]; try (vm_compute; reflexivity).
  split; [|tauto]. vm_compute. discriminate.
Qed.

(** ** _trim, send_to_animaze, OutboxBatcher *)

Section OutboxFacts.
Import Outbox.

Lemma len_app (a b : str) : len (a ++ b) = len a + len b.
Proof. unfold len. rewrite length_app. lia. Qed.

Lemma trim_short maxlen s :
  len (strip s) <= maxlen -> _trim maxlen s = strip s.
Proof.
  intros H. unfold _trim. apply Z.leb_le in H. by rewrite H.
Qed.

Lemma trim_long maxlen s :
  1 <= maxlen -> maxlen < len (strip s) ->
  _trim maxlen s = firstn (Z.to_nat (maxlen - 1)) (strip s) ++ [ellipsis]
  /\ len (_trim maxlen s) = maxlen.
Proof.
  intros H1 H. unfold _trim.
  assert (E : (len (strip s) <=? maxlen) = false) by (apply Z.leb_gt; lia).
  rewrite E. unfold slice_to.
  assert (E' : (maxlen - 1 <? 0) = false) by (apply Z.ltb_ge; lia).
  rewrite E'. split; [done|].
  rewrite len_app. unfold len in *. rewrite length_take. simpl. lia.
Qed.

Lemma trim_bounded maxlen s : 1 <= maxlen -> len (_trim maxlen s) <= maxlen.
Proof.
  intros H1. destruct (Z_le_gt_dec (len (strip s)) maxlen) as [H|H].
  - by rewrite trim_short.
  - destruct (trim_long maxlen s H1) as [_ ->]; lia.
Qed.

Lemma lstrip_blank s : Forall (fun c => is_space c = true) s -> lstrip s = [].
Proof.
  induction 1 as [|c s Hc _ IH]; [done|]. simpl. by rewrite Hc.
Qed.

Lemma strip_blank s : Forall (fun c => is_space c = true) s -> strip s = [].
Proof. intros H. unfold strip. by rewrite lstrip_blank. Qed.

(** C10, for a line length of at least one character.  An empty [text]
    leaves the queue as it is; any other [text] adds exactly one message of
    at most [maxlen] characters: the stripped text when that fits, which is
    the empty message when [text] is white space only, and otherwise its
    first [maxlen - 1] characters followed by the ellipsis, [maxlen]
    characters in all; so a queue of messages within the bound stays within
    it. *)
Theorem send_to_animaze_bounded (maxlen : Z) (queue : list str) (text : str) :
  1 <= maxlen ->
  send_to_animaze maxlen queue [] = queue /\
  (text <> [] ->
   exists m, send_to_animaze maxlen queue text = queue ++ [m] /\
     len m <= maxlen /\
     (len (strip text) <= maxlen -> m = strip text) /\
     (Forall (fun c => is_space c = true) text -> m = []) /\
     (maxlen < len (strip text) ->
      m = firstn (Z.to_nat (maxlen - 1)) (strip text) ++ [ellipsis] /\
      len m = maxlen)) /\
  (Forall (fun m => len m <= maxlen) queue ->
   Forall (fun m => len m <= maxlen) (send_to_animaze maxlen queue text)).
Proof.
  intros H1. split; [done|]. split.
  - intros Hne. exists (_trim maxlen text).
    split; [|split; [|split; [|split]]].
    + unfold send_to_animaze. destruct text; [done|]. done.
    + by apply trim_bounded.
    + apply trim_short.
    + intros Hb. rewrite trim_short; rewrite (strip_blank _ Hb); [done|].
      unfold len. simpl. lia.
    + by apply trim_long.
  - intros Hq. unfold send_to_animaze. destruct (negb (truthy text)); [done|].
    apply Forall_app. split; [done|]. constructor; [|constructor].
    by apply trim_bounded.
Qed.

(** C10 on the default line length with a text of 200 characters. *)
Lemma send_to_animaze_bounded_witness :
  send_to_animaze 140 [] [] = [] /\
  (repeat 0x61%N 200 <> [] ->
   exists m, send_to_animaze 140 [] (repeat 0x61%N 200) = [] ++ [m] /\
     len m <= 140 /\
     (len (strip (repeat 0x61%N 200)) <= 140 ->
      m = strip (repeat 0x61%N 200)) /\
     (Forall (fun c => is_space c = true) (repeat 0x61%N 200) -> m = []) /\
     (140 < len (strip (repeat 0x61%N 200)) ->
      m = firstn (Z.to_nat (140 - 1)) (strip (repeat 0x61%N 200))
          ++ [ellipsis] /\
      len m = 140)) /\
  (Forall (fun m => len m <= 140) [] ->
   Forall (fun m => len m <= 140)
     (send_to_animaze 140 [] (repeat 0x61%N 200))).
Proof.
  apply (send_to_animaze_bounded 140 [] (repeat 0x61%N 200)). lia.
Defined.

(** C10 as worded fails in two ways.  The line length is read from the
    settings as it is: with a line length of 0 the text "abc" is enqueued
    as "ab" and the ellipsis, three characters.  And a text of three blanks
    is not empty, passes the test of line 276, and the empty message is
    enqueued. *)
Lemma send_to_animaze_overlong_or_empty_message :
  send_to_animaze 0 [] (lit "abc") = [lit "ab" ++ [ellipsis]] /\
  len (lit "ab" ++ [ellipsis]) = 3 /\
  truthy (lit "   ") = true /\
  send_to_animaze 140 [] (lit "   ") = [[]].
Proof. repeat split; vm_compute; reflexivity. Qed.

(** C6, as the code has it.  [add] of a non-empty fragment appends the
    stripped fragment; it flushes at once exactly when, after the append,
    the joined length exceeds the character cap or the item count has
    reached the item cap ([>=]): then the buffer is empty again and the
    joined payload went to the send path; otherwise the buffer keeps the
    fragment, nothing is sent, and the window runs from the first
    fragment. *)
Theorem add_flushes_when_a_cap_is_reached
  (maxlen : Z) (now : Q) (self : OutboxBatcher) (queue : list str)
  (text : str) :
  text <> [] ->
  let items := buffer self ++ [strip text] in
  let '(self', queue') := add maxlen now self queue text in
  if flush_due self items
  then buffer self' = [] /\ first_ts self' = None /\
       queue' = send_to_animaze maxlen queue (join (sep self) items)
  else buffer self' = items /\ queue' = queue /\
       first_ts self' = Some (match first_ts self with
                              | None => now | Some ts => ts end).
Proof.
  intros Hne items. unfold add.
  destruct text as [|c text]; [done|]. cbn [truthy negb].
  cbn [buffer sep max_chars max_items]. fold items. unfold flush_due.
  destruct (_ || _) eqn:E.
  - unfold _flush_locked. cbn [buffer sep]. fold items.
    destruct items as [|x l] eqn:Ei.
    + subst items. by destruct (buffer self).
    + done.
  - cbn [buffer first_ts]. repeat split. by destruct (first_ts self).
Qed.

(** C6 on the default settings: the eighth fragment flushes the buffer. *)
Lemma add_flushes_when_a_cap_is_reached_witness :
  let self := mk 8 8 320 default_sep
                 (map lit ["a"; "b"; "c"; "d"; "e"; "f"; "g"]%string)
                 (Some 0%Q) in
  let '(self', queue') := add 140 1%Q self [] (lit "h") in
  if flush_due self (buffer self ++ [strip (lit "h")])
  then buffer self' = [] /\ first_ts self' = None /\
       queue' = send_to_animaze 140 []
                  (join (sep self) (buffer self ++ [strip (lit "h")]))
  else buffer self' = buffer self ++ [strip (lit "h")] /\ queue' = [] /\
       first_ts self' = Some (match first_ts self with
                              | None => 1%Q | Some ts => ts end).
Proof.
  apply (add_flushes_when_a_cap_is_reached 140 1%Q
           (mk 8 8 320 default_sep
               (map lit ["a"; "b"; "c"; "d"; "e"; "f"; "g"]%string)
               (Some 0%Q))
           [] (lit "h")).
  discriminate.
Defined.

(** C6 as worded fails: with an item cap of 2, the second fragment makes
    neither the joined length exceed 320 nor the item count exceed 2, and
    yet [add] flushes: the buffer is empty and the payload is queued. *)
Lemma add_flushes_at_the_item_cap :
  let self := mk 8 2 320 default_sep [lit "a"] (Some 0%Q) in
  exceeds_a_cap self [lit "a"; lit "b"] = false /\
  add 140 1%Q self [] (lit "b")
  = (mk 8 2 320 default_sep [] None, [lit "a" ++ default_sep ++ lit "b"]).
Proof. split; vm_compute; reflexivity. Qed.

End OutboxFacts.

(** ** Relevance.score *)

Section RelevanceFacts.
Import Relevance.

Lemma bonus_sum_range q k l p :
  (0 <=? bonus_sum q k l p)%float = true /\
  (bonus_sum q k l p <=? 1)%float = true.
Proof. destruct q, k, l, p; vm_compute; split; reflexivity. Qed.

(** C7, as the code has it.  The score is the clamped sum of 0.6, 0.35,
    0.1 and 0.05 for the four tests, made on the comment lower-cased and
    stripped of surrounding white space ([low]) and on the lower-cased key
    words: a question mark in [low], a key word in [low], at least 7
    characters in [low], one of [: ; !] in [low].  The sum is the binary64
    sum in that order; the score lies in [0, 1]; and "warum ist das so?"
    scores at least 0.6 (it scores 1.0) with the default key words. *)
Theorem score_is_clamped_bonus_sum
  (lower : str -> str) (c : conf) (text : str) :
  let self := init lower c in
  let low := strip (lower text) in
  score lower self text
  = bonus_sum (contains (lit "?") low)
              (existsb (fun k => contains k low) (map lower (keywords_bonus c)))
              (7 <=? len low)
              (existsb (fun p => contains p low) [lit ":"; lit ";"; lit "!"])
  /\ (0 <=? score lower self text)%float = true
  /\ (score lower self text <=? 1)%float = true
  /\ (0.6 <=? score ascii_lower (init ascii_lower default_conf)
                (lit "warum ist das so?"))%float = true.
Proof.
  intros self low.
  assert (E : score lower self text
    = bonus_sum (contains (lit "?") low)
        (existsb (fun k => contains k low) (map lower (keywords_bonus c)))
        (7 <=? len low)
        (existsb (fun p => contains p low) [lit ":"; lit ";"; lit "!"])).
  { unfold score. fold low. cbn [kw_bonus self init].
    destruct (contains (lit "?") low),
             (existsb (fun k => contains k low) (map lower (keywords_bonus c))),
             (7 <=? len low),
             (existsb (fun p => contains p low) [lit ":"; lit ";"; lit "!"]);
      vm_compute; reflexivity. }
  split; [exact E|]. rewrite E.
  split; [apply bonus_sum_range|]. split; [apply bonus_sum_range|].
  vm_compute. reflexivity.
Qed.

(** C7 as worded fails on text that is not normalised: "hi" followed by six
    blanks has 8 characters but scores 0, not 0.1; "WARUM" holds no
    configured key word as it is written but scores 0.35. *)
Lemma score_tests_the_normalised_text :
  let self := init ascii_lower default_conf in
  score ascii_lower self (lit "hi      ") = 0%float /\
  score_as_worded default_keywords (lit "hi      ") = 0.1%float /\
  score ascii_lower self (lit "WARUM") = 0.35%float /\
  score_as_worded default_keywords (lit "WARUM") = 0%float.
Proof. repeat split; vm_compute; reflexivity. Qed.

End RelevanceFacts.

(** ** The comment pipeline *)

Section PipelineFacts.
Import Pipeline.

Lemma take_two_steps_decide fuel clock i b :
  TokenBucket.take (S (S fuel)) clock i b = TokenBucket.take 2 clock i b.
Proof.
  rewrite !take_unfold. destruct (TokenBucket._lock b); [done|]. cbv zeta.
  destruct (Qltb _ 1); [|done].
  destruct (Qeq_bool _ 0); [done|].
  rewrite !take_unfold. done.
Qed.

(** *** What a piece of the body leaves behind *)

(** The events it appended: the fragments handed to the batcher and the
    number of text-generation calls. *)
Definition appended (w w' : World) (adds : list str) (gens : nat) : Prop :=
  exists evs, trace w' = trace w ++ evs /\ added evs = adds /\
              generated evs = gens.

(** The three cooldown timers: the global one, the per-user ones, and the
    greeting cooldown of every user. *)
Definition same_timers (w w' : World) : Prop :=
  next_allowed_global w' = next_allowed_global w /\
  per_user_until_local w' = per_user_until_local w /\
  forall u, greet_cooldown_of w' u = greet_cooldown_of w u.

(** The output side: the batcher and the delivery queue. *)
Definition same_outbox (w w' : World) : Prop :=
  batcher w' = batcher w /\ message_queue w' = message_queue w.

Definition silent (w w' : World) : Prop :=
  appended w w' [] 0 /\ same_timers w w' /\ same_outbox w w'.

Lemma added_app e1 e2 : added (e1 ++ e2) = added e1 ++ added e2.
Proof. unfold added. by rewrite flat_map_app. Qed.

Lemma generated_app e1 e2 :
  generated (e1 ++ e2) = (generated e1 + generated e2)%nat.
Proof. unfold generated. by rewrite List.filter_app, length_app. Qed.

Lemma appended_refl w : appended w w [] 0.
Proof. exists []. by rewrite app_nil_r. Qed.

Lemma appended_same_trace w w' : trace w' = trace w -> appended w w' [] 0.
Proof. intros H. exists []. by rewrite app_nil_r. Qed.

Lemma appended_trans w w1 w2 a1 a2 g1 g2 :
  appended w w1 a1 g1 -> appended w1 w2 a2 g2 ->
  appended w w2 (a1 ++ a2) (g1 + g2).
Proof.
  intros (e1 & H1 & <- & <-) (e2 & H2 & <- & <-). exists (e1 ++ e2).
  rewrite H2, H1, app_assoc, added_app, generated_app. done.
Qed.

Lemma same_timers_refl w : same_timers w w.
Proof. by split. Qed.

Lemma same_timers_trans w w1 w2 :
  same_timers w w1 -> same_timers w1 w2 -> same_timers w w2.
Proof.
  intros (A1 & B1 & C1) (A2 & B2 & C2).
  split; [congruence|]. split; [congruence|].
  intros u. by rewrite C2, C1.
Qed.

Lemma same_outbox_refl w : same_outbox w w.
Proof. by split. Qed.

Lemma same_outbox_trans w w1 w2 :
  same_outbox w w1 -> same_outbox w1 w2 -> same_outbox w w2.
Proof. intros [A1 B1] [A2 B2]. split; congruence. Qed.

Lemma silent_refl w : silent w w.
Proof.
  split; [apply appended_refl|].
  split; [apply same_timers_refl | apply same_outbox_refl].
Qed.

Lemma silent_trans w w1 w2 : silent w w1 -> silent w1 w2 -> silent w w2.
Proof.
  intros (A1 & B1 & C1) (A2 & B2 & C2). split; [|split].
  - apply (appended_trans w w1 w2 [] [] 0 0); done.
  - by eapply same_timers_trans.
  - by eapply same_outbox_trans.
Qed.

(** *** Postconditions of the pieces that end normally *)

Definition post {A} (m : M A) (w : World) (Q : A -> World -> Prop) : Prop :=
  forall a w', m w = Ok a w' -> Q a w'.

Lemma post_bind {A B} (m : M A) (k : A -> M B) w Q :
  post m w (fun a w1 => post (k a) w1 Q) -> post (bind m k) w Q.
Proof.
  unfold post, bind. intros H b w' E.
  destruct (m w) as [a w1| |] eqn:Em; try done. by eapply H.
Qed.

Lemma post_ret {A} (a : A) w (Q : A -> World -> Prop) :
  Q a w -> post (ret a) w Q.
Proof. unfold post, ret. by intros H a' w' [= <- <-]. Qed.

Lemma post_mono {A} (m : M A) w (Q Q' : A -> World -> Prop) :
  post m w Q -> (forall a w', Q a w' -> Q' a w') -> post m w Q'.
Proof. unfold post. eauto. Qed.

Ltac wp lem :=
  apply post_bind; eapply post_mono; [apply lem|]; cbv beta.

Variable rt : Runtime.

Lemma silent_intro w w' evs :
  trace w' = trace w ++ evs -> added evs = [] -> generated evs = 0%nat ->
  next_allowed_global w' = next_allowed_global w ->
  per_user_until_local w' = per_user_until_local w ->
  users w' = users w ->
  batcher w' = batcher w -> message_queue w' = message_queue w ->
  silent w w'.
Proof.
  intros Ht Ha Hg Hn Hp Hu Hb Hq. split; [by exists evs|]. split; [|done].
  split; [done|]. split; [done|].
  intros u. unfold greet_cooldown_of. by rewrite Hu.
Qed.

Lemma time_time_spec w :
  post (time_time rt) w (fun _ w' => silent w w').
Proof using Type.
  intros t w' [= <- <-]. apply (silent_intro _ _ []); try done.
  cbn. by rewrite app_nil_r.
Qed.

Lemma sleep_spec d w : post (sleep d) w (fun _ w' => silent w w').
Proof.
  intros t w' [= <- <-]. by apply (silent_intro _ _ [EvSleep d]).
Qed.

Lemma gets_spec {A} (f : World -> A) w :
  post (gets f) w (fun a w' => a = f w /\ w' = w).
Proof. by intros a w' [= <- <-]. Qed.

Lemma touch_viewer_spec u n w :
  post (touch_viewer rt u n) w (fun _ w' => silent w w').
Proof using Type.
  unfold post, touch_viewer, bind, time_time, gets, modify, ret.
  intros v w' [= <- <-]. apply (silent_intro _ _ []); try done.
  cbn. by rewrite app_nil_r.
Qed.

Lemma mem_user_spec u w :
  post (_mem_user rt u) w
    (fun r w' => silent w w' /\ users w' !! u = Some r).
Proof using Type.
  unfold post, _mem_user, bind, gets, time_time, modify, ret.
  intros r w'. destruct (users w !! u) as [r0|] eqn:E.
  - intros [= <- <-]. split; [apply silent_refl | done].
  - intros [= <- <-]. cbn. split; [|by rewrite lookup_insert_eq].
    split; [by apply appended_same_trace|]. split; [|done].
    split; [done|]. split; [done|].
    intros u'. unfold greet_cooldown_of. cbn.
    destruct (decide (u' = u)) as [->|Hne].
    + by rewrite lookup_insert_eq, E.
    + by rewrite lookup_insert_ne.
Qed.

Lemma bucket_take_spec w :
  post (bucket_take rt) w (fun _ w' => silent w w').
Proof using Type.
  unfold post, bucket_take. intros [] w'.
  destruct (TokenBucket.take 2 _ _ _); try done.
  intros [= <-]. apply (silent_intro _ _ []); try done.
  cbn. by rewrite app_nil_r.
Qed.

Lemma wait_global_spec w :
  post (wait_global rt) w (fun _ w' => silent w w').
Proof using Type.
  unfold wait_global.
  wp time_time_spec. intros t w1 H1.
  wp (gets_spec next_allowed_global). intros nag w2 [-> ->].
  destruct (Qltb _ _).
  - wp time_time_spec. intros t' w2 H2.
    eapply post_mono; [apply sleep_spec|]. cbv beta. intros _ w3 H3.
    eauto using silent_trans.
  - by apply post_ret.
Qed.

(** [batcher.add] on an existing batcher hands over exactly the fragment
    and leaves the timers alone. *)
Lemma batcher_add_spec l f w b :
  batcher w = Some b ->
  post (batcher_add rt l f) w
    (fun _ w' => appended w w' [f] 0 /\ same_timers w w' /\
                 is_Some (batcher w')).
Proof using Type.
  intros Hb. unfold post, batcher_add. rewrite Hb. intros [] w'.
  destruct (Outbox.add _ _ _ _ _) as [b' q']. intros [= <-]. cbn.
  split; [by exists [EvAdd f]|]. split; [done|]. by eexists.
Qed.

(** The two timers of lines 677-678 move; nothing is said and the output
    side is as before. *)
Lemma set_cooldowns_spec l u w :
  post (set_cooldowns rt l u) w
    (fun _ w' => appended w w' [] 0 /\ same_outbox w w').
Proof using Type.
  unfold post, set_cooldowns, bind, time_time, modify. intros [] w'.
  intros [= <-]. cbn. split; [by apply appended_same_trace | done].
Qed.

Lemma set_last_greet_spec u r now w :
  post (set_last_greet u r now) w
    (fun _ w' => appended w w' [] 0 /\ same_outbox w w').
Proof.
  unfold post, set_last_greet, modify. intros [] w'.
  intros [= <-]. cbn. split; [by apply appended_same_trace | done].
Qed.

Lemma reply_to_comment_spec response n t u w :
  post (reply_to_comment response n t u) w
    (fun r w' => appended w w' [] 1 /\ same_timers w w' /\ same_outbox w w'
                 /\ (response = None -> r = None)).
Proof.
  unfold post, reply_to_comment, bind, modify, ret. intros r w'.
  assert (H : appended w (set_trace (trace w ++ [EvGenerate n t u]) w) [] 1).
  { by exists [EvGenerate n t u]. }
  destruct response as [content|].
  - destruct (18 <? _); intros [= <- <-];
      (split; [exact H|]); split; try done; split; done.
  - intros [= <- <-]. split; [exact H|]. split; [done|]. split; done.
Qed.

Lemma appended_silent_l w w1 w2 a g :
  silent w w1 -> appended w1 w2 a g -> appended w w2 a g.
Proof. intros [H _] H'. apply (appended_trans w w1 w2 [] a 0 g H H'). Qed.

Lemma appended_quiet_r w w1 w2 a g :
  appended w w1 a g -> appended w1 w2 [] 0 -> appended w w2 a g.
Proof.
  intros H H'. pose proof (appended_trans w w1 w2 a [] g 0 H H') as H2.
  by rewrite app_nil_r, Nat.add_0_r in H2.
Qed.

Lemma silent_outbox w w' b : silent w w' -> batcher w = Some b -> batcher w' = Some b.
Proof. intros (_ & _ & [Hb _]) H. congruence. Qed.

(** Lines 672-676 and 683-687: token, global cooldown, canned fragment,
    from a world with a batcher; [k] is the rest of the path. *)
Lemma send_canned_spec {A} l f (k : M A) w b (Q : A -> World -> Prop) :
  batcher w = Some b ->
  (forall w', appended w w' [f] 0 -> post k w' Q) ->
  post (bucket_take rt >> wait_global rt >> batcher_add rt l f >> k) w Q.
Proof using Type.
  intros Hb Hk.
  wp bucket_take_spec. intros _ w1 H1.
  wp wait_global_spec. intros _ w2 H2.
  assert (Hb2 : batcher w2 = Some b) by eauto using silent_outbox.
  wp (batcher_add_spec l f w2 b Hb2). intros _ w3 (H3 & _ & _).
  apply Hk.
  eapply appended_silent_l; [exact H1|].
  eapply appended_silent_l; [exact H2|]. exact H3.
Qed.

Lemma greeting_path_spec l it now w b :
  batcher w = Some b ->
  post (greeting_path rt l it now) w
    (fun quick w' =>
       if quick then appended w w' [nick it ++ lit " sagt hallo"] 0
       else silent w w').
Proof using Type.
  intros Hb. unfold greeting_path.
  destruct (_ && _); [|apply post_ret, silent_refl].
  wp mem_user_spec. intros u w1 [H1 Hu].
  destruct (Qleb _ _); [|by apply post_ret].
  wp set_last_greet_spec. intros _ w2 (H2 & Ho2).
  assert (Hb2 : batcher w2 = Some b).
  { destruct Ho2 as [-> _]. eauto using silent_outbox. }
  apply (send_canned_spec _ _ _ w2 b); [done|]. intros w3 H3.
  wp set_cooldowns_spec. intros _ w4 (H4 & _). apply post_ret.
  eapply appended_silent_l; [exact H1|].
  eapply appended_quiet_r; [|exact H4].
  apply (appended_trans w1 w2 w3 [] _ 0 0 H2 H3).
Qed.

Lemma thanks_path_spec l it w b :
  batcher w = Some b ->
  post (thanks_path rt l it) w
    (fun _ w' => appended w w' [nick it ++ lit " bedankt sich"] 0).
Proof using Type.
  intros Hb. unfold thanks_path.
  apply (send_canned_spec _ _ _ w b); [done|]. intros w3 H3.
  eapply post_mono; [apply set_cooldowns_spec|]. cbv beta.
  intros _ w4 (H4 & _). by eapply appended_quiet_r.
Qed.

Lemma reply_path_spec l it response w b :
  batcher w = Some b ->
  post (reply_path rt l it response) w
    (fun _ w' =>
       (exists r, response <> None /\ r <> [] /\
          appended w w'
            [lit "@" ++ nick it ++ lit ": " ++ text it ++ lit " " ++ [arrow]
             ++ lit " " ++ r] 1)
       \/ (appended w w' [] 1 /\ same_timers w w' /\ same_outbox w w')).
Proof using Type.
  intros Hb. unfold reply_path.
  wp bucket_take_spec. intros _ w1 H1.
  wp wait_global_spec. intros _ w2 H2.
  assert (H12 := silent_trans _ _ _ H1 H2).
  assert (Hb2 : batcher w2 = Some b) by eauto using silent_outbox.
  wp reply_to_comment_spec. intros reply w3 (H3 & Ht3 & Ho3 & Hfail).
  assert (Hb3 : batcher w3 = Some b) by (destruct Ho3 as [-> _]; done).
  assert (Hquiet : appended w w3 [] 1 /\ same_timers w w3 /\ same_outbox w w3).
  { destruct H12 as (Ha & Ht & Ho). split; [|split].
    - apply (appended_trans w w2 w3 [] [] 0 1 Ha H3).
    - by eapply same_timers_trans.
    - by eapply same_outbox_trans. }
  wp (gets_spec batcher). intros ob w4 [-> ->]. rewrite Hb3.
  destruct reply as [r|]; [|apply post_ret; by right].
  destruct (truthy r) eqn:Hr; [|apply post_ret; by right].
  wp (batcher_add_spec l
        (lit "@" ++ nick it ++ lit ": " ++ text it ++ lit " " ++ [arrow]
         ++ lit " " ++ r) w3 b Hb3).
  intros _ w4 (H4 & _ & _).
  eapply post_mono; [apply set_cooldowns_spec|]. cbv beta.
  intros _ w5 (H5 & _). left. exists r. split; [|split].
  - intros ->. by specialize (Hfail eq_refl).
  - by destruct r.
  - destruct Hquiet as (Ha & _ & _).
    pose proof (appended_trans w w3 w4 [] _ 1 0 Ha H4) as H6.
    rewrite Nat.add_0_r in H6. simpl app at 1 in H6.
    eapply appended_quiet_r; [exact H6 | exact H5].
Qed.

(** What one run of the body leaves behind, whichever path it takes. *)
Definition settled (l : Locals) (it : Item) (response : option str)
  (w w' : World) : Prop :=
  exists adds gens,
    appended w w' adds gens /\
    (adds <> [] \/ same_timers w w') /\
    Forall (fun f => f <> []) adds /\
    (gens <> 0%nat ->
     (reply_threshold l
      <=? Relevance.score (lower rt) (scorer l) (text it))%float = true /\
     (response = None ->
      adds = [] /\ same_timers w w' /\ same_outbox w w')).

Lemma settled_silent l it response w w' : silent w w' -> settled l it response w w'.
Proof.
  intros (Ha & Ht & Ho). exists [], 0%nat.
  split; [done|]. split; [by right|]. split; [constructor|]. done.
Qed.

Lemma body_spec l it response w b :
  batcher w = Some b ->
  post (body rt l it response) w (fun _ w' => settled l it response w w').
Proof using Type.
  intros Hb. unfold body.
  wp touch_viewer_spec. intros _ w1 H1.
  wp time_time_spec. intros now w2 H2.
  assert (H12 := silent_trans _ _ _ H1 H2).
  assert (Hb2 : batcher w2 = Some b) by eauto using silent_outbox.
  destruct (_ || _).
  { apply post_ret. by apply settled_silent. }
  wp (gets_spec per_user_until_local). intros cooling w3 [-> ->].
  destruct (Qltb _ _).
  { wp sleep_spec. intros _ w3 H3.
    intros [] w4 [= <-]. apply settled_silent.
    eapply silent_trans; [exact H12|]. eapply silent_trans; [exact H3|].
    apply (silent_intro _ _ []); try done. cbn. by rewrite app_nil_r. }
  wp (greeting_path_spec l it now w2 b Hb2). intros quick w3 H3.
  destruct quick.
  { apply post_ret. exists [nick it ++ lit " sagt hallo"], 0%nat.
    split; [by eapply appended_silent_l|]. split; [by left|].
    split; [|done]. constructor; [|constructor].
    intros E. apply app_eq_nil in E as [_ E]. discriminate. }
  assert (H123 := silent_trans _ _ _ H12 H3).
  assert (Hb3 : batcher w3 = Some b) by eauto using silent_outbox.
  destruct (_ && _).
  { eapply post_mono; [apply (thanks_path_spec l it w3 b Hb3)|]. cbv beta.
    intros _ w4 H4. exists [nick it ++ lit " bedankt sich"], 0%nat.
    split; [by eapply appended_silent_l|]. split; [by left|].
    split; [|done]. constructor; [|constructor].
    intros E. apply app_eq_nil in E as [_ E]. discriminate. }
  destruct (_ <=? _)%float eqn:Hthr.
  2:{ apply post_ret. by apply settled_silent. }
  eapply post_mono; [apply (reply_path_spec l it response w3 b Hb3)|].
  cbv beta. intros _ w4 [(r & Hresp & Hr & H4)|(H4 & Ht4 & Ho4)].
  - eexists _, 1%nat.
    split; [eapply appended_silent_l; [exact H123 | exact H4]|].
    split; [by left|]. split.
    + constructor; [|constructor].
      intros E. apply app_eq_nil in E as [E _]. discriminate.
    + intros _. split; [done|]. intros E. by destruct Hresp.
  - exists [], 1%nat. destruct H123 as (Ha & Ht & Ho).
    split; [apply (appended_trans w w3 w4 [] [] 0 1 Ha H4)|].
    assert (same_timers w w4) by (by eapply same_timers_trans).
    assert (same_outbox w w4) by (by eapply same_outbox_trans).
    split; [by right|]. split; [constructor|]. done.
Qed.

(** In every run of the loop body that comes to its end, with the batcher
    in place: either a fragment was handed to [batcher.add] (every such
    fragment is non-empty), or none of the three cooldown timers (the
    global one, the per-user ones, the greeting cooldown of any user) has
    changed; and when the text-generation call was made and failed, no
    fragment was handed over, no timer has changed, and the batcher and the
    delivery queue are as before. *)
Lemma cooldowns_only_with_enqueue
  (l : Locals) (it : Item) (response : option str) (w w' : World)
  (b : Outbox.OutboxBatcher) :
  batcher w = Some b ->
  body rt l it response w = Ok tt w' ->
  exists evs,
    trace w' = trace w ++ evs /\
    (added evs <> [] \/ same_timers w w') /\
    Forall (fun f => f <> []) (added evs) /\
    (generated evs <> 0%nat -> response = None ->
     added evs = [] /\ same_timers w w' /\ same_outbox w w').
Proof using Type.
  intros Hb Hrun.
  destruct (body_spec l it response w b Hb tt w' Hrun)
    as (adds & gens & (evs & Ht & <- & <-) & Hor & Hne & Hgen).
  exists evs. split; [done|]. split; [done|]. split; [done|].
  intros Hg Hnone. by apply Hgen.
Qed.

(** *** Runs that are suspended *)

Definition post_s {A} (m : M A) (w : World) (Q : World -> Prop) : Prop :=
  forall w', m w = Suspend w' -> Q w'.

Lemma post_s_bind {A B} (m : M A) (k : A -> M B) w Q :
  post_s m w Q -> post m w (fun a w1 => post_s (k a) w1 Q) ->
  post_s (bind m k) w Q.
Proof.
  unfold post_s, post, bind. intros Hs Hk w' E.
  destruct (m w) as [a w1|w1|w1] eqn:Em; try done.
  - by eapply Hk.
  - injection E as <-. by apply Hs.
Qed.

(** Nothing was said, the output side and the global and per-user timers
    are as before; the greeting cooldowns are left open. *)
Definition held (w w' : World) : Prop :=
  appended w w' [] 0 /\
  next_allowed_global w' = next_allowed_global w /\
  per_user_until_local w' = per_user_until_local w /\
  same_outbox w w'.

Lemma silent_held w w' : silent w w' -> held w w'.
Proof. intros (Ha & (Hg & Hp & _) & Ho). by repeat (split; [done|]). Qed.

Lemma held_trans w w1 w2 : held w w1 -> held w1 w2 -> held w w2.
Proof.
  intros (A1 & G1 & P1 & O1) (A2 & G2 & P2 & O2).
  split; [apply (appended_trans w w1 w2 [] [] 0 0 A1 A2)|].
  split; [congruence|]. split; [congruence|]. by eapply same_outbox_trans.
Qed.

Lemma time_time_ns w Q : post_s (time_time rt) w Q.
Proof using Type. by intros w' [=]. Qed.
Lemma sleep_ns d w Q : post_s (sleep d) w Q.
Proof. by intros w' [=]. Qed.
Lemma gets_ns {A} (f : World -> A) w Q : post_s (gets f) w Q.
Proof. by intros w' [=]. Qed.
Lemma modify_ns f w Q : post_s (modify f) w Q.
Proof. by intros w' [=]. Qed.
Lemma ret_ns {A} (a : A) w Q : post_s (ret a) w Q.
Proof. by intros w' [=]. Qed.
Lemma touch_viewer_ns u n w Q : post_s (touch_viewer rt u n) w Q.
Proof using Type. by intros w' [=]. Qed.
Lemma mem_user_ns u w Q : post_s (_mem_user rt u) w Q.
Proof using Type.
  intros w'. unfold _mem_user, bind, gets. by destruct (users w !! u).
Qed.
Lemma wait_global_ns w Q : post_s (wait_global rt) w Q.
Proof using Type.
  intros w'. unfold wait_global, bind, gets, time_time, sleep, modify, ret.
  by destruct (Qltb _ _).
Qed.
Lemma batcher_add_ns l f w Q : post_s (batcher_add rt l f) w Q.
Proof using Type.
  intros w'. unfold batcher_add. destruct (batcher w); [|done].
  by destruct (Outbox.add _ _ _ _ _).
Qed.
Lemma set_cooldowns_ns l u w Q : post_s (set_cooldowns rt l u) w Q.
Proof using Type. by intros w' [=]. Qed.
Lemma set_last_greet_ns u r now w Q : post_s (set_last_greet u r now) w Q.
Proof. by intros w' [=]. Qed.
Lemma reply_to_comment_ns response n t u w Q :
  post_s (reply_to_comment response n t u) w Q.
Proof.
  intros w'. unfold reply_to_comment, bind, modify, ret.
  destruct response; [destruct (18 <? _)|]; done.
Qed.

Lemma bucket_take_suspended w : post_s (bucket_take rt) w (held w).
Proof using Type.
  intros w'. unfold bucket_take.
  destruct (TokenBucket.take 2 _ _ _); try done; intros [= <-];
    apply silent_held, (silent_intro _ _ []); try done; cbn;
    by rewrite app_nil_r.
Qed.

(** The part shared by the three paths: token, global cooldown, the rest. *)
Lemma after_take_suspended {A} (k : M A) w0 w :
  held w0 w ->
  (forall w1, post_s k w1 (fun _ => False)) ->
  post_s (bucket_take rt >> k) w (held w0).
Proof using Type.
  intros H Hk. apply post_s_bind.
  - intros w' E. eapply held_trans; [exact H|]. by apply bucket_take_suspended.
  - intros _ w1 _ w' E. by destruct (Hk w1 w' E).
Qed.

Lemma greeting_path_suspended l it now w :
  post_s (greeting_path rt l it now) w (held w).
Proof using Type.
  unfold greeting_path. destruct (_ && _); [|apply ret_ns].
  apply post_s_bind; [apply mem_user_ns|].
  eapply post_mono; [apply mem_user_spec|]. cbv beta. intros u w1 [H1 _].
  destruct (Qleb _ _); [|apply ret_ns].
  apply post_s_bind; [apply set_last_greet_ns|].
  intros [] w2 [= <-].
  apply after_take_suspended.
  - eapply held_trans; [apply silent_held, H1|].
    split; [by apply appended_same_trace|]. done.
  - intros w3. apply post_s_bind; [apply wait_global_ns|]. intros _ w4 _.
    apply post_s_bind; [apply batcher_add_ns|]. intros _ w5 _.
    apply post_s_bind; [apply set_cooldowns_ns|]. intros _ w6 _.
    apply ret_ns.
Qed.

Lemma held_refl w : held w w.
Proof. apply silent_held, silent_refl. Qed.

Lemma thanks_path_suspended l it w :
  post_s (thanks_path rt l it) w (held w).
Proof using Type.
  unfold thanks_path. apply after_take_suspended; [apply held_refl|].
  intros w3. apply post_s_bind; [apply wait_global_ns|]. intros _ w4 _.
  apply post_s_bind; [apply batcher_add_ns|]. intros _ w5 _.
  apply set_cooldowns_ns.
Qed.

Lemma reply_path_suspended l it response w :
  post_s (reply_path rt l it response) w (held w).
Proof using Type.
  unfold reply_path. apply after_take_suspended; [apply held_refl|].
  intros w3. apply post_s_bind; [apply wait_global_ns|]. intros _ w4 _.
  apply post_s_bind; [apply reply_to_comment_ns|]. intros reply w5 _.
  apply post_s_bind; [apply gets_ns|]. intros ob w6 _.
  destruct reply as [r|], ob; try apply ret_ns.
  destruct (truthy r); [|apply ret_ns].
  apply post_s_bind; [apply batcher_add_ns|]. intros _ w7 _.
  apply set_cooldowns_ns.
Qed.

(** A run of the body that is suspended (in [bucket.take()]) has handed
    nothing to the batcher and made no text-generation call; the global
    and the per-user timers, the batcher and the queue are as before. *)
Lemma body_suspended l it response w w' b :
  batcher w = Some b ->
  body rt l it response w = Suspend w' -> held w w'.
Proof using Type.
  intros Hb. revert w'. change (post_s (body rt l it response) w (held w)).
  unfold body.
  apply post_s_bind; [apply touch_viewer_ns|].
  eapply post_mono; [apply touch_viewer_spec|]. cbv beta. intros _ w1 H1.
  apply post_s_bind; [apply time_time_ns|].
  eapply post_mono; [apply time_time_spec|]. cbv beta. intros now w2 H2.
  assert (H12 := silent_held _ _ (silent_trans _ _ _ H1 H2)).
  destruct (_ || _); [apply ret_ns|].
  apply post_s_bind; [apply gets_ns|]. intros cooling w3 [= <- <-].
  destruct (Qltb _ _).
  { apply post_s_bind; [apply sleep_ns|]. intros _ w3 _. apply modify_ns. }
  apply post_s_bind.
  { intros w3 E. eapply held_trans; [exact H12|].
    by apply (greeting_path_suspended l it now w2). }
  eapply post_mono; [apply (greeting_path_spec l it now w2 b)|].
  { destruct H1 as (_ & _ & [Hb1 _]). destruct H2 as (_ & _ & [Hb2 _]).
    congruence. }
  cbv beta. intros quick w3 H3. destruct quick; [apply ret_ns|].
  assert (H123 := held_trans _ _ _ H12 (silent_held _ _ H3)).
  destruct (_ && _).
  { intros w4 E. eapply held_trans; [exact H123|].
    by apply (thanks_path_suspended l it w3). }
  destruct (_ <=? _)%float; [|apply ret_ns].
  intros w4 E. eapply held_trans; [exact H123|].
  by apply (reply_path_suspended l it response w3).
Qed.

(** *** No run raises *)

Definition post_r {A} (m : M A) (w : World) (Q : World -> Prop) : Prop :=
  forall w', m w = Raise w' -> Q w'.

Lemma post_r_bind {A B} (m : M A) (k : A -> M B) w Q :
  post_r m w Q -> post m w (fun a w1 => post_r (k a) w1 Q) ->
  post_r (bind m k) w Q.
Proof.
  unfold post_r, post, bind. intros Hs Hk w' E.
  destruct (m w) as [a w1|w1|w1] eqn:Em; try done.
  - by eapply Hk.
  - injection E as <-. by apply Hs.
Qed.

(** The refill rate of the bucket is positive: [max(1, n) / 60]. *)
Definition rate_positive (w : World) : Prop :=
  (0 < TokenBucket.rate (bucket w))%Q.

Lemma take_keeps_rate fuel clock i b b' :
  TokenBucket.take fuel clock i b = TokenBucket.Returned b' ->
  TokenBucket.rate b' = TokenBucket.rate b.
Proof.
  revert i b b'. induction fuel as [|fuel IH]; intros i b b'; [done|].
  rewrite take_unfold. destruct (TokenBucket._lock b); [done|]. cbv zeta.
  destruct (Qltb _ 1).
  - destruct (Qeq_bool _ 0); [done|].
    destruct (TokenBucket.take fuel clock (S i) _) eqn:T; try done.
    intros [= <-]. apply IH in T. exact T.
  - by intros [= <-].
Qed.

Lemma take_raises_only_without_rate fuel clock i b b' :
  TokenBucket.take fuel clock i b = TokenBucket.Raised b' ->
  (TokenBucket.rate b == 0)%Q.
Proof.
  revert i b b'. induction fuel as [|fuel IH]; intros i b b'; [done|].
  rewrite take_unfold. destruct (TokenBucket._lock b); [done|]. cbv zeta.
  destruct (Qltb _ 1); [|done].
  destruct (Qeq_bool _ 0) eqn:Z0.
  - intros _. by apply Qeq_bool_iff in Z0.
  - destruct (TokenBucket.take fuel clock (S i) _) eqn:T; try done.
    intros _. by apply IH in T.
Qed.

(** The pieces of the body keep the rate positive and raise nothing. *)
Definition steady {A} (m : M A) : Prop :=
  forall w, rate_positive w ->
    post m w (fun _ w' => rate_positive w') /\ post_r m w (fun _ => False).

Lemma steady_bind {A B} (m : M A) (k : A -> M B) :
  steady m -> (forall a, steady (k a)) -> steady (bind m k).
Proof.
  intros Hm Hk w Hw. destruct (Hm w Hw) as [Hp Hr]. split.
  - apply post_bind. eapply post_mono; [exact Hp|]. cbv beta.
    intros a w1 H1. by apply Hk.
  - apply post_r_bind; [done|]. eapply post_mono; [exact Hp|]. cbv beta.
    intros a w1 H1. by apply Hk.
Qed.

Lemma steady_ret {A} (a : A) : steady (ret a).
Proof. intros w Hw. split; [by intros ? ? [= <- <-] | by intros ? [=]]. Qed.

Lemma steady_gets {A} (f : World -> A) : steady (gets f).
Proof. intros w Hw. split; [by intros ? ? [= <- <-] | by intros ? [=]]. Qed.

Lemma steady_modify f :
  (forall w, bucket (f w) = bucket w) -> steady (modify f).
Proof.
  intros Hf w Hw. split; [|by intros ? [=]].
  intros ? ? [= <- <-]. unfold rate_positive. by rewrite Hf.
Qed.

Lemma steady_time_time : steady (time_time rt).
Proof using Type.
  intros w Hw. split; [by intros ? ? [= <- <-] | by intros ? [=]].
Qed.

Lemma steady_sleep d : steady (sleep d).
Proof. by apply steady_modify. Qed.

Lemma steady_touch_viewer u n : steady (touch_viewer rt u n).
Proof using Type.
  unfold touch_viewer.
  apply steady_bind; [apply steady_time_time|]. intros now.
  apply steady_bind; [apply steady_gets|]. intros vs.
  apply steady_bind; [by apply steady_modify|]. intros _. apply steady_ret.
Qed.

Lemma steady_mem_user u : steady (_mem_user rt u).
Proof using Type.
  unfold _mem_user.
  apply steady_bind; [apply steady_gets|]. intros us.
  destruct (us !! u); [apply steady_ret|].
  apply steady_bind; [apply steady_time_time|]. intros t1.
  apply steady_bind; [apply steady_time_time|]. intros t2.
  apply steady_bind; [by apply steady_modify|]. intros _. apply steady_ret.
Qed.

Lemma steady_bucket_take : steady (bucket_take rt).
Proof using Type.
  intros w Hw. unfold bucket_take, post, post_r. split.
  - intros [] w'. destruct (TokenBucket.take 2 _ _ _) eqn:T; try done.
    intros [= <-]. unfold rate_positive in *. cbn.
    by rewrite (take_keeps_rate _ _ _ _ _ T).
  - intros w'. destruct (TokenBucket.take 2 _ _ _) eqn:T; try done.
    intros _. apply take_raises_only_without_rate in T.
    unfold rate_positive in Hw. lra.
Qed.

Lemma steady_wait_global : steady (wait_global rt).
Proof using Type.
  unfold wait_global.
  apply steady_bind; [apply steady_time_time|]. intros t.
  apply steady_bind; [apply steady_gets|]. intros nag.
  destruct (Qltb _ _); [|apply steady_ret].
  apply steady_bind; [apply steady_time_time|]. intros t'. apply steady_sleep.
Qed.

Lemma steady_batcher_add l f : steady (batcher_add rt l f).
Proof using Type.
  intros w Hw. unfold batcher_add, post, post_r.
  destruct (batcher w); [|split; [by intros ? ? [= <- <-] | done]].
  destruct (Outbox.add _ _ _ _ _). split; [|done]. by intros ? ? [= <- <-].
Qed.

Lemma steady_set_cooldowns l u : steady (set_cooldowns rt l u).
Proof using Type.
  unfold set_cooldowns.
  apply steady_bind; [apply steady_time_time|]. intros t.
  apply steady_bind; [by apply steady_modify|]. intros _.
  apply steady_bind; [apply steady_time_time|]. intros t'.
  by apply steady_modify.
Qed.

Lemma steady_reply_to_comment response n t u :
  steady (reply_to_comment response n t u).
Proof.
  unfold reply_to_comment.
  apply steady_bind; [by apply steady_modify|]. intros _.
  destruct response; [destruct (18 <? _)|]; apply steady_ret.
Qed.

Lemma steady_body l it response : steady (body rt l it response).
Proof using Type.
  unfold body, greeting_path, thanks_path, reply_path, set_last_greet.
  apply steady_bind; [apply steady_touch_viewer|]. intros _.
  apply steady_bind; [apply steady_time_time|]. intros now.
  destruct (_ || _); [apply steady_ret|].
  apply steady_bind; [apply steady_gets|]. intros cooling.
  destruct (Qltb _ _).
  { apply steady_bind; [apply steady_sleep|]. intros _. by apply steady_modify. }
  apply steady_bind.
  { destruct (_ && _); [|apply steady_ret].
    apply steady_bind; [apply steady_mem_user|]. intros u.
    destruct (Qleb _ _); [|apply steady_ret].
    apply steady_bind; [by apply steady_modify|]. intros _.
    apply steady_bind; [apply steady_bucket_take|]. intros _.
    apply steady_bind; [apply steady_wait_global|]. intros _.
    apply steady_bind; [apply steady_batcher_add|]. intros _.
    apply steady_bind; [apply steady_set_cooldowns|]. intros _.
    apply steady_ret. }
  intros quick. destruct quick; [apply steady_ret|].
  destruct (_ && _).
  { apply steady_bind; [apply steady_bucket_take|]. intros _.
    apply steady_bind; [apply steady_wait_global|]. intros _.
    apply steady_bind; [apply steady_batcher_add|]. intros _.
    apply steady_set_cooldowns. }
  destruct (_ <=? _)%float; [|apply steady_ret].
  apply steady_bind; [apply steady_bucket_take|]. intros _.
  apply steady_bind; [apply steady_wait_global|]. intros _.
  apply steady_bind; [apply steady_reply_to_comment|]. intros reply.
  apply steady_bind; [apply steady_gets|]. intros ob.
  destruct reply as [r|], ob; try apply steady_ret.
  destruct (truthy r); [|apply steady_ret].
  apply steady_bind; [apply steady_batcher_add|]. intros _.
  apply steady_set_cooldowns.
Qed.

(** The bucket of [process_comments] has a positive rate, whatever the
    settings. *)
Lemma startup_rate_positive c w : rate_positive (startup_world rt c w).
Proof using Type.
  unfold rate_positive, startup_world. cbn.
  assert (H : (0 < inject_Z (Z.max 1 (max_replies_per_min c)))%Q).
  { change 0%Q with (inject_Z 0). rewrite <- Zlt_Qlt. lia. }
  apply Qlt_shift_div_l; lra.
Qed.

(** With a positive rate, a run of the body ends normally or is suspended;
    it never raises. *)
Lemma body_never_raises l it response w w' :
  rate_positive w -> body rt l it response w <> Raise w'.
Proof using Type.
  intros Hw E. by destruct (steady_body l it response w Hw) as [_ Hr];
    destruct (Hr w' E).
Qed.

(** A comment that is kept, not deferred and taken by neither fast path is
    answered or ignored by the comparison of line 691 alone. *)
Lemma body_scores_against_threshold l it response w :
  (len (text it) <? min_len l)
  || Relevance.is_ignored (lower rt) (url_re rt) (scorer l) (text it) = false ->
  Qltb (clock rt (S (tick w)))
       (default 0%Q (per_user_until_local w !! uid it)) = false ->
  resp_greet l
  && Relevance.is_greeting (greetings_re rt) (scorer l) (text it)
  && negb (contains (lit "?") (text it))
  && (Z.of_nat (length (split (text it))) <=? 4) = false ->
  resp_thanks l && Relevance.is_thanks (thanks_re rt) (scorer l) (text it)
  = false ->
  body rt l it response w
  = if (reply_threshold l
        <=? Relevance.score (lower rt) (scorer l) (text it))%float
    then reply_path rt l it response (after_touch rt it w)
    else Ok tt (after_touch rt it w).
Proof using Type.
  intros Hkeep Hfree Hgreet Hthanks.
  unfold body, after_touch, greeting_path, bind, touch_viewer, time_time,
    gets, modify, ret.
  cbn in *. rewrite Hkeep. cbn. rewrite Hfree. cbn. rewrite Hgreet. cbn.
  rewrite Hthanks. by destruct (_ <=? _)%float.
Qed.

(** C5.  [process_comments] compares with 0.4 when the configured
    threshold exceeds 0.8 and with the configured value when it does not
    (binary64 comparison).  Every run of the loop body uses that value:
    the text-generation call is only made when the score reaches it, and a
    comment that is kept, not deferred and taken by neither fast path goes
    to the reply path exactly when the score reaches it. *)
Theorem threshold_clamped_at_startup (c : comment_cfg) :
  let l := startup rt c in
  let threshold := effective_threshold (reply_threshold_cfg c) in
  ((0.8 <? reply_threshold_cfg c)%float = true -> threshold = 0.4%float) /\
  ((0.8 <? reply_threshold_cfg c)%float = false ->
   threshold = reply_threshold_cfg c) /\
  reply_threshold l = threshold /\
  (forall it response w w' b evs,
     batcher w = Some b ->
     body rt l it response w = Ok tt w' ->
     trace w' = trace w ++ evs ->
     generated evs <> 0%nat ->
     (threshold <=? Relevance.score (lower rt) (scorer l) (text it))%float
     = true) /\
  (forall it response w,
     (len (text it) <? min_len l)
     || Relevance.is_ignored (lower rt) (url_re rt) (scorer l) (text it)
     = false ->
     Qltb (clock rt (S (tick w)))
          (default 0%Q (per_user_until_local w !! uid it)) = false ->
     resp_greet l
     && Relevance.is_greeting (greetings_re rt) (scorer l) (text it)
     && negb (contains (lit "?") (text it))
     && (Z.of_nat (length (split (text it))) <=? 4) = false ->
     resp_thanks l && Relevance.is_thanks (thanks_re rt) (scorer l) (text it)
     = false ->
     body rt l it response w
     = if (threshold <=? Relevance.score (lower rt) (scorer l) (text it))%float
       then reply_path rt l it response (after_touch rt it w)
       else Ok tt (after_touch rt it w)).
Proof using Type.
  intros l threshold. split; [|split; [|split; [|split]]].
  - intros H. unfold threshold, effective_threshold. by rewrite H.
  - intros H. unfold threshold, effective_threshold. by rewrite H.
  - reflexivity.
  - intros it response w w' b evs Hb Hrun Ht Hg.
    destruct (body_spec l it response w b Hb tt w' Hrun)
      as (adds & gens & (evs' & Ht' & <- & <-) & _ & _ & Hgen).
    assert (evs' = evs).
    { rewrite Ht' in Ht. by apply app_inv_head in Ht. }
    subst evs'. by apply Hgen.
  - intros it response w H1 H2 H3 H4.
    by apply (body_scores_against_threshold l it response w).
Qed.

End PipelineFacts.

(** On the default settings the comment "warum ist das so?" reaches the
    text-generation call, which fails; nothing is handed to the batcher and
    no timer moves. *)
Lemma failed_generation_leaves_no_trace :
  let rt := Pipeline.ascii_runtime in
  let l := Pipeline.startup rt Pipeline.default_cfg in
  let it := Pipeline.mkItem (lit "u1") (lit "Anna") (lit "warum ist das so?") in
  let w := Pipeline.fresh_world rt Pipeline.default_cfg in
  let w' := Pipeline.after_body rt l it None w in
  exists evs,
    Pipeline.trace w' = Pipeline.trace w ++ evs /\
    (Pipeline.added evs <> [] \/ same_timers w w') /\
    Forall (fun f => f <> []) (Pipeline.added evs) /\
    (Pipeline.generated evs <> 0%nat -> @None str = None ->
     Pipeline.added evs = [] /\ same_timers w w' /\ same_outbox w w').
Proof.
  apply (cooldowns_only_with_enqueue Pipeline.ascii_runtime
           (Pipeline.startup Pipeline.ascii_runtime Pipeline.default_cfg)
           (Pipeline.mkItem (lit "u1") (lit "Anna") (lit "warum ist das so?"))
           None
           (Pipeline.fresh_world Pipeline.ascii_runtime Pipeline.default_cfg)
           _ (Outbox.init 8 8 320 Outbox.default_sep)).
  - reflexivity.
  - vm_compute. reflexivity.
Qed.

(** C4 (the code fails the claim).  With [max_replies_per_min = 1] the
    greeting of a first user takes the only token.  The greeting of a second
    user, a few seconds later, writes that user's greeting cooldown (line
    671) and then waits in [bucket.take()], which never returns: the body is
    suspended for good, the greeting cooldown of the second user has moved
    from 0 to the time of the comment, and no fragment was handed to the
    batcher, whose buffer and queue are as before. *)
Theorem greeting_cooldown_moves_without_fragment :
  let rt := Pipeline.ascii_runtime in
  let c := Pipeline.mkCfg 1 6 15 3 1 0.6%float 1 360 1
             Relevance.default_conf 140 in
  let l := Pipeline.startup rt c in
  let first := Pipeline.mkItem (lit "u1") (lit "Anna") (lit "hallo") in
  let second := Pipeline.mkItem (lit "u2") (lit "Ben") (lit "hallo") in
  let w1 := Pipeline.after_body rt l first None (Pipeline.fresh_world rt c) in
  let w2 := Pipeline.after_body rt l second None w1 in
  Pipeline.body rt l second None w1 = Pipeline.Suspend w2 /\
  Pipeline.greet_cooldown_of w1 (lit "u2") = 0%Q /\
  Pipeline.greet_cooldown_of w2 (lit "u2") = 1011%Q /\
  Pipeline.trace w2 = Pipeline.trace w1 /\
  Pipeline.batcher w2 = Pipeline.batcher w1 /\
  Pipeline.message_queue w2 = Pipeline.message_queue w1 /\
  Pipeline.process_comments_turn rt c None
    (Pipeline.set_comment_queue [second] w1) = None.
Proof.
  cbv zeta.
  split; [vm_compute; reflexivity|]. split; [vm_compute; reflexivity|].
  split; [vm_compute; reflexivity|]. split; [vm_compute; reflexivity|].
  split; [vm_compute; reflexivity|]. split; [vm_compute; reflexivity|].
  vm_compute; reflexivity.
Qed.

(** ** The event handlers *)

Section ListenerFacts.

Variable lower : str -> str.
Variable url_re : str -> bool.
Variable sha1_hexdigest : str -> str.
Variable str_of_int : Z -> str.
Variable clock : nat -> Q.
Variable min_len : Z.
Variable scorer : Relevance.t.
Variable global_cooldown : Z.

Abbreviation dispatch :=
  (Listener.dispatch lower url_re sha1_hexdigest str_of_int clock min_len
     scorer global_cooldown).
Abbreviation fingerprint :=
  (Listener.fingerprint lower sha1_hexdigest str_of_int).

(** The queues of a state, in a fixed order. *)
Definition queues (st : Listener.State)
  : list Pipeline.Item * list (list Listener.LiveEvent) :=
  (Listener.comment_queue st,
   [Listener.gift_queue st; Listener.like_queue st; Listener.join_queue st;
    Listener.follow_queue st; Listener.share_queue st;
    Listener.subscribe_queue st]).

(** The clock reading at which the handler of [evt] consults the
    deduplicator: the follow handler reads the clock once before. *)
Definition check_reading (evt : Listener.LiveEvent) (st : Listener.State) : Q :=
  match Listener.what evt with
  | Listener.Follow => clock (S (Listener.tick st))
  | _ => clock (Listener.tick st)
  end.

Lemma seen_duplicate sig st :
  EventDeduper.has_key sig
    (EventDeduper.purge (clock (Listener.tick st))
       (EventDeduper._store (Listener.deduper st))) = true ->
  fst (Listener.seen clock sig st) = true /\
  queues (snd (Listener.seen clock sig st)) = queues st.
Proof.
  intros H. unfold Listener.seen, EventDeduper.seen. by rewrite H.
Qed.

(** The six handlers that compute a fingerprint drop an event whose
    fingerprint is in the store and not expired: no queue changes. *)
Lemma fingerprinted_duplicates_are_dropped evt st sig :
  fingerprint evt = Some sig ->
  EventDeduper.has_key sig
    (EventDeduper.purge (check_reading evt st)
       (EventDeduper._store (Listener.deduper st))) = true ->
  queues (dispatch evt st) = queues st.
Proof using Type.
  unfold Listener.fingerprint, Listener.dispatch, check_reading.
  destruct evt as [u [c|n k| | |c| |]]; cbn [Listener.what Listener.user];
    intros [= <-] H.
  - unfold Listener.on_comment. destruct (_ || _); [done|].
    destruct (negb _); [done|].
    destruct (seen_duplicate _ _ H) as [Hd Hq].
    destruct (Listener.seen clock _ st) as [dup st']. simpl in *.
    by rewrite Hd.
  - unfold Listener.on_gift.
    destruct (seen_duplicate _ _ H) as [Hd Hq].
    destruct (Listener.seen clock _ st) as [dup st']. simpl in *.
    by rewrite Hd.
  - unfold Listener.on_follow. cbn [Listener.follow_last Listener.tick].
    destruct (Qltb _ _); [done|].
    match goal with
    | |- context [Listener.seen clock ?s ?st0] =>
        destruct (seen_duplicate s st0 H) as [Hd Hq];
        destruct (Listener.seen clock s st0) as [dup st']
    end.
    simpl in *. by rewrite Hd.
  - unfold Listener.on_subscribe.
    destruct (seen_duplicate _ _ H) as [Hd Hq].
    destruct (Listener.seen clock _ st) as [dup st']. simpl in *.
    by rewrite Hd.
  - unfold Listener.on_share.
    destruct (seen_duplicate _ _ H) as [Hd Hq].
    destruct (Listener.seen clock _ st) as [dup st']. simpl in *.
    by rewrite Hd.
  - unfold Listener.on_join. destruct (negb _); [done|].
    destruct (seen_duplicate _ _ H) as [Hd Hq].
    destruct (Listener.seen clock _ st) as [dup st']. simpl in *.
    by rewrite Hd.
Qed.

(** C9 (the code fails the claim for likes).  [on_like] computes no
    fingerprint and never consults the deduplicator: a like event delivered
    twice is enqueued twice, and the deduplicator is as it was. *)
Theorem like_events_bypass_the_deduper
  (u : Listener.UserInfo) (count : Z) (st : Listener.State) :
  let evt := Listener.mkEvent u (Listener.Like count) in
  fingerprint evt = None /\
  Listener.like_queue (dispatch evt (dispatch evt st))
  = Listener.like_queue st ++ [evt; evt] /\
  Listener.deduper (dispatch evt (dispatch evt st)) = Listener.deduper st.
Proof using Type.
  intros evt. split; [done|]. split; [|done].
  unfold Listener.dispatch. cbn. by rewrite <- app_assoc.
Qed.

End ListenerFacts.

(** ** EventDeduper: what a call reports and what it leaves *)

Section DeduperMore.
Import EventDeduper.

Lemma purge_In now d kv :
  is_dict d ->
  In kv (purge now d) <-> In kv d /\ (now <= snd kv)%Q.
Proof.
  intros Hd. rewrite purge_filter by done. rewrite filter_In.
  rewrite negb_true_iff, Qltb_ge. done.
Qed.

(** X1.  On a store reached by any history of calls, [seen] answers true
    exactly when the store holds the signature with an expiry that is not
    before the reading. *)
Theorem seen_true_iff_stored_unexpired
  (ttl0 : Z) (history : list (Q * str)) (now : Q) (sig : str) :
  let d := run (init ttl0) history in
  fst (seen d now sig) = true
  <-> exists expiry, In (sig, expiry) (_store d) /\ (now <= expiry)%Q.
Proof.
  intros d.
  assert (Hd : is_dict (_store d)).
  { apply run_is_dict. apply List.NoDup_nil. }
  assert (E : fst (seen d now sig) = has_key sig (purge now (_store d))).
  { unfold seen. by destruct (has_key _ _). }
  rewrite E, has_key_In, in_map_iff. split.
  - intros ([k e] & Hk & Hin). simpl in Hk. subst k.
    apply purge_In in Hin; [|done]. exists e. done.
  - intros (e & Hin & Hle). exists (sig, e). split; [done|].
    apply purge_In; done.
Qed.

(** X2.  With a TTL that is not negative, after every call at reading
    [now] the store holds the signature of the call, and no item of the
    store has expired at [now]. *)
Theorem seen_stores_and_purges
  (ttl0 : Z) (history : list (Q * str)) (now : Q) (sig : str) :
  0 <= ttl0 ->
  let d := snd (seen (run (init ttl0) history) now sig) in
  has_key sig (_store d) = true /\
  Forall (fun kv => (now <= snd kv)%Q) (_store d).
Proof.
  intros Httl d. set (d0 := run (init ttl0) history) in *.
  assert (Hd : is_dict (_store d0)).
  { apply run_is_dict. apply List.NoDup_nil. }
  assert (Ht : ttl d0 = ttl0) by apply run_ttl.
  assert (Hlive : Forall (fun kv => (now <= snd kv)%Q) (purge now (_store d0))).
  { apply List.Forall_forall. intros kv Hin. by apply purge_In in Hin as [_ ?]. }
  subst d. unfold seen.
  destruct (has_key sig (purge now (_store d0))) eqn:E; simpl; [done|].
  unfold setitem. rewrite E. rewrite Ht.
  set (x := (sig, (now + inject_Z ttl0)%Q)).
  assert (Hall : Forall (fun kv => (now <= snd kv)%Q) (purge now (_store d0) ++ [x])).
  { apply Forall_app. split; [done|]. constructor; [|constructor].
    simpl. assert (0 <= inject_Z ttl0)%Q.
    { change 0%Q with (inject_Z 0). by rewrite <- Zle_Qle. }
    lra. }
  split.
  - apply has_key_In, in_map_iff. exists x. split; [done|].
    apply new_item_survives.
  - destruct (_ <? _); [|done]. unfold popitem_first.
    destruct (purge now (_store d0) ++ [x]); simpl; [done|].
    by apply Forall_cons_iff in Hall as [_ ?].
Qed.

Lemma seen_stores_and_purges_witness :
  let d := snd (seen (run (init 600) [(0%Q, lit "a"); (700%Q, lit "b")])
                  800%Q (lit "c")) in
  has_key (lit "c") (_store d) = true /\
  Forall (fun kv => (800 <= snd kv)%Q) (_store d).
Proof.
  apply (seen_stores_and_purges 600 [(0%Q, lit "a"); (700%Q, lit "b")]
           800%Q (lit "c")). lia.
Defined.

End DeduperMore.

(** ** OutboxBatcher: the buffer between [add] and the worker *)

Section WorkerFacts.
Import Outbox Worker.

Variable maxlen : Z.

(** The buffer waits within its caps, and the window clock runs exactly
    while it is not empty. *)
Definition waiting_well (self : OutboxBatcher) : Prop :=
  (first_ts self = None <-> buffer self = []) /\
  (buffer self <> [] ->
   Z.of_nat (length (buffer self)) < max_items self /\
   len (join (sep self) (buffer self)) <= max_chars self).

Lemma flush_waiting_well self q :
  waiting_well (fst (_flush_locked maxlen self q)) \/
  fst (_flush_locked maxlen self q) = self.
Proof.
  unfold _flush_locked. destruct (buffer self); [by right|]. left.
  split; simpl; [done|]. done.
Qed.

Lemma add_waiting_well now self q text :
  waiting_well self -> waiting_well (fst (add maxlen now self q text)).
Proof.
  intros Hw. unfold add. destruct (negb (truthy text)); [done|].
  cbn [buffer sep max_chars max_items].
  destruct (_ || _) eqn:E.
  - unfold _flush_locked. cbn [buffer].
    destruct (buffer self ++ [strip text]) eqn:Eb.
    + by destruct (buffer self).
    + split; simpl; done.
  - apply orb_false_iff in E as [E1 E2].
    apply Z.ltb_ge in E1. apply Z.leb_gt in E2.
    split; cbn [fst buffer first_ts max_items max_chars sep].
    + split; [by destruct (first_ts self)|].
      intros H. by destruct (buffer self).
    + intros _. split; [done|]. done.
Qed.

Lemma turn_waiting_well m s n1 n2 self q :
  waiting_well self -> waiting_well (fst (worker_turn maxlen m s n1 n2 self q)).
Proof using Type.
  intros Hw. unfold worker_turn. destruct (m || s); [done|].
  destruct (buffer self) eqn:Eb; [done|].
  destruct (Qleb _ _); [|done].
  unfold _flush_locked. rewrite Eb. split; simpl; done.
Qed.

Lemma run_waiting_well ops st :
  waiting_well (fst st) -> waiting_well (fst (run maxlen st ops)).
Proof using Type.
  unfold run. revert st. induction ops as [|o ops IH]; intros st H; [done|].
  simpl. apply IH. destruct o; simpl.
  - by apply add_waiting_well.
  - by apply turn_waiting_well.
Qed.

(** X4.  Whatever fragments are added and whatever turns the worker takes,
    from a new batcher: the window clock [first_ts] is unset exactly when
    the buffer is empty, and a buffer that waits holds fewer than
    [max_items] fragments whose joined length is at most [max_chars]. *)
Theorem buffer_waits_within_caps
  (window items chars : Z) (sep0 : str) (queue : list str) (ops : list op) :
  let self := fst (run maxlen (init window items chars sep0, queue) ops) in
  (first_ts self = None <-> buffer self = []) /\
  (buffer self <> [] ->
   Z.of_nat (length (buffer self)) < max_items self /\
   len (join (sep self) (buffer self)) <= max_chars self).
Proof using Type.
  intros self. apply (run_waiting_well ops). split; simpl; done.
Qed.


Lemma send_grows q text :
  1 <= maxlen ->
  exists extra, send_to_animaze maxlen q text = q ++ extra /\
    Forall (fun m => len m <= maxlen) extra /\ (length extra <= 1)%nat.
Proof using Type.
  intros H1. unfold send_to_animaze. destruct (negb (truthy text)).
  - exists []. rewrite app_nil_r. repeat split; [constructor | simpl; lia].
  - exists [_trim maxlen text]. repeat split; [|simpl; lia].
    repeat constructor. by apply trim_bounded.
Qed.

Lemma flush_grows self q :
  1 <= maxlen ->
  exists extra, snd (_flush_locked maxlen self q) = q ++ extra /\
    Forall (fun m => len m <= maxlen) extra /\ (length extra <= 1)%nat.
Proof using Type.
  intros H1. unfold _flush_locked. destruct (buffer self).
  - exists []. rewrite app_nil_r. repeat split; [constructor | simpl; lia].
  - simpl. by apply send_grows.
Qed.

Lemma nothing_grows (q : list str) :
  exists extra, q = q ++ extra /\
    Forall (fun m => len m <= maxlen) extra /\ (length extra <= 1)%nat.
Proof using Type.
  exists []. rewrite app_nil_r. repeat split; [constructor | simpl; lia].
Qed.

Lemma apply_op_grows st o :
  1 <= maxlen ->
  exists extra, snd (apply_op maxlen st o) = snd st ++ extra /\
    Forall (fun m => len m <= maxlen) extra /\ (length extra <= 1)%nat.
Proof using Type.
  intros H1. destruct o as [now text|m s n1 n2]; simpl.
  - unfold add. destruct (negb (truthy text)); [apply nothing_grows|].
    destruct (_ || _); [by apply flush_grows | apply nothing_grows].
  - unfold worker_turn. destruct (m || s); [apply nothing_grows|].
    destruct (buffer (fst st)) eqn:Eb; [apply nothing_grows|].
    destruct (Qleb _ _); [by apply flush_grows | apply nothing_grows].
Qed.

(** X5.  The batcher only ever appends to the message queue, at most one
    message for each call of [add] or turn of the worker, and every
    message it appends is at most [max_line_length] characters long. *)
Theorem batcher_messages_within_line_length
  (st : OutboxBatcher * list str) (ops : list op) :
  1 <= maxlen ->
  exists sent, snd (run maxlen st ops) = snd st ++ sent /\
    Forall (fun m => len m <= maxlen) sent /\
    (length sent <= length ops)%nat.
Proof using Type.
  intros H1. unfold run. revert st.
  induction ops as [|o ops IH]; intros st.
  - exists []. simpl. rewrite app_nil_r. repeat split; [constructor|lia].
  - simpl. destruct (IH (apply_op maxlen st o)) as (s2 & E2 & F2 & L2).
    destruct (apply_op_grows st o H1) as (s1 & E1 & F1 & L1).
    exists (s1 ++ s2). rewrite E2, E1, <- app_assoc. split; [done|].
    split; [by apply Forall_app|]. rewrite length_app. lia.
Qed.

Lemma join_snoc (sp : str) l x :
  l <> [] -> join sp (l ++ [x]) = join sp l ++ sp ++ x.
Proof.
  induction l as [|a l IH]; [done|]. intros _.
  destruct l as [|b l]; [done|].
  change (join sp ((a :: b :: l) ++ [x]))
    with (a ++ sp ++ join sp ((b :: l) ++ [x])).
  rewrite IH by done.
  change (join sp (a :: b :: l)) with (a ++ sp ++ join sp (b :: l)).
  by rewrite <- !app_assoc.
Qed.

Lemma join_prefix_len (sp : str) l x :
  len (join sp l) <= len (join sp (l ++ [x])).
Proof.
  destruct l as [|a l].
  - unfold len; simpl; lia.
  - rewrite join_snoc by done. rewrite !len_app. unfold len; lia.
Qed.

Lemma flush_due_prefix self l x :
  flush_due self (l ++ [x]) = false -> flush_due self l = false.
Proof.
  unfold flush_due. intros H. apply orb_false_iff in H as [H1 H2].
  apply Z.ltb_ge in H1. apply Z.leb_gt in H2.
  apply orb_false_iff. split.
  - apply Z.ltb_ge. pose proof (join_prefix_len (sep self) l x). lia.
  - apply Z.leb_gt. rewrite length_app in H2. simpl in H2. lia.
Qed.

Lemma add_all_snoc st fs f :
  add_all maxlen st (fs ++ [f]) =
  add maxlen (fst f) (fst (add_all maxlen st fs)) (snd (add_all maxlen st fs))
    (snd f).
Proof using Type.
  unfold add_all, run. by rewrite map_app, fold_left_app.
Qed.

Lemma add_all_buffers window items chars sp q (t0 : Q) first rest :
  let fs := (t0, first) :: rest in
  Forall (fun f => truthy (snd f) = true) fs ->
  flush_due (init window items chars sp) (map (fun f => strip (snd f)) fs)
    = false ->
  add_all maxlen (init window items chars sp, q) fs =
  (mk window items chars sp (map (fun f => strip (snd f)) fs) (Some t0), q).
Proof using Type.
  cbv zeta. induction rest as [|f rest IH] using rev_ind; intros Ht Hd.
  - unfold add_all, run. simpl. unfold add.
    apply Forall_cons in Ht as [Ht _]. simpl in Ht. rewrite Ht. simpl negb.
    cbv iota. cbn [buffer sep max_chars max_items first_ts init app].
    unfold flush_due in Hd. simpl in Hd. simpl. by rewrite Hd.
  - rewrite app_comm_cons, add_all_snoc.
    rewrite app_comm_cons, map_app in Hd. simpl map in Hd.
    rewrite app_comm_cons in Ht. apply Forall_app in Ht as [Ht1 Ht2].
    rewrite IH; [|done|by apply flush_due_prefix in Hd].
    apply Forall_cons in Ht2 as [Ht2 _].
    unfold add. rewrite Ht2. simpl negb. cbv iota.
    cbn [fst snd buffer sep max_chars max_items first_ts window_s].
    rewrite map_app. simpl map.
    unfold flush_due in Hd. cbn [init sep max_chars max_items] in Hd.
    simpl map in Hd. by rewrite Hd.
Qed.

(** X6.  Fragments added while no cap is reached wait in the buffer, the
    window running from the first of them.  The first idle turn of the
    worker at which the window has run out (measured from the first [add],
    or from a second reading of the clock when that [add] was at reading
    0.0, which is falsy) leaves the batcher as new and hands the payload,
    the stripped fragments joined with the separator, to [send_to_animaze]
    as one text: nothing is enqueued when the payload is empty; otherwise
    one message is, the stripped payload when it is within the line length
    and else its cut to [maxlen - 1] followed by the ellipsis. *)
Theorem batch_sent_as_one_message
  (window items chars : Z) (sp : str) (queue : list str)
  (t0 : Q) (first : str) (rest : list (Q * str)) (now1 now2 : Q) :
  let fs := (t0, first) :: rest in
  let fragments := map (fun f => strip (snd f)) fs in
  let payload := join sp fragments in
  Forall (fun f => truthy (snd f) = true) fs ->
  flush_due (init window items chars sp) fragments = false ->
  (inject_Z window <= now1 - (if Qeq_bool t0 0 then now2 else t0))%Q ->
  let waiting := add_all maxlen (init window items chars sp, queue) fs in
  waiting = (mk window items chars sp fragments (Some t0), queue) /\
  exists queue',
    worker_turn maxlen false false now1 now2 (fst waiting) (snd waiting)
    = (init window items chars sp, queue') /\
    (payload = [] -> queue' = queue) /\
    (payload <> [] -> len (strip payload) <= maxlen ->
     queue' = queue ++ [strip payload]) /\
    (payload <> [] -> maxlen < len (strip payload) ->
     queue' = queue ++ [slice_to (strip payload) (maxlen - 1) ++ [ellipsis]]).
Proof using Type.
  cbv zeta. intros Ht Hd Hw.
  rewrite add_all_buffers by done. split; [done|].
  exists (send_to_animaze maxlen queue
            (join sp (map (fun f => strip (snd f)) ((t0, first) :: rest)))).
  split.
  { unfold worker_turn. simpl orb. cbv iota. cbn [fst snd buffer map].
    unfold first_ts_or. cbn [first_ts window_s].
    unfold Qleb. apply Qle_bool_iff in Hw. rewrite Hw.
    unfold _flush_locked.
    by cbn [buffer map sep window_s max_items max_chars]. }
  remember (join sp (map (fun f => strip (snd f)) ((t0, first) :: rest)))
    as payload eqn:Ep.
  clear Ep. unfold send_to_animaze, _trim. split; [|split].
  - by intros ->.
  - intros Hne Hlen. apply Z.leb_le in Hlen. rewrite Hlen.
    by destruct payload.
  - intros Hne Hlen. apply Z.leb_gt in Hlen. rewrite Hlen.
    by destruct payload.
Qed.

End WorkerFacts.

Lemma batcher_messages_within_line_length_witness :
  1 <= 140 /\
  exists sent,
    snd (Worker.run 140 (Outbox.init 8 2 320 Outbox.default_sep, [])
           [Worker.Add 1 (lit "a"); Worker.Add 2 (lit "b")])
    = snd (Outbox.init 8 2 320 Outbox.default_sep, @nil str) ++ sent /\
    Forall (fun m => len m <= 140) sent /\ (length sent <= 2)%nat.
Proof.
  split; [lia|].
  apply (batcher_messages_within_line_length 140
           (Outbox.init 8 2 320 Outbox.default_sep, [])
           [Worker.Add 1 (lit "a"); Worker.Add 2 (lit "b")]). lia.
Defined.

(** X6 on the default batcher: two fragments added at readings 1 and 2 are
    sent by the turn at reading 10 as one message, "hi", the separator,
    "you". *)
Lemma batch_sent_as_one_message_witness :
  exists queue',
    Worker.worker_turn 140 false false 10 10
      (fst (Worker.add_all 140 (Outbox.init 8 8 320 Outbox.default_sep, [])
              [(1%Q, lit " hi "); (2%Q, lit "you")]))
      (snd (Worker.add_all 140 (Outbox.init 8 8 320 Outbox.default_sep, [])
              [(1%Q, lit " hi "); (2%Q, lit "you")]))
    = (Outbox.init 8 8 320 Outbox.default_sep, queue') /\
    queue' = [lit "hi " ++ [bullet] ++ lit " you"].
Proof.
  destruct (batch_sent_as_one_message 140 8 8 320 Outbox.default_sep []
              1 (lit " hi ") [(2%Q, lit "you")] 10 10)
    as (_ & queue' & Hturn & _ & Hfits & _).
  - repeat constructor.
  - vm_compute. reflexivity.
  - vm_compute. discriminate.
  - exists queue'. split; [exact Hturn|].
    rewrite Hfits; [vm_compute; reflexivity | vm_compute; discriminate
                   | vm_compute; discriminate].
Defined.

(** Two fragments of 100 characters wait together (203 characters joined,
    within the 320 of the batcher) and are sent as one message that is cut
    to the line length of 140. *)
Example long_batch_is_cut :
  let fs := [(1%Q, repeat 0x61%N 100); (2%Q, repeat 0x62%N 100)] in
  let waiting :=
    Worker.add_all 140 (Outbox.init 8 8 320 Outbox.default_sep, []) fs in
  len (join Outbox.default_sep (map snd fs)) = 203 /\
  snd (Worker.worker_turn 140 false false 10 10 (fst waiting) (snd waiting))
  = [repeat 0x61%N 100 ++ lit " " ++ [bullet] ++ lit " "
     ++ repeat 0x62%N 36 ++ [ellipsis]].
Proof. split; vm_compute; reflexivity. Qed.

(** ** Strings: [strip], [split] and what is built from them *)

Section StringFacts.

(** A word: not empty and free of whitespace. *)
Definition is_word (w : str) : Prop :=
  w <> [] /\ Forall (fun c => is_space c = false) w.

Lemma lstrip_nonspace c s : is_space c = false -> lstrip (c :: s) = c :: s.
Proof. intros H. simpl. by rewrite H. Qed.

Lemma lstrip_idem s : lstrip (lstrip s) = lstrip s.
Proof.
  induction s as [|c s IH]; [done|]. simpl.
  destruct (is_space c) eqn:E; [done|]. simpl. by rewrite E.
Qed.

Lemma lstrip_head s :
  match lstrip s with [] => True | c :: _ => is_space c = false end.
Proof.
  induction s as [|c s IH]; [done|]. simpl.
  destruct (is_space c) eqn:E; [done|]. done.
Qed.

Lemma lstrip_snoc s c :
  is_space c = false -> lstrip (s ++ [c]) = lstrip s ++ [c].
Proof.
  intros H. induction s as [|a s IH]; simpl.
  - by rewrite H.
  - by destruct (is_space a).
Qed.

Lemma lstrip_app_nonempty s r :
  lstrip s <> [] -> lstrip (s ++ r) = lstrip s ++ r.
Proof.
  induction s as [|a s IH]; [done|]. simpl.
  destruct (is_space a); [done|]. done.
Qed.

(** The last character of a right-stripped string is no whitespace. *)
Lemma rstrip_last s :
  match rev (rstrip s) with [] => True | c :: _ => is_space c = false end.
Proof. unfold rstrip. rewrite rev_involutive. apply lstrip_head. Qed.

Lemma rstrip_idem s : rstrip (rstrip s) = rstrip s.
Proof. unfold rstrip. by rewrite rev_involutive, lstrip_idem. Qed.

Lemma rstrip_snoc s c : is_space c = false -> rstrip (s ++ [c]) = s ++ [c].
Proof.
  intros H. unfold rstrip. rewrite rev_app_distr. simpl.
  rewrite H. simpl. by rewrite rev_involutive.
Qed.

(** Right-stripping removes a suffix, so what the string starts with
    stays. *)
Lemma rstrip_cons c s :
  is_space c = false -> exists r, rstrip (c :: s) = c :: r.
Proof.
  intros H. unfold rstrip. simpl rev.
  destruct (lstrip (rev s)) eqn:E.
  - rewrite lstrip_snoc, E by done. by exists [].
  - rewrite lstrip_app_nonempty by (by rewrite E).
    rewrite rev_app_distr. simpl. by eexists.
Qed.

Lemma lstrip_rstrip s : lstrip (rstrip (lstrip s)) = rstrip (lstrip s).
Proof.
  pose proof (lstrip_head s) as H. destruct (lstrip s) as [|c r] eqn:E.
  - done.
  - destruct (rstrip_cons c r H) as [r' ->]. by apply lstrip_nonspace.
Qed.

Lemma strip_idem s : strip (strip s) = strip s.
Proof. unfold strip. by rewrite lstrip_rstrip, rstrip_idem. Qed.

Lemma strip_head s :
  match strip s with [] => True | c :: _ => is_space c = false end.
Proof.
  unfold strip. rewrite <- lstrip_rstrip. apply lstrip_head.
Qed.

Lemma firstn_head {A} n (l : list A) a r :
  firstn (S n) l = a :: r -> exists l', l = a :: l'.
Proof. destruct l; [done|]. simpl. intros [= -> _]. by eexists. Qed.

Lemma is_space_ellipsis : is_space ellipsis = false.
Proof. reflexivity. Qed.

(** What [_trim] returns has no whitespace at either end. *)
Lemma trim_stripped maxlen s :
  1 <= maxlen -> strip (Outbox._trim maxlen s) = Outbox._trim maxlen s.
Proof.
  intros H1. destruct (Z_le_gt_dec (len (strip s)) maxlen) as [H|H].
  - rewrite trim_short by done. apply strip_idem.
  - destruct (trim_long maxlen s H1) as [-> _]; [lia|].
    pose proof (strip_head s) as Hh. remember (strip s) as t eqn:Et.
    clear Et. unfold strip.
    assert (lstrip (firstn (Z.to_nat (maxlen - 1)) t ++ [ellipsis])
            = firstn (Z.to_nat (maxlen - 1)) t ++ [ellipsis]) as ->.
    { destruct (firstn _ _) as [|c r] eqn:E; [done|].
      destruct (Z.to_nat (maxlen - 1)) as [|n]; [done|].
      apply firstn_head in E as [l' E].
      rewrite E in Hh. by apply lstrip_nonspace. }
    apply rstrip_snoc, is_space_ellipsis.
Qed.

End StringFacts.

(** X7.  For a line length of at least one character, [_trim] is
    idempotent: a line that was shortened once is left as it is. *)
Theorem trim_idempotent (maxlen : Z) (s : str) :
  1 <= maxlen ->
  Outbox._trim maxlen (Outbox._trim maxlen s) = Outbox._trim maxlen s.
Proof.
  intros H1. rewrite (trim_short maxlen (Outbox._trim maxlen s)).
  - by apply trim_stripped.
  - rewrite trim_stripped by done. by apply trim_bounded.
Qed.

Lemma trim_idempotent_witness :
  1 <= 5 /\
  Outbox._trim 5 (Outbox._trim 5 (lit " hello world ")) =
  Outbox._trim 5 (lit " hello world ").
Proof. split; [lia|]. apply (trim_idempotent 5 (lit " hello world ")). lia. Defined.

Section SplitFacts.

Definition nonspace (w : str) : Prop := Forall (fun c => is_space c = false) w.

Lemma split_aux_word cur w s :
  nonspace w -> split_ws_aux cur (w ++ s) = split_ws_aux (rev w ++ cur) s.
Proof.
  intros H. revert cur. induction H as [|c w Hc Hw IH]; intros cur; [done|].
  simpl. rewrite Hc, IH. by rewrite <- app_assoc.
Qed.

Lemma split_aux_words cur s :
  nonspace cur -> Forall is_word (split_ws_aux cur s).
Proof.
  revert cur. induction s as [|c s IH]; intros cur Hcur; simpl.
  - destruct cur as [|a cur]; [constructor|]. repeat constructor.
    + simpl. by destruct (rev cur).
    + by apply Forall_rev.
  - destruct (is_space c) eqn:E.
    + destruct cur as [|a cur]; [apply IH; constructor|]. constructor.
      * split; [simpl; by destruct (rev cur) | by apply Forall_rev].
      * apply IH; constructor.
    + apply IH. by constructor.
Qed.

Lemma split_words s : Forall is_word (split s).
Proof. apply split_aux_words; constructor. Qed.

Lemma split_aux_space cur c s :
  is_space c = true -> cur <> [] ->
  split_ws_aux cur (c :: s) = rev cur :: split_ws_aux [] s.
Proof. intros H Hc. simpl. rewrite H. by destruct cur. Qed.

(** The words joined by single blanks, with something that is no
    whitespace appended, split into as many words again. *)
Lemma split_join_length (ws : list str) (suffix : str) :
  Forall is_word ws -> ws <> [] -> nonspace suffix ->
  length (split (join (lit " ") ws ++ suffix)) = length ws.
Proof.
  intros Hws Hne Hs. unfold split.
  induction Hws as [|w ws [Hw1 Hw2] Hws IH]; [done|]. clear Hne.
  destruct ws as [|w' ws].
  - simpl join. rewrite <- (app_nil_r (w ++ suffix)).
    rewrite (split_aux_word [] (w ++ suffix) []) by (by apply Forall_app_2).
    simpl. rewrite app_nil_r. destruct (rev (w ++ suffix)) eqn:E; [|done].
    apply (f_equal (@length _)) in E. rewrite length_rev, length_app in E.
    destruct w; [done|]. simpl in E. lia.
  - change (join (lit " ") (w :: w' :: ws))
      with (w ++ lit " " ++ join (lit " ") (w' :: ws)).
    rewrite <- !app_assoc. rewrite split_aux_word by done.
    rewrite app_nil_r. simpl app at 1. rewrite split_aux_space.
    + simpl length. f_equal. by apply IH.
    + reflexivity.
    + destruct w; [done|]. simpl. by destruct (rev w).
Qed.

Lemma split_aux_trailing_space cur s c :
  is_space c = true -> split_ws_aux cur (s ++ [c]) = split_ws_aux cur s.
Proof.
  intros H. revert cur. induction s as [|a s IH]; intros cur; simpl.
  - rewrite H. by destruct cur.
  - rewrite !IH. done.
Qed.

Lemma split_aux_trailing_spaces cur s sp :
  Forall (fun c => is_space c = true) sp ->
  split_ws_aux cur (s ++ sp) = split_ws_aux cur s.
Proof.
  intros H. revert s. induction H as [|c sp Hc Hsp IH]; intros s.
  - by rewrite app_nil_r.
  - change (c :: sp) with ([c] ++ sp). rewrite app_assoc, IH.
    by apply split_aux_trailing_space.
Qed.

Lemma lstrip_decompose s :
  exists sp, s = sp ++ lstrip s /\ Forall (fun c => is_space c = true) sp.
Proof.
  induction s as [|c s (sp & E & H)]; [by exists []|]. simpl.
  destruct (is_space c) eqn:Ec.
  - exists (c :: sp). split; [simpl; by f_equal | by constructor].
  - by exists [].
Qed.

Lemma rstrip_decompose s :
  exists sp, s = rstrip s ++ sp /\ Forall (fun c => is_space c = true) sp.
Proof.
  destruct (lstrip_decompose (rev s)) as (sp & E & H).
  exists (rev sp). split; [|by apply Forall_rev].
  unfold rstrip. rewrite <- rev_app_distr, <- E. by rewrite rev_involutive.
Qed.

Lemma split_lstrip s : split (lstrip s) = split s.
Proof.
  unfold split. induction s as [|c s IH]; [done|]. simpl.
  destruct (is_space c) eqn:E; [done|]. simpl. by rewrite E.
Qed.

(** Stripping a string does not change its words. *)
Lemma split_strip s : split (strip s) = split s.
Proof.
  unfold strip. rewrite <- (split_lstrip s).
  destruct (rstrip_decompose (lstrip s)) as (sp & E & H).
  rewrite E at 2. unfold split. by rewrite split_aux_trailing_spaces.
Qed.

End SplitFacts.

(** X8.  [reply_to_comment] answers [None] exactly when the completion call
    fails; otherwise its answer has at most 18 words: the stripped
    completion if that has at most 18 words, else its first 18 words
    joined by blanks and closed with a full stop. *)
Theorem reply_has_at_most_18_words
  (response : option str) (nick0 text0 uid0 : str) (w : Pipeline.World) :
  let w' := Pipeline.set_trace
              (Pipeline.trace w ++ [Pipeline.EvGenerate nick0 text0 uid0]) w in
  match response with
  | None =>
      Pipeline.reply_to_comment None nick0 text0 uid0 w = Pipeline.Ok None w'
  | Some content =>
      exists reply,
        Pipeline.reply_to_comment (Some content) nick0 text0 uid0 w
          = Pipeline.Ok (Some reply) w' /\
        (length (split reply) <= 18)%nat /\
        ((length (split content) <= 18)%nat -> reply = strip content) /\
        ((18 < length (split content))%nat ->
         reply = join (lit " ") (firstn 18 (split content)) ++ lit ".")
  end.
Proof.
  cbv zeta. destruct response as [content|]; [|done].
  unfold Pipeline.reply_to_comment, Pipeline.bind, Pipeline.modify,
    Pipeline.ret. rewrite split_strip.
  destruct (18 <? Z.of_nat (length (split content))) eqn:E.
  - apply Z.ltb_lt in E. eexists. split; [done|]. split; [|split].
    + rewrite split_join_length.
      * rewrite length_firstn. lia.
      * apply Forall_take, split_words.
      * destruct (split content) as [|a l]; [simpl in E; lia | done].
      * by repeat constructor.
    + lia.
    + done.
  - apply Z.ltb_ge in E. eexists. split; [done|]. split; [|split].
    + rewrite split_strip. lia.
    + done.
    + lia.
Qed.

(** ** EventDeduper: how long a signature is remembered *)

Section DeduperMemory.
Import EventDeduper.

(** The store holds [sig] with expiry [e], and at most [n] items were
    inserted after it. *)
Definition kept (sig : str) (e : Q) (n : nat) (d : ordered_dict) : Prop :=
  is_dict d /\
  exists pre post, d = pre ++ (sig, e) :: post /\ (length post <= n)%nat.

Lemma kept_weaken sig e n m d : (n <= m)%nat -> kept sig e n d -> kept sig e m d.
Proof.
  intros Hnm (Hd & pre & post & E & Hl). split; [done|].
  exists pre, post. split; [done|lia].
Qed.

Lemma kept_has_key sig e n d : kept sig e n d -> has_key sig d = true.
Proof.
  intros (_ & pre & post & -> & _). apply has_key_In.
  rewrite map_app. apply in_or_app. right. by left.
Qed.

Lemma filter_length_le {A} (f : A -> bool) l :
  (length (List.filter f l) <= length l)%nat.
Proof.
  induction l as [|a l IH]; simpl; [lia|]. destruct (f a); simpl; lia.
Qed.

Lemma purge_kept sig e n d now :
  (now <= e)%Q -> kept sig e n d -> kept sig e n (purge now d).
Proof.
  intros Hle (Hd & pre & post & E & Hl).
  split; [by apply purge_is_dict|].
  rewrite purge_filter by done. subst d. rewrite List.filter_app. simpl.
  assert (negb (Qltb e now) = true) as ->.
  { apply negb_true_iff, Qltb_ge. done. }
  eexists _, _. split; [done|].
  pose proof (filter_length_le (fun kv => negb (Qltb (snd kv) now)) post). lia.
Qed.

Lemma seen_keeps sig e n self now s :
  (now <= e)%Q -> (n < 4999)%nat ->
  kept sig e n (_store self) ->
  kept sig e (S n) (_store (snd (seen self now s))).
Proof.
  intros Hle Hn Hk. pose proof (purge_kept sig e n _ now Hle Hk) as Hp.
  unfold seen. destruct (has_key s (purge now (_store self))) eqn:E; simpl.
  - apply (kept_weaken sig e n); [lia|done].
  - unfold setitem. rewrite E.
    destruct Hp as (Hd & pre & post & Ep & Hl). rewrite Ep.
    assert (Hd' : is_dict ((pre ++ (sig, e) :: post)
                           ++ [(s, (now + inject_Z (ttl self))%Q)])).
    { rewrite <- Ep. by apply app_new_is_dict. }
    rewrite <- app_assoc, <- app_comm_cons in *.
    destruct (hard_cap <? _) eqn:Ec.
    + apply Z.ltb_lt in Ec. unfold hard_cap in Ec.
      rewrite length_app in Ec. cbn [length] in Ec.
      rewrite length_app in Ec. cbn [length] in Ec.
      destruct pre as [|p pre]; [simpl in Ec; lia|].
      split; [by apply tl_is_dict in Hd'|].
      simpl. eexists pre, _. split; [done|].
      rewrite length_app. simpl. lia.
    + split; [done|]. eexists pre, _. split; [done|].
      rewrite length_app. simpl. lia.
Qed.

Lemma seen_fresh_kept self now sig :
  is_dict (_store self) ->
  fst (seen self now sig) = false ->
  kept sig (now + inject_Z (ttl self))%Q 0 (_store (snd (seen self now sig))).
Proof.
  intros Hd. pose proof (seen_is_dict self now sig Hd) as Hd'. revert Hd'.
  unfold seen. destruct (has_key sig (purge now (_store self))) eqn:E;
    simpl; [done|].
  unfold setitem. rewrite E. intros Hd' _. split; [done|].
  destruct (hard_cap <? _) eqn:Ec.
  - destruct (purge now (_store self)) as [|p d]; simpl.
    + simpl in Ec. unfold hard_cap in Ec. discriminate.
    + by exists d, [].
  - by eexists _, [].
Qed.

Lemma seen_kept_dup sig e n self now :
  (now <= e)%Q -> kept sig e n (_store self) ->
  fst (seen self now sig) = true.
Proof.
  intros Hle Hk. apply (purge_kept sig e n _ now Hle) in Hk.
  apply kept_has_key in Hk. unfold seen. by rewrite Hk.
Qed.

Lemma run_keeps sig e mid : forall n self,
  Forall (fun c => (fst c <= e)%Q) mid ->
  (n + length mid <= 4999)%nat ->
  kept sig e n (_store self) ->
  kept sig e (n + length mid) (_store (run self mid)).
Proof.
  unfold run. induction mid as [|c mid IH]; intros n self Hm Hn Hk.
  - simpl. by rewrite Nat.add_0_r.
  - apply Forall_cons in Hm as [Hc Hm]. simpl in *.
    replace (n + S (length mid))%nat with (S n + length mid)%nat by lia.
    apply IH; [done|lia|]. apply seen_keeps; [done|lia|done].
Qed.

(** X9.  A signature that [seen] reported as new is reported as seen by
    every later call made before its TTL has run out, as long as fewer than
    5000 other calls were made in between. *)
Theorem seen_again_within_ttl
  (ttl0 : Z) (history : list (Q * str)) (t1 : Q) (sig : str)
  (mid : list (Q * str)) (t2 : Q) :
  let d0 := run (init ttl0) history in
  fst (seen d0 t1 sig) = false ->
  (length mid < 5000)%nat ->
  Forall (fun c => (fst c <= t1 + inject_Z ttl0)%Q) mid ->
  (t2 <= t1 + inject_Z ttl0)%Q ->
  fst (seen (run (snd (seen d0 t1 sig)) mid) t2 sig) = true.
Proof.
  intros d0 Hfresh Hlen Hmid Ht2.
  assert (Hd : is_dict (_store d0)).
  { apply run_is_dict. apply List.NoDup_nil. }
  assert (Ht : ttl d0 = ttl0) by apply run_ttl.
  pose proof (seen_fresh_kept d0 t1 sig Hd Hfresh) as Hk. rewrite Ht in Hk.
  apply (run_keeps _ _ mid 0) in Hk; [|done|simpl; lia].
  by apply (seen_kept_dup sig _ _ _ t2 Ht2) in Hk.
Qed.

End DeduperMemory.

Lemma seen_again_within_ttl_witness :
  fst (EventDeduper.seen
         (EventDeduper.run
            (snd (EventDeduper.seen
                    (EventDeduper.run (EventDeduper.init 600) [(0%Q, lit "a")])
                    10 (lit "b")))
            [(20%Q, lit "c"); (30%Q, lit "a")])
         610 (lit "b")) = true.
Proof.
  apply (seen_again_within_ttl 600 [(0%Q, lit "a")] 10 (lit "b")
           [(20%Q, lit "c"); (30%Q, lit "a")] 610).
  - vm_compute. reflexivity.
  - simpl. lia.
  - repeat constructor; vm_compute; discriminate.
  - vm_compute. discriminate.
Defined.

(** ** The listener: an event is not enqueued twice while its TTL lasts *)

Section ListenerMemory.

Variable lower : str -> str.
Variable url_re : str -> bool.
Variable sha1_hexdigest : str -> str.
Variable str_of_int : Z -> str.
Variable clock : nat -> Q.
Variable min_len : Z.
Variable scorer : Relevance.t.
Variable global_cooldown : Z.

Abbreviation dispatch :=
  (Listener.dispatch lower url_re sha1_hexdigest str_of_int clock min_len
     scorer global_cooldown).
Abbreviation fingerprint :=
  (Listener.fingerprint lower sha1_hexdigest str_of_int).
Abbreviation store st := (EventDeduper._store (Listener.deduper st)).

(** The events [evts] handled one after the other. *)
Definition deliver (evts : list Listener.LiveEvent) (st : Listener.State)
  : Listener.State :=
  fold_left (fun s e => dispatch e s) evts st.

Lemma listener_seen_inv s st dup st' :
  Listener.seen clock s st = (dup, st') ->
  dup = fst (EventDeduper.seen (Listener.deduper st)
               (clock (Listener.tick st)) s) /\
  Listener.deduper st' =
    snd (EventDeduper.seen (Listener.deduper st) (clock (Listener.tick st)) s)
  /\ Listener.tick st' = S (Listener.tick st)
  /\ queues st' = queues st.
Proof.
  unfold Listener.seen.
  destruct (EventDeduper.seen _ _ _) as [d' dd]. by intros [= <- <-].
Qed.

(** What a handler does once it is past its gate: it asks the deduper and
    enqueues the event if it is new. *)
Definition asks (s : str) (st0 st1 : Listener.State) : Prop :=
  exists dup st',
    Listener.seen clock s st0 = (dup, st') /\
    Listener.deduper st1 = Listener.deduper st' /\
    Listener.tick st1 = Listener.tick st' /\
    (dup = true -> queues st1 = queues st0).

(** Every handler either returns at a gate, the deduper as it was, or asks
    the deduper once, at the reading [check_reading]. *)
Lemma dispatch_shape evt st :
  (Listener.deduper (dispatch evt st) = Listener.deduper st /\
   (Listener.tick st <= Listener.tick (dispatch evt st))%nat /\
   (fingerprint evt <> None -> queues (dispatch evt st) = queues st))
  \/
  (exists s st0,
     (fingerprint evt = Some s) /\
     Listener.deduper st0 = Listener.deduper st /\
     (Listener.tick st <= Listener.tick st0)%nat /\
     clock (Listener.tick st0) = check_reading clock evt st /\
     queues st0 = queues st /\
     asks s st0 (dispatch evt st)).
Proof using Type.
  unfold Listener.dispatch, Listener.fingerprint, check_reading.
  destruct evt as [u [c|n k| | |c| |]]; cbn [Listener.what Listener.user].
  - unfold Listener.on_comment. destruct (_ || _); [left; by auto|].
    destruct (negb _); [left; by auto|]. right.
    eexists _, st. split; [done|]. do 4 (split; [done|]).
    destruct (Listener.seen clock _ st) as [dup st'] eqn:E.
    exists dup, st'. split; [done|]. destruct dup; [|done].
    do 2 (split; [done|]). intros _.
    by apply listener_seen_inv in E as (_ & _ & _ & ?).
  - right. unfold Listener.on_gift.
    eexists _, st. split; [done|]. do 4 (split; [done|]).
    destruct (Listener.seen clock _ st) as [dup st'] eqn:E.
    exists dup, st'. split; [done|]. destruct dup; [|done].
    do 2 (split; [done|]). intros _.
    by apply listener_seen_inv in E as (_ & _ & _ & ?).
  - unfold Listener.on_follow. cbn [Listener.follow_last Listener.tick].
    destruct (Qltb _ _).
    { left. split; [done|]. split; [simpl; lia|done]. }
    right.
    match goal with
    | |- context [Listener.seen clock ?s ?st0] =>
        exists s, st0; split; [done|];
        split; [done|]; split; [simpl; lia|]; split; [done|]; split; [done|];
        destruct (Listener.seen clock s st0) as [dup st'] eqn:E
    end.
    exists dup, st'. split; [done|]. destruct dup; [|done].
    do 2 (split; [done|]). intros _.
    by apply listener_seen_inv in E as (_ & _ & _ & ?).
  - right. unfold Listener.on_subscribe.
    eexists _, st. split; [done|]. do 4 (split; [done|]).
    destruct (Listener.seen clock _ st) as [dup st'] eqn:E.
    exists dup, st'. split; [done|]. destruct dup; [|done].
    do 2 (split; [done|]). intros _.
    by apply listener_seen_inv in E as (_ & _ & _ & ?).
  - left. unfold Listener.on_like. split; [done|]. split; [simpl; lia|done].
  - right. unfold Listener.on_share.
    eexists _, st. split; [done|]. do 4 (split; [done|]).
    destruct (Listener.seen clock _ st) as [dup st'] eqn:E.
    exists dup, st'. split; [done|]. destruct dup; [|done].
    do 2 (split; [done|]). intros _.
    by apply listener_seen_inv in E as (_ & _ & _ & ?).
  - unfold Listener.on_join. destruct (negb _); [left; by auto|]. right.
    eexists _, st. split; [done|]. do 4 (split; [done|]).
    destruct (Listener.seen clock _ st) as [dup st'] eqn:E.
    exists dup, st'. split; [done|]. destruct dup; [|done].
    do 2 (split; [done|]). intros _.
    by apply listener_seen_inv in E as (_ & _ & _ & ?).
Qed.

Lemma dispatch_tick evt st :
  (Listener.tick st <= Listener.tick (dispatch evt st))%nat.
Proof using Type.
  destruct (dispatch_shape evt st)
    as [(_ & H & _)|(s & st0 & _ & _ & Ht & _ & _ & dup & st' & E & _ & Ht' & _)];
    [done|].
  apply listener_seen_inv in E as (_ & _ & Hs & _). lia.
Qed.

Lemma deliver_tick evts st :
  (Listener.tick st <= Listener.tick (deliver evts st))%nat.
Proof using Type.
  unfold deliver. revert st. induction evts as [|e evts IH]; intros st; [done|].
  simpl. specialize (IH (dispatch e st)).
  pose proof (dispatch_tick e st). lia.
Qed.

Lemma dispatch_keeps sig e n evt st :
  (forall i, (Listener.tick st <= i < Listener.tick (dispatch evt st))%nat ->
             (clock i <= e)%Q) ->
  (n < 4999)%nat ->
  kept sig e n (store st) -> kept sig e (S n) (store (dispatch evt st)).
Proof using Type.
  intros Hclock Hn Hk.
  destruct (dispatch_shape evt st)
    as [(Hd & _ & _)|(s & st0 & _ & Hd0 & Ht0 & _ & _ & dup & st' & E & Hd & Ht & _)].
  - rewrite Hd. apply (kept_weaken sig e n); [lia|done].
  - apply listener_seen_inv in E as (_ & Hd' & Ht' & _).
    rewrite Hd, Hd', Hd0. apply seen_keeps; [|done|done].
    apply Hclock. lia.
Qed.

Lemma deliver_keeps sig e evts : forall n st,
  (forall i, (Listener.tick st <= i < Listener.tick (deliver evts st))%nat ->
             (clock i <= e)%Q) ->
  (n + length evts <= 4999)%nat ->
  kept sig e n (store st) ->
  kept sig e (n + length evts) (store (deliver evts st)).
Proof using Type.
  unfold deliver. induction evts as [|x evts IH]; intros n st Hclock Hn Hk.
  - simpl. by rewrite Nat.add_0_r.
  - simpl in *.
    replace (n + S (length evts))%nat with (S n + length evts)%nat by lia.
    pose proof (dispatch_tick x st) as Ht1.
    pose proof (deliver_tick evts (dispatch x st)) as Ht2. unfold deliver in Ht2.
    apply IH; [|lia|].
    + intros i Hi. apply Hclock. lia.
    + apply dispatch_keeps; [|lia|done]. intros i Hi. apply Hclock. lia.
Qed.

(** X10.  An event that a handler enqueued is not enqueued again when it is
    delivered another time, as long as every clock reading since then is
    within the TTL of the first delivery and fewer than 5000 other events
    were handled in between. *)
Theorem enqueued_event_is_not_enqueued_again
  (evt : Listener.LiveEvent) (sig : str) (st : Listener.State)
  (between : list Listener.LiveEvent) :
  let st1 := dispatch evt st in
  let st2 := deliver between st1 in
  fingerprint evt = Some sig ->
  is_dict (store st) ->
  queues st1 <> queues st ->
  (length between < 5000)%nat ->
  (forall i, (Listener.tick st1 <= i < Listener.tick (dispatch evt st2))%nat ->
     (clock i <= check_reading clock evt st
                 + inject_Z (EventDeduper.ttl (Listener.deduper st)))%Q) ->
  queues (dispatch evt st2) = queues st2.
Proof using Type.
  intros st1 st2 Hfp Hd Hq Hlen Hclock.
  set (e := (check_reading clock evt st
             + inject_Z (EventDeduper.ttl (Listener.deduper st)))%Q) in *.
  assert (Hk1 : kept sig e 0 (store st1)).
  { subst st1. destruct (dispatch_shape evt st)
      as [(_ & _ & H)|(s & st0 & Hs & Hd0 & _ & Hr & Hq0 & dup & st' & E & Hd1 & _ & Hdup)].
    - exfalso. apply Hq, H. by rewrite Hfp.
    - rewrite Hfp in Hs. injection Hs as <-.
      pose proof E as E'.
      apply listener_seen_inv in E' as (Edup & Hd' & _ & _).
      destruct dup.
      + exfalso. apply Hq. rewrite <- Hq0. by apply Hdup.
      + rewrite Hd1, Hd'. subst e. rewrite <- Hr, <- Hd0.
        apply seen_fresh_kept; [by rewrite Hd0 | done]. }
  pose proof (deliver_tick between st1) as Ht12. fold st2 in Ht12.
  pose proof (dispatch_tick evt st2) as Ht23.
  assert (Hk2 : kept sig e (0 + length between) (store st2)).
  { apply deliver_keeps; [|simpl; lia|done].
    intros i Hi. apply Hclock. fold st2 in Hi. lia. }
  destruct (dispatch_shape evt st2)
    as [(_ & _ & H)|(s & st0 & Hs & Hd0 & Ht0 & Hr & Hq0 & dup & st' & E & _ & Ht' & Hdup)].
  - apply H. by rewrite Hfp.
  - rewrite Hfp in Hs. injection Hs as <-.
    apply listener_seen_inv in E as (Edup & _ & Hts & _).
    rewrite <- Hq0. apply Hdup. rewrite Edup, Hd0.
    apply (seen_kept_dup sig e (0 + length between)); [|done].
    apply Hclock. lia.
Qed.

(** What [on_comment] requires of a comment before it enqueues it. *)
Definition admissible (it : Pipeline.Item) : Prop :=
  Pipeline.uid it <> [] /\ Pipeline.nick it <> [] /\
  min_len <= len (Pipeline.text it) /\
  Relevance.is_ignored lower url_re scorer (Pipeline.text it) = false.

Lemma seen_comment_queue s st :
  Listener.comment_queue (snd (Listener.seen clock s st))
  = Listener.comment_queue st.
Proof.
  unfold Listener.seen. by destruct (EventDeduper.seen _ _ _).
Qed.

Lemma dispatch_comment_queue evt st :
  exists new, Listener.comment_queue (dispatch evt st)
              = Listener.comment_queue st ++ new /\
    (length new <= 1)%nat /\
    Forall (fun it => admissible it /\
              exists c, Listener.what evt = Listener.Comment c /\
                        Pipeline.text it = lower (strip c)) new.
Proof using Type.
  assert (Hnone : forall q : list Pipeline.Item,
            exists new, q = q ++ new /\ (length new <= 1)%nat /\
              Forall (fun it => admissible it /\
                exists c, Listener.what evt = Listener.Comment c /\
                          Pipeline.text it = lower (strip c)) new).
  { intros q. exists []. rewrite app_nil_r. split; [done|].
    split; [simpl; lia | constructor]. }
  unfold Listener.dispatch.
  destruct evt as [u [c|n k| | |c| |]] eqn:Eevt;
    cbn [Listener.what Listener.user].
  - unfold Listener.on_comment.
    destruct (_ || _) eqn:Egate; [apply Hnone|].
    destruct (negb _) eqn:Euid; [apply Hnone|].
    pose proof (seen_comment_queue
                  (Listener.make_sig sha1_hexdigest (lit "comment")
                     [Listener.uid_of u; lower (strip c)]) st) as Hq.
    destruct (Listener.seen clock _ st) as [dup st']. simpl in Hq.
    destruct dup; [rewrite Hq; apply Hnone|].
    eexists [_]. cbn [Listener.put_comment Listener.comment_queue].
    rewrite Hq. split; [done|]. split; [simpl; lia|].
    repeat constructor; cbn [Pipeline.uid Pipeline.nick Pipeline.text].
    + apply negb_false_iff in Euid. cbn [Listener.user] in *.
      intros E0. by rewrite E0 in Euid.
    + apply negb_false_iff in Euid. cbn [Listener.user] in *.
      destruct (truthy (Listener.nickname u)) eqn:En; intros E0.
      * by rewrite E0 in En.
      * by rewrite E0 in Euid.
    + apply orb_false_iff in Egate as [E1 _]. by apply Z.ltb_ge in E1.
    + by apply orb_false_iff in Egate as [_ E2].
    + by exists c.
  - unfold Listener.on_gift.
    pose proof (seen_comment_queue
                  (Listener.make_sig sha1_hexdigest (lit "gift")
                     [Listener.uid_of u; n; str_of_int k]) st) as Hq.
    destruct (Listener.seen clock _ st) as [dup st']. simpl in Hq.
    destruct dup; simpl; rewrite Hq; apply Hnone.
  - unfold Listener.on_follow. cbn [Listener.follow_last Listener.tick].
    destruct (Qltb _ _); [apply Hnone|].
    match goal with
    | |- context [Listener.seen clock ?s ?st0] =>
        pose proof (seen_comment_queue s st0) as Hq;
        destruct (Listener.seen clock s st0) as [dup st']
    end.
    simpl in Hq. destruct dup; simpl; rewrite Hq; apply Hnone.
  - unfold Listener.on_subscribe.
    pose proof (seen_comment_queue
                  (Listener.make_sig sha1_hexdigest (lit "subscribe")
                     [Listener.uid_of u]) st) as Hq.
    destruct (Listener.seen clock _ st) as [dup st']. simpl in Hq.
    destruct dup; simpl; rewrite Hq; apply Hnone.
  - apply Hnone.
  - unfold Listener.on_share.
    pose proof (seen_comment_queue
                  (Listener.make_sig sha1_hexdigest (lit "share")
                     [Listener.uid_of u]) st) as Hq.
    destruct (Listener.seen clock _ st) as [dup st']. simpl in Hq.
    destruct dup; simpl; rewrite Hq; apply Hnone.
  - unfold Listener.on_join. destruct (negb _); [apply Hnone|].
    pose proof (seen_comment_queue
                  (Listener.make_sig sha1_hexdigest (lit "join")
                     [Listener.uid_of u]) st) as Hq.
    destruct (Listener.seen clock _ st) as [dup st']. simpl in Hq.
    destruct dup; simpl; rewrite Hq; apply Hnone.
Qed.

(** X11.  Whatever events are delivered, the comment queue only grows, by
    at most one item for each event, and every item the handlers put on it
    has a user id and a nickname that are not empty, and a text (the
    comment stripped and lower-cased) that is at least [min_length] long
    and not ignored by the scorer. *)
Theorem only_admissible_comments_are_enqueued
  (evts : list Listener.LiveEvent) (st : Listener.State) :
  exists new,
    Listener.comment_queue (deliver evts st)
    = Listener.comment_queue st ++ new /\
    (length new <= length evts)%nat /\
    Forall (fun it =>
      admissible it /\
      exists c, In (Listener.Comment c) (map Listener.what evts) /\
                Pipeline.text it = lower (strip c)) new.
Proof using Type.
  unfold deliver. revert st. induction evts as [|e evts IH]; intros st.
  - exists []. simpl. rewrite app_nil_r. split; [done|]. split; [lia|constructor].
  - simpl. destruct (IH (dispatch e st)) as (n2 & E2 & L2 & F2).
    destruct (dispatch_comment_queue e st) as (n1 & E1 & L1 & F1).
    exists (n1 ++ n2). rewrite E2, E1, <- app_assoc. split; [done|].
    split; [rewrite length_app; lia|]. apply Forall_app. split.
    + eapply List.Forall_impl; [|exact F1]. cbv beta.
      intros it (Ha & c & Hc & Ht). split; [done|]. exists c.
      split; [|done]. left. done.
    + eapply List.Forall_impl; [|exact F2]. cbv beta.
      intros it (Ha & c & Hc & Ht). split; [done|]. exists c.
      split; [|done]. by right.
Qed.

End ListenerMemory.

Lemma enqueued_event_is_not_enqueued_again_witness :
  let d := Listener.dispatch ascii_lower (fun _ => false) (fun s => s)
             (fun _ => lit "1") (fun _ => 0%Q) 3
             (Relevance.init ascii_lower Relevance.default_conf) 6 in
  let u := Listener.mkUser (lit "u1") [] (lit "Ann") in
  let evt := Listener.mkEvent u Listener.Share in
  let st := Listener.mkState (EventDeduper.init 600) [] [] [] [] [] [] [] 0 0 in
  let st2 := d (Listener.mkEvent u (Listener.Like 3)) (d evt st) in
  queues (d evt st2) = queues st2.
Proof.
  cbv zeta.
  apply (enqueued_event_is_not_enqueued_again ascii_lower (fun _ => false)
           (fun s => s) (fun _ => lit "1") (fun _ => 0%Q) 3
           (Relevance.init ascii_lower Relevance.default_conf) 6
           (Listener.mkEvent (Listener.mkUser (lit "u1") [] (lit "Ann"))
              Listener.Share)
           (lit "share|u1")
           (Listener.mkState (EventDeduper.init 600) [] [] [] [] [] [] [] 0 0)
           [Listener.mkEvent (Listener.mkUser (lit "u1") [] (lit "Ann"))
              (Listener.Like 3)]).
  - reflexivity.
  - apply List.NoDup_nil.
  - intros H. vm_compute in H. discriminate.
  - simpl. lia.
  - intros i _. vm_compute. discriminate.
Defined.

(** ** The user memory *)

Section MemoryFacts.
Import Memory.

Variable clock : nat -> Q.
Variable cfg : mem_cfg.
Hypothesis memory_on : enabled cfg <> 0.
Hypothesis history_size : 0 <= per_user_history cfg.

Abbreviation remember_event := (Memory.remember_event clock cfg).
Abbreviation remember_all := (Memory.remember_all clock cfg).
Abbreviation h := (Z.to_nat (per_user_history cfg)).

Lemma lastn_short {A} n (l : list A) : (length l <= n)%nat -> lastn n l = l.
Proof.
  intros H. unfold lastn. by replace (length l - n)%nat with 0%nat by lia.
Qed.

Lemma lastn_length {A} n (l : list A) : (length (lastn n l) <= n)%nat.
Proof. unfold lastn. rewrite length_skipn. lia. Qed.

Lemma lastn_app_lastn {A} n (a b : list A) :
  lastn n (lastn n a ++ b) = lastn n (a ++ b).
Proof.
  destruct (Nat.le_gt_cases (length a) n) as [H|H].
  - by rewrite (lastn_short n a).
  - unfold lastn. rewrite !length_app, length_skipn.
    replace (length a - (length a - n) + length b - n)%nat
      with (length b) by lia.
    replace (length a + length b - n)%nat
      with (length b + (length a - n))%nat by lia.
    rewrite <- skipn_skipn. f_equal. rewrite skipn_app.
    replace (length a - n - length a)%nat with 0%nat by lia. done.
Qed.

Lemma try_save_users st : users (try_save st) = users st.
Proof. unfold try_save. by destruct (serializable _). Qed.

Lemma try_save_tick st : tick (try_save st) = tick st.
Proof. unfold try_save. by destruct (serializable _). Qed.

(** The record that [_mem_user] makes at reading number [i]. *)
Definition made (i : nat) : User :=
  mkUser (clock i) (clock (S i)) [] 0 0 0 0 0 0
    (Deque (per_user_history cfg) []) 0 [].

Lemma deque_ok : deque [] (per_user_history cfg)
                 = Some (Deque (per_user_history cfg) []).
Proof using history_size.
  unfold deque. destruct (_ <? 0) eqn:E; [apply Z.ltb_lt in E; lia|].
  unfold lastn. by rewrite skipn_nil.
Qed.

(** What a call does to the table of users. *)
Lemma remember_event_users c st :
  exists st', remember_event c st = Some st' /\
    users st' =
      <[uid c := match users st !! uid c with
                 | Some u => updated c (clock (tick st)) u
                 | None => updated c (clock (S (S (tick st)))) (made (tick st))
                 end]> (users st).
Proof using memory_on history_size.
  unfold Memory.remember_event, _mem_user.
  destruct (enabled cfg =? 0) eqn:E; [apply Z.eqb_eq in E; done|].
  rewrite deque_ok. destruct (users st !! uid c) as [u|] eqn:Eu.
  - eexists. split; [done|]. by rewrite try_save_users.
  - eexists. split; [done|]. rewrite try_save_users. cbn [users tick].
    by rewrite insert_insert_eq.
Qed.

Lemma total_cons who f c cs :
  total who f (c :: cs)
  = (if bool_decide (uid c = who) then f c else 0) + total who f cs.
Proof. done. Qed.

Lemma said_cons who c cs :
  said who (c :: cs)
  = (if bool_decide (uid c = who)
     then match message c with
          | Some m => if truthy m then [m] else []
          | None => []
          end
     else []) ++ said who cs.
Proof. done. Qed.

(** The record of [who] after the calls, from a record that holds a deque
    of the configured size. *)
Lemma remember_all_known who cs : forall st u0 l0,
  users st !! who = Some u0 ->
  messages u0 = Deque (per_user_history cfg) l0 ->
  (length l0 <= h)%nat ->
  exists st' u,
    remember_all cs st = Some st' /\ users st' !! who = Some u /\
    messages u = Deque (per_user_history cfg) (lastn h (l0 ++ said who cs)) /\
    likes u = likes u0 + total who like_inc cs /\
    gifts u = gifts u0 + total who gift_inc cs /\
    follows u = follows u0 + total who (fun c => flag (follow c)) cs /\
    subs u = subs u0 + total who (fun c => flag (sub c)) cs /\
    shares u = shares u0 + total who (fun c => flag (share c)) cs /\
    joins u = joins u0 + total who (fun c => flag (join c)) cs /\
    first_seen u = first_seen u0.
Proof using memory_on history_size.
  induction cs as [|c cs IH]; intros st u0 l0 Hu Hm Hl.
  - exists st, u0. simpl. rewrite app_nil_r, lastn_short by done.
    unfold total. simpl. rewrite !Z.add_0_r. done.
  - cbn [Memory.remember_all].
    destruct (remember_event_users c st) as (st1 & -> & Hus).
    rewrite !total_cons, said_cons. case_bool_decide as Hc.
    + subst who. rewrite Hu in Hus.
      set (u1 := updated c (clock (tick st)) u0) in *.
      assert (Hm1 : messages u1 = Deque (per_user_history cfg)
                (lastn h (l0 ++ match message c with
                                | Some m => if truthy m then [m] else []
                                | None => []
                                end))).
      { subst u1. cbn [updated messages].
        destruct (message c) as [m|].
        - destruct (truthy m); [by rewrite Hm|].
          by rewrite app_nil_r, lastn_short.
        - by rewrite app_nil_r, lastn_short. }
      destruct (IH st1 u1 _ ltac:(by rewrite Hus, lookup_insert_eq) Hm1
                  (lastn_length _ _))
        as (st' & u & Hrun & Hlook & Hmsg & Hl' & Hg & Hf & Hs & Hsh & Hj & Hfs).
      exists st', u. split; [done|]. split; [done|].
      split; [by rewrite Hmsg, lastn_app_lastn, <- app_assoc|].
      subst u1. cbn [updated likes gifts follows subs shares joins first_seen]
        in *.
      rewrite Hl', Hg, Hf, Hs, Hsh, Hj, Hfs. unfold flag.
      destruct (like_inc c =? 0) eqn:E1; [apply Z.eqb_eq in E1|];
      destruct (gift_inc c =? 0) eqn:E2; [apply Z.eqb_eq in E2| |apply Z.eqb_eq in E2|];
      destruct (follow c), (sub c), (share c), (join c); simpl negb; cbv iota;
        repeat split; lia.
    + destruct (IH st1 u0 l0 ltac:(by rewrite Hus, lookup_insert_ne) Hm Hl)
        as (st' & u & Hrun & Hlook & Hmsg & Hrest).
      exists st', u. split; [done|]. split; [done|]. split; [done|].
      rewrite !Z.add_0_l. done.
Qed.

(** X12.  With the memory enabled and a history size that is not negative,
    the calls of [remember_event] never raise, and the record of a user who
    was not in memory before is the summary of the calls made for that
    user: each counter is the sum of its increments, and the history is a
    deque holding the last [per_user_history] non-empty messages, in
    order. *)
Theorem record_summarises_calls (who : str) (cs : list call) (st : t) :
  users st !! who = None ->
  In who (map uid cs) ->
  exists st' u,
    remember_all cs st = Some st' /\ users st' !! who = Some u /\
    messages u = Deque (per_user_history cfg) (lastn h (said who cs)) /\
    Z.of_nat (length (items_of (messages u))) <= per_user_history cfg /\
    likes u = total who like_inc cs /\
    gifts u = total who gift_inc cs /\
    follows u = total who (fun c => flag (follow c)) cs /\
    subs u = total who (fun c => flag (sub c)) cs /\
    shares u = total who (fun c => flag (share c)) cs /\
    joins u = total who (fun c => flag (join c)) cs.
Proof using memory_on history_size.
  revert st. induction cs as [|c cs IH]; intros st Hnone Hin; [done|].
  cbn [Memory.remember_all].
  destruct (remember_event_users c st) as (st1 & -> & Hus).
  rewrite !total_cons, said_cons. case_bool_decide as Hc.
  - subst who. rewrite Hnone in Hus.
    set (u1 := updated c (clock (S (S (tick st)))) (made (tick st))) in *.
    assert (Hm1 : messages u1 = Deque (per_user_history cfg)
              (lastn h ([] ++ match message c with
                              | Some m => if truthy m then [m] else []
                              | None => []
                              end))).
    { subst u1. cbn [updated messages made append].
      destruct (message c) as [m|]; [|done].
      by destruct (truthy m). }
    destruct (remember_all_known (uid c) cs st1 u1 _
                ltac:(by rewrite Hus, lookup_insert_eq) Hm1 (lastn_length _ _))
      as (st' & u & Hrun & Hlook & Hmsg & Hl' & Hg & Hf & Hs & Hsh & Hj & _).
    exists st', u. split; [done|]. split; [done|].
    rewrite Hmsg, lastn_app_lastn. split; [done|]. split.
    { cbn [items_of]. pose proof (lastn_length h ([] ++ said (uid c) (c :: cs))).
      rewrite said_cons in H. rewrite bool_decide_eq_true_2 in H by done.
      simpl app in *. lia. }
    subst u1. cbn [updated made likes gifts follows subs shares joins] in *.
    rewrite Hl', Hg, Hf, Hs, Hsh, Hj. unfold flag.
    destruct (like_inc c =? 0) eqn:E1; [apply Z.eqb_eq in E1|];
    destruct (gift_inc c =? 0) eqn:E2; [apply Z.eqb_eq in E2| |apply Z.eqb_eq in E2|];
    destruct (follow c), (sub c), (share c), (join c); simpl negb; cbv iota;
      repeat split; lia.
  - destruct Hin as [Hin|Hin]; [done|].
    destruct (IH st1 ltac:(by rewrite Hus, lookup_insert_ne) Hin)
      as (st' & u & Hrun & Hlook & Hrest).
    exists st', u. split; [done|]. split; [done|].
    rewrite !Z.add_0_l. done.
Qed.

Lemma remember_event_file c st st' :
  remember_event c st = Some st' ->
  file st' = if serializable (users st') then Some (users st') else file st.
Proof using memory_on.
  unfold Memory.remember_event, _mem_user.
  destruct (enabled cfg =? 0) eqn:E; [apply Z.eqb_eq in E; done|].
  destruct (users st !! uid c) as [u|].
  - intros [= <-]. unfold try_save. cbn [users].
    by destruct (serializable _) eqn:Es; cbn [users file]; rewrite ?Es.
  - destruct (deque _ _); [|done]. intros [= <-]. unfold try_save. cbn [users].
    by destruct (serializable _) eqn:Es; cbn [users file]; rewrite ?Es.
Qed.

Lemma updated_is_list c now u :
  is_list (messages (updated c now u)) = is_list (messages u).
Proof.
  cbn [updated messages]. destruct (message c) as [m|]; [|done].
  destruct (truthy m); [|done]. by destruct (messages u).
Qed.

Lemma deque_blocks us who u :
  us !! who = Some u -> is_list (messages u) = false -> serializable us = false.
Proof.
  intros Hu Hl. unfold serializable. apply bool_decide_eq_false_2.
  intros H. specialize (H who u Hu). simpl in H. congruence.
Qed.

(** Some record holds a deque. *)
Definition holds_deque (st : t) : Prop :=
  exists who u, users st !! who = Some u /\ is_list (messages u) = false.

Lemma remember_event_holds_deque c st :
  holds_deque st ->
  exists st', remember_event c st = Some st' /\ holds_deque st' /\
              file st' = file st.
Proof using memory_on history_size.
  intros (who & u & Hu & Hl).
  destruct (remember_event_users c st) as (st' & Hrun & Hus).
  exists st'. split; [done|].
  assert (Hd : holds_deque st').
  { destruct (decide (uid c = who)) as [E|Hne].
    - subst who. exists (uid c). eexists.
      rewrite Hus, lookup_insert_eq, Hu. split; [done|].
      by rewrite updated_is_list.
    - exists who, u. by rewrite Hus, lookup_insert_ne. }
  split; [done|]. rewrite (remember_event_file c st st' Hrun).
  destruct Hd as (w & u' & Hu' & Hl'). by rewrite (deque_blocks _ w u').
Qed.

Lemma remember_all_holds_deque cs : forall st,
  holds_deque st ->
  exists st', remember_all cs st = Some st' /\ file st' = file st.
Proof using memory_on history_size.
  induction cs as [|c cs IH]; intros st Hd; [by exists st|].
  cbn [Memory.remember_all].
  destruct (remember_event_holds_deque c st Hd) as (st1 & -> & Hd1 & Hf1).
  destruct (IH st1 Hd1) as (st' & Hrun & Hf). exists st'. split; [done|].
  congruence.
Qed.

(** X13.  With the memory enabled and a history size that is not
    negative: a call of [remember_event] for a user already in a memory
    whose records all hold lists writes the memory file; a call for a user
    who is not in memory makes a record with a deque, which [json.dump]
    refuses, so neither that call nor any call after it writes the
    file. *)
Theorem memory_file_not_written_after_a_new_user
  (c : call) (cs : list call) (st : t) :
  (map_Forall (fun _ u => is_list (messages u) = true) (users st) ->
   is_Some (users st !! uid c) ->
   exists st', remember_event c st = Some st' /\
               file st' = Some (users st')) /\
  (users st !! uid c = None ->
   exists st', remember_all (c :: cs) st = Some st' /\ file st' = file st).
Proof using memory_on history_size.
  split.
  - intros Hall [u Hu].
    destruct (remember_event_users c st) as (st' & Hrun & Hus).
    exists st'. split; [done|]. rewrite (remember_event_file c st st' Hrun).
    assert (serializable (users st') = true) as ->; [|done].
    unfold serializable. apply bool_decide_eq_true_2. rewrite Hus, Hu.
    apply map_Forall_insert_2; [|done]. cbv beta.
    rewrite updated_is_list. by apply (Hall (uid c) u).
  - intros Hnone. cbn [Memory.remember_all].
    destruct (remember_event_users c st) as (st1 & Hrun & Hus).
    rewrite Hrun. rewrite Hnone in Hus.
    assert (Hd : holds_deque st1).
    { exists (uid c). eexists. rewrite Hus, lookup_insert_eq. split; [done|].
      by rewrite updated_is_list. }
    pose proof (remember_event_file c st st1 Hrun) as Hf1.
    destruct Hd as (w & u' & Hu' & Hl'). rewrite (deque_blocks _ w u') in Hf1
      by done.
    destruct (remember_all_holds_deque cs st1) as (st' & Hrun' & Hf');
      [by exists w, u'|].
    exists st'. split; [done|]. congruence.
Qed.

End MemoryFacts.

Lemma record_summarises_calls_witness :
  let cfg := Memory.mkCfg 1 2 90 in
  let say m := Memory.mkCall (lit "u1") (lit "Ann") 0 0 false false false
                 false (Some (lit m)) [] in
  let cs := [say "a"%string; say "b"%string;
             Memory.mkCall (lit "u1") [] 25 0 false false false false None [];
             say "c"%string] in
  exists st' u,
    Memory.remember_all (fun _ => 0%Q) cfg cs (Memory.mk ∅ None 0) = Some st' /\
    Memory.users st' !! lit "u1" = Some u /\
    Memory.messages u = Memory.Deque 2 [lit "b"; lit "c"] /\
    Memory.likes u = 25.
Proof.
  cbv zeta.
  destruct (record_summarises_calls (fun _ => 0%Q) (Memory.mkCfg 1 2 90)
              ltac:(done) ltac:(done) (lit "u1")
              [Memory.mkCall (lit "u1") (lit "Ann") 0 0 false false false
                 false (Some (lit "a")) [];
               Memory.mkCall (lit "u1") (lit "Ann") 0 0 false false false
                 false (Some (lit "b")) [];
               Memory.mkCall (lit "u1") [] 25 0 false false false false None [];
               Memory.mkCall (lit "u1") (lit "Ann") 0 0 false false false
                 false (Some (lit "c")) []]
              (Memory.mk ∅ None 0) ltac:(done) ltac:(by left))
    as (st' & u & Hrun & Hu & Hm & _ & Hl & _).
  exists st', u. split; [exact Hrun|]. split; [exact Hu|].
  split; [exact Hm | exact Hl].
Defined.

Lemma memory_file_not_written_after_a_new_user_witness :
  let c := Memory.mkCall (lit "u1") (lit "Ann") 0 0 false false false false
             (Some (lit "hi")) [] in
  exists st',
    Memory.remember_all (fun _ => 0%Q) (Memory.mkCfg 1 100 90) [c; c]
      (Memory.mk ∅ None 0) = Some st' /\
    Memory.file st' = None.
Proof.
  cbv zeta.
  apply (proj2 (memory_file_not_written_after_a_new_user (fun _ => 0%Q)
                  (Memory.mkCfg 1 100 90) ltac:(done) ltac:(done)
                  (Memory.mkCall (lit "u1") (lit "Ann") 0 0 false false false
                     false (Some (lit "hi")) [])
                  [Memory.mkCall (lit "u1") (lit "Ann") 0 0 false false false
                     false (Some (lit "hi")) []]
                  (Memory.mk ∅ None 0))).
  done.
Defined.

(** ** SpeechState *)

Section SpeechFacts.
Import Speech.

(** Exactly one of the two events is set. *)
Definition one_flag (s : SpeechState) : Prop := _ended s = negb (_started s).

Lemma on_frame_one_flag f s s' :
  one_flag s -> on_frame f s = Some s' -> one_flag s'.
Proof.
  intros H. destruct f as [| |a e]; simpl; [by intros [= <-]|done|].
  destruct (is_str _ _); [by intros [= <-]|].
  destruct (is_str _ _); by intros [= <-].
Qed.

Lemma last_cons_default {A} (x d : A) l : List.last (x :: l) d = List.last l x.
Proof.
  revert x d. induction l as [|y l IH]; intros x d; [done|].
  change (List.last (x :: y :: l) d) with (List.last (y :: l) d).
  rewrite IH. symmetry. apply IH.
Qed.

Lemma receive_speaking frames : forall s,
  one_flag s ->
  one_flag (receive frames s) /\
  is_speaking (receive frames s)
  = List.last (speech_actions frames) (is_speaking s).
Proof.
  induction frames as [|f frames IH]; intros s Hs; [done|].
  destruct f as [| |a e]; cbn [receive on_frame speech_actions].
  - by apply IH.
  - done.
  - destruct (is_str _ (lit "ChatbotSpeechStarted")).
    + destruct (IH (mark_started s) eq_refl) as [H1 ->]. split; [done|].
      by rewrite last_cons_default.
    + destruct (is_str _ _).
      * destruct (IH (mark_ended s) eq_refl) as [H1 ->]. split; [done|].
        by rewrite last_cons_default.
      * by apply IH.
Qed.

(** X14.  Whatever frames arrive, from a new [SpeechState]: exactly one of
    the two events is set, so [wait_idle] returns at once exactly when
    [is_speaking] is false; [is_speaking] is true exactly when the last
    speech action received was a start; and when the handler ends, the
    state is idle. *)
Theorem speech_follows_the_last_action (frames : list frame) :
  let s := receive frames init in
  _ended s = negb (_started s) /\
  idle_now s = negb (is_speaking s) /\
  is_speaking s = List.last (speech_actions frames) false /\
  is_speaking (handle_animaze_messages frames init) = false /\
  idle_now (handle_animaze_messages frames init) = true.
Proof.
  intros s. destruct (receive_speaking frames init eq_refl) as [H1 H2].
  fold s in H1, H2. split; [done|]. split.
  - unfold idle_now, is_speaking. rewrite H1. by destruct (_started s).
  - split; [done|]. done.
Qed.

End SpeechFacts.

(** ** load_settings *)

Section SettingsFacts.
Import Settings.
Context {L : Type}.

Lemma merge_dict (a : json L) items :
  merge a (JDict items) = merge_items a items.
Proof.
  revert a. induction items as [|[k v] items IH]; intros a; [done|].
  simpl. destruct a as [x|d]; [done|]. destruct v as [y|sub].
  - apply IH.
  - destruct (merge _ _); [apply IH|done].
Qed.

Lemma lookup_set_eq k (v : json L) d : lookup k (set k v d) = Some v.
Proof.
  induction d as [|[k' v'] d IH]; simpl.
  - by rewrite bool_decide_eq_true_2.
  - case_bool_decide as E; simpl.
    + by rewrite bool_decide_eq_true_2.
    + by rewrite bool_decide_eq_false_2.
Qed.

Lemma lookup_set_ne k k0 (v : json L) d :
  k <> k0 -> lookup k0 (set k v d) = lookup k0 d.
Proof.
  intros Hne. induction d as [|[k' v'] d IH]; simpl.
  - by rewrite bool_decide_eq_false_2.
  - case_bool_decide as E; simpl.
    + subst k'. by rewrite !bool_decide_eq_false_2.
    + by rewrite IH.
Qed.

Lemma lookup_app k (d1 d2 : list (str * json L)) :
  lookup k (d1 ++ d2)
  = match lookup k d1 with Some v => Some v | None => lookup k d2 end.
Proof.
  induction d1 as [|[k' v'] d1 IH]; simpl; [done|]. by case_bool_decide.
Qed.

Lemma lookup_setdefault_some k k0 (v w : json L) d :
  lookup k0 d = Some w -> lookup k0 (setdefault k v d) = Some w.
Proof.
  intros H. unfold setdefault. destruct (lookup k d); [done|].
  by rewrite lookup_app, H.
Qed.

Lemma lookup_setdefault_ne k k0 (v : json L) d :
  k <> k0 -> lookup k0 (setdefault k v d) = lookup k0 d.
Proof.
  intros Hne. unfold setdefault. destruct (lookup k d); [done|].
  rewrite lookup_app. destruct (lookup k0 d); [done|]. simpl.
  by rewrite bool_decide_eq_false_2.
Qed.

Lemma lookup_setdefault_new k (v : json L) d :
  lookup k d = None -> lookup k (setdefault k v d) = Some v.
Proof.
  intros H. unfold setdefault. rewrite H, lookup_app, H. simpl.
  by rewrite bool_decide_eq_true_2.
Qed.

(** [merge] keeps what [a] holds of leaves. *)
Definition keeps_leaves (a m : json L) : Prop :=
  forall path x, get path a = Some (JLeaf x) -> get path m = Some (JLeaf x).

(** [merge] fills in the leaves of [b] that [a] has nothing for. *)
Definition fills_in (a b m : json L) : Prop :=
  forall path x, get path b = Some (JLeaf x) -> get path a = None ->
                 get path m = Some (JLeaf x).

Lemma merge_items_keeps items :
  Forall (fun kv => forall a m, merge a (snd kv) = Some m -> keeps_leaves a m)
         items ->
  forall a m, merge_items a items = Some m -> keeps_leaves a m.
Proof.
  induction 1 as [|[k v] items Hv _ IH]; intros a m; simpl.
  - intros [= <-] path x Hp. exact Hp.
  - destruct a as [x|d]; [done|]. simpl in Hv. destruct v as [y|sub].
    + intros Hm. apply IH in Hm. intros path x Hp. apply Hm.
      destruct path as [|k0 p]; [done|]. simpl in *.
      destruct (lookup k0 d) as [w|] eqn:E; [|done].
      by rewrite (lookup_setdefault_some _ _ _ w).
    + destruct (merge _ (JDict sub)) as [m1|] eqn:E1; [|done].
      intros Hm. apply IH in Hm. apply Hv in E1.
      intros path x Hp. apply Hm.
      destruct path as [|k0 p]; [done|]. simpl in *.
      destruct (decide (k = k0)) as [->|Hne].
      * rewrite lookup_set_eq. destruct (lookup k0 d) as [w|]; [|done].
        by apply E1.
      * by rewrite lookup_set_ne.
Qed.

Lemma merge_keeps (b : json L) : forall a m,
  merge a b = Some m -> keeps_leaves a m.
Proof.
  revert b. fix IH 1. intros [y|items] a m; [done|]. rewrite merge_dict.
  apply merge_items_keeps.
  induction items as [|[k v] items IHi]; constructor; [|done].
  simpl. apply IH.
Qed.

Lemma get_nil_dict path (x : L) : get path (JDict []) <> Some (JLeaf x).
Proof. by destruct path. Qed.

Lemma merge_items_fills items :
  Forall (fun kv => forall a m, merge a (snd kv) = Some m ->
                                fills_in a (snd kv) m) items ->
  forall a m, merge_items a items = Some m -> fills_in a (JDict items) m.
Proof.
  induction 1 as [|[k v] items Hv _ IH]; intros a m; simpl.
  - intros _ [|k0 p] x; done.
  - destruct a as [x|d]; [done|]. simpl in Hv.
    intros Hm [|k0 p] x Hb Ha; [done|]. simpl in Hb, Ha.
    case_bool_decide as Hk.
    + subst k0. destruct v as [y|sub].
      * destruct p; [|done]. simpl in Hb. injection Hb as ->.
        destruct (lookup k d) as [w|] eqn:Ed; [done|].
        pose proof (merge_items_keeps items) as Hkeep.
        assert (Hall : Forall (fun kv => forall a m,
                   merge a (snd kv) = Some m -> keeps_leaves a m) items).
        { apply List.Forall_forall. intros kv _ a0 m0. apply merge_keeps. }
        apply (Hkeep Hall _ _ Hm [k] x). simpl.
        by rewrite lookup_setdefault_new.
      * destruct (merge _ (JDict sub)) as [m1|] eqn:E1; [|done].
        assert (Hall : Forall (fun kv => forall a m,
                   merge a (snd kv) = Some m -> keeps_leaves a m) items).
        { apply List.Forall_forall. intros kv _ a0 m0. apply merge_keeps. }
        apply (merge_items_keeps items Hall _ _ Hm (k :: p) x). simpl.
        rewrite lookup_set_eq. apply (Hv _ _ E1 p x Hb).
        destruct (lookup k d) as [w|]; simpl; [done|].
        destruct p as [|k1 p]; [|done]. simpl in Hb. done.
    + destruct v as [y|sub].
      * apply (IH _ _ Hm (k0 :: p) x); simpl; [done|].
        by rewrite lookup_setdefault_ne.
      * destruct (merge _ (JDict sub)) as [m1|] eqn:E1; [|done].
        apply (IH _ _ Hm (k0 :: p) x); simpl; [done|].
        by rewrite lookup_set_ne.
Qed.

Lemma merge_fills (b : json L) : forall a m,
  merge a b = Some m -> fills_in a b m.
Proof.
  revert b. fix IH 1. intros [y|items] a m; [done|]. rewrite merge_dict.
  apply merge_items_fills.
  induction items as [|[k v] items IHi]; constructor; [|done].
  simpl. apply IH.
Qed.

(** X15.  When [load_settings] returns with a settings file that was read:
    every setting of the file is in the result with the file's value, and
    every default setting that the file has nothing for is in the result
    with the default value.  Without a readable file the result is the
    defaults. *)
Theorem load_settings_keeps_file_and_fills_defaults
  (defaults cfg merged : json L) :
  load_settings defaults (Some (Some cfg)) = Some merged ->
  (forall path x, get path cfg = Some (JLeaf x) ->
                  get path merged = Some (JLeaf x)) /\
  (forall path x, get path defaults = Some (JLeaf x) ->
                  get path cfg = None ->
                  get path merged = Some (JLeaf x)) /\
  load_settings defaults None = Some defaults /\
  load_settings defaults (Some None) = Some defaults.
Proof.
  simpl. intros H. split; [by apply (merge_keeps defaults)|].
  split; [by apply merge_fills|done].
Qed.

End SettingsFacts.

Lemma load_settings_keeps_file_and_fills_defaults_witness :
  let defaults : Settings.json Z :=
    Settings.JDict [(lit "a", Settings.JLeaf 1);
                    (lit "s", Settings.JDict [(lit "x", Settings.JLeaf 2);
                                              (lit "y", Settings.JLeaf 3)])] in
  let cfg := Settings.JDict [(lit "s", Settings.JDict [(lit "x", Settings.JLeaf 9)])] in
  let merged :=
    Settings.JDict [(lit "s", Settings.JDict [(lit "x", Settings.JLeaf 9);
                                              (lit "y", Settings.JLeaf 3)]);
                    (lit "a", Settings.JLeaf 1)] in
  Settings.load_settings defaults (Some (Some cfg)) = Some merged /\
  Settings.get [lit "s"; lit "x"] merged = Some (Settings.JLeaf 9) /\
  Settings.get [lit "s"; lit "y"] merged = Some (Settings.JLeaf 3).
Proof.
  cbv zeta.
  assert (H : Settings.load_settings
            (Settings.JDict [(lit "a", Settings.JLeaf 1);
                             (lit "s", Settings.JDict [(lit "x", Settings.JLeaf 2);
                                                       (lit "y", Settings.JLeaf 3)])])
            (Some (Some (Settings.JDict
                           [(lit "s", Settings.JDict [(lit "x", Settings.JLeaf 9)])])))
          = Some (Settings.JDict
                    [(lit "s", Settings.JDict [(lit "x", Settings.JLeaf 9);
                                               (lit "y", Settings.JLeaf 3)]);
                     (lit "a", Settings.JLeaf 1)])).
  { vm_compute. reflexivity. }
  split; [exact H|].
  destruct (load_settings_keeps_file_and_fills_defaults _ _ _ H)
    as (Hkeep & Hfill & _).
  split.
  - apply Hkeep. vm_compute. reflexivity.
  - apply Hfill; vm_compute; reflexivity.
Defined.

(** ** process_comments: what one comment can lead to *)

Section PipelineAnswers.
Import Pipeline.

Variable rt : Runtime.

Local Ltac step lem :=
  apply post_bind; eapply post_mono; [apply lem|]; cbv beta.

Lemma post_conj {A} (m : M A) w (P Q : A -> World -> Prop) :
  post m w P -> post m w Q -> post m w (fun a w' => P a w' /\ Q a w').
Proof. unfold post. intros HP HQ a w' E. split; eauto. Qed.

(** The comment queue is as it was. *)
Definition same_queue (w w' : World) : Prop :=
  comment_queue w' = comment_queue w.

Lemma same_queue_trans w w1 w2 :
  same_queue w w1 -> same_queue w1 w2 -> same_queue w w2.
Proof. unfold same_queue. congruence. Qed.

Lemma time_time_queue w : post (time_time rt) w (fun _ w' => same_queue w w').
Proof. by intros a w' [= <- <-]. Qed.

Lemma sleep_queue d w : post (sleep d) w (fun _ w' => same_queue w w').
Proof. by intros a w' [= <- <-]. Qed.

Lemma touch_viewer_queue u n w :
  post (touch_viewer rt u n) w (fun _ w' => same_queue w w').
Proof. by intros a w' [= <- <-]. Qed.

Lemma mem_user_queue u w :
  post (_mem_user rt u) w (fun _ w' => same_queue w w').
Proof.
  unfold post, _mem_user, bind, gets, modify, ret.
  intros a w'. destruct (users w !! u); by intros [= <- <-].
Qed.

Lemma set_last_greet_queue u r now w :
  post (set_last_greet u r now) w (fun _ w' => same_queue w w').
Proof. by intros a w' [= <- <-]. Qed.

Lemma bucket_take_queue w :
  post (bucket_take rt) w (fun _ w' => same_queue w w').
Proof.
  unfold post, bucket_take. intros a w'.
  destruct (TokenBucket.take _ _ _ _); try done. by intros [= <- <-].
Qed.

Lemma wait_global_queue w :
  post (wait_global rt) w (fun _ w' => same_queue w w').
Proof.
  unfold post, wait_global, bind, gets, time_time, sleep, modify, ret.
  intros a w'. simpl. destruct (Qltb _ _); by intros [= <- <-].
Qed.

Lemma batcher_add_queue l f w :
  post (batcher_add rt l f) w (fun _ w' => same_queue w w').
Proof.
  unfold post, batcher_add. intros a w'.
  destruct (batcher w); [|by intros [= <- <-]].
  destruct (Outbox.add _ _ _ _ _). by intros [= <- <-].
Qed.

Lemma set_cooldowns_queue l u w :
  post (set_cooldowns rt l u) w (fun _ w' => same_queue w w').
Proof. by intros a w' [= <- <-]. Qed.

Lemma reply_to_comment_queue response n t u w :
  post (reply_to_comment response n t u) w (fun _ w' => same_queue w w').
Proof.
  unfold post, reply_to_comment, bind, modify, ret. intros a w'.
  destruct response; [destruct (_ <? _)|]; by intros [= <- <-].
Qed.

Lemma greeting_path_queue l it now w :
  post (greeting_path rt l it now) w (fun _ w' => same_queue w w').
Proof using Type.
  unfold greeting_path. destruct (_ && _); [|by apply post_ret].
  step mem_user_queue. intros u w1 H1.
  destruct (Qleb _ _); [|by apply post_ret].
  step set_last_greet_queue. intros _ w2 H2.
  step bucket_take_queue. intros _ w3 H3.
  step wait_global_queue. intros _ w4 H4.
  step batcher_add_queue. intros _ w5 H5.
  step set_cooldowns_queue. intros _ w6 H6.
  apply post_ret. unfold same_queue in *. congruence.
Qed.

Lemma thanks_path_queue l it w :
  post (thanks_path rt l it) w (fun _ w' => same_queue w w').
Proof using Type.
  unfold thanks_path.
  step bucket_take_queue. intros _ w3 H3.
  step wait_global_queue. intros _ w4 H4.
  step batcher_add_queue. intros _ w5 H5.
  eapply post_mono; [apply set_cooldowns_queue|]. cbv beta.
  intros _ w6 H6. unfold same_queue in *. congruence.
Qed.

Lemma reply_path_queue l it response w :
  post (reply_path rt l it response) w (fun _ w' => same_queue w w').
Proof using Type.
  unfold reply_path.
  step bucket_take_queue. intros _ w3 H3.
  step wait_global_queue. intros _ w4 H4.
  step reply_to_comment_queue. intros reply w5 H5.
  step (gets_spec batcher). intros ob w6 [-> ->].
  assert (H : same_queue w w5) by (unfold same_queue in *; congruence).
  destruct reply as [r|]; [|by apply post_ret].
  destruct (batcher w5); [|by apply post_ret].
  destruct (truthy r); [|by apply post_ret].
  step batcher_add_queue. intros _ w7 H7.
  eapply post_mono; [apply set_cooldowns_queue|]. cbv beta.
  intros _ w8 H8. unfold same_queue in *. congruence.
Qed.

(** What the body can hand to the batcher for an item, with the number of
    text-generation calls it makes for it. *)
Definition answer (it : Item) (response : option str)
  (adds : list str) (gens : nat) : Prop :=
  (adds = [] /\ (gens <= 1)%nat)
  \/ (adds = [nick it ++ lit " sagt hallo"] /\ gens = 0%nat)
  \/ (adds = [nick it ++ lit " bedankt sich"] /\ gens = 0%nat)
  \/ (exists r, response <> None /\ r <> [] /\ gens = 1%nat /\
        adds = [lit "@" ++ nick it ++ lit ": " ++ text it ++ lit " "
                ++ [arrow] ++ lit " " ++ r]).

Lemma touch_viewer_tick u n w :
  post (touch_viewer rt u n) w
    (fun _ w' => tick w' = S (tick w) /\ trace w' = trace w).
Proof. by intros a w' [= <- <-]. Qed.

Lemma time_time_now w :
  post (time_time rt) w
    (fun now w' => now = clock rt (tick w) /\ trace w' = trace w).
Proof. by intros a w' [= <- <-]. Qed.

(** The body that starts in [w] defers the comment [it]: its text passes
    the tests of line 660, and the reading of line 659 (the second one
    after [w]; [touch_viewer] takes the first) is before the time to which
    the per-user cooldown of its user runs. *)
Definition deferred (l : Locals) (it : Item) (w : World) : bool :=
  negb ((len (text it) <? min_len l)
        || Relevance.is_ignored (lower rt) (url_re rt) (scorer l) (text it))
  && Qltb (clock rt (S (tick w)))
          (default 0%Q (per_user_until_local w !! uid it)).

(** X16.  A run of the loop body that comes to its end, with the batcher in
    place, hands at most one fragment to the batcher and makes at most one
    text-generation call: nothing, the greeting line, the thanks line, or
    (after one call that succeeded) the reply line.  Exactly when the
    comment is deferred (its text passes line 660 and its user is in the
    per-user cooldown at the reading of line 659), the body sleeps 0.05 s,
    puts the item back at the end of the comment queue, and hands over and
    generates nothing; in every other case the comment queue is as the
    body found it, so the item is not taken up again. *)
Theorem body_answers_at_most_once
  (l : Locals) (it : Item) (response : option str) (w w' : World)
  (b : Outbox.OutboxBatcher) :
  batcher w = Some b ->
  body rt l it response w = Ok tt w' ->
  exists evs,
    trace w' = trace w ++ evs /\
    answer it response (added evs) (generated evs) /\
    (if deferred l it w
     then comment_queue w' = comment_queue w ++ [it] /\
          evs = [EvSleep (5 # 100)]
     else comment_queue w' = comment_queue w).
Proof using Type.
  intros Hb Hrun.
  enough (H : post (body rt l it response) w
            (fun _ w' => exists evs,
               trace w' = trace w ++ evs /\
               answer it response (added evs) (generated evs) /\
               (if deferred l it w
                then comment_queue w' = comment_queue w ++ [it] /\
                     evs = [EvSleep (5 # 100)]
                else same_queue w w'))).
  { exact (H tt w' Hrun). }
  clear Hrun w'. unfold body.
  step (post_conj _ _ _ _
          (post_conj _ _ _ _ (touch_viewer_spec rt (uid it) (nick it) w)
             (touch_viewer_queue (uid it) (nick it) w))
          (touch_viewer_tick (uid it) (nick it) w)).
  intros _ w1 [[H1 Q1] [T1 E1]].
  step (post_conj _ _ _ _
          (post_conj _ _ _ _ (time_time_spec rt w1) (time_time_queue w1))
          (time_time_now w1)).
  intros now w2 [[H2 Q2] [-> E2]]. rewrite T1.
  assert (H12 := silent_trans _ _ _ H1 H2).
  assert (Q12 := same_queue_trans _ _ _ Q1 Q2).
  assert (Hb2 : batcher w2 = Some b) by eauto using silent_outbox.
  assert (Hpu : per_user_until_local w2 = per_user_until_local w).
  { by destruct H12 as (_ & (_ & Hp & _) & _). }
  assert (Hquiet : forall w3 g, appended w w3 [] g -> (g <= 1)%nat ->
            same_queue w w3 ->
            exists evs,
              trace w3 = trace w ++ evs /\
              answer it response (added evs) (generated evs) /\
              same_queue w w3).
  { intros w3 g (evs & Ht & Ha & Hg) Hle Hq. exists evs.
    split; [done|]. split; [|done]. left. rewrite Ha, Hg. by split. }
  assert (Hsaid : forall w3 adds g, appended w w3 adds g ->
            answer it response adds g -> same_queue w w3 ->
            exists evs,
              trace w3 = trace w ++ evs /\
              answer it response (added evs) (generated evs) /\
              same_queue w w3).
  { intros w3 adds g (evs & Ht & Ha & Hg) Hans Hq. exists evs.
    split; [done|]. split; [|done]. by rewrite Ha, Hg. }
  unfold deferred.
  destruct (_ || _); cbn [negb andb].
  { apply post_ret. destruct H12 as (Ha & _).
    apply (Hquiet w2 0%nat); [done|lia|done]. }
  step (gets_spec per_user_until_local). intros cooling w3 [-> ->].
  rewrite Hpu.
  destruct (Qltb _ _).
  { intros [] w4 [= <-].
    exists [EvSleep (5 # 100)]. split; [|split; [|split]].
    - cbn. by rewrite E2, E1.
    - left. split; [done|]. unfold generated. simpl. lia.
    - cbn. by rewrite Q12.
    - done. }
  step (post_conj _ _ _ _
          (greeting_path_spec rt l it (clock rt (S (tick w))) w2 b Hb2)
          (greeting_path_queue l it (clock rt (S (tick w))) w2)).
  intros quick w3 [H3 Q3].
  assert (Q123 := same_queue_trans _ _ _ Q12 Q3).
  destruct quick.
  { apply post_ret.
    apply (Hsaid w3 [nick it ++ lit " sagt hallo"] 0%nat);
      [by eapply appended_silent_l | right; by left | done]. }
  assert (H123 := silent_trans _ _ _ H12 H3).
  assert (Hb3 : batcher w3 = Some b) by eauto using silent_outbox.
  destruct (_ && _).
  { eapply post_mono;
      [apply (post_conj _ _ _ _ (thanks_path_spec rt l it w3 b Hb3)
                (thanks_path_queue l it w3))|].
    cbv beta. intros _ w4 [H4 Q4].
    apply (Hsaid w4 [nick it ++ lit " bedankt sich"] 0%nat);
      [by eapply appended_silent_l | right; right; by left
      | by eapply same_queue_trans]. }
  destruct (_ <=? _)%float.
  2:{ apply post_ret. destruct H123 as (Ha & _).
      apply (Hquiet w3 0%nat); [done|lia|done]. }
  eapply post_mono;
    [apply (post_conj _ _ _ _ (reply_path_spec rt l it response w3 b Hb3)
              (reply_path_queue l it response w3))|].
  cbv beta. intros _ w4 [[(r & Hresp & Hr & H4)|(H4 & Ht4 & Ho4)] Q4].
  - eapply (Hsaid w4 _ 1%nat);
      [eapply appended_silent_l; [exact H123 | exact H4]
      | right; right; right; by exists r
      | by eapply same_queue_trans].
  - destruct H123 as (Ha & _).
    apply (Hquiet w4 1%nat); [|lia|by eapply same_queue_trans].
    apply (appended_trans w w3 w4 [] [] 0 1 Ha H4).
Qed.

End PipelineAnswers.

(** X16 on the default settings in a fresh world: the comment "danke dir"
    of a user who is in no cooldown is answered with the thanks line, and
    the comment queue stays as it was. *)
Lemma body_answers_at_most_once_witness :
  let rt := Pipeline.ascii_runtime in
  let l := Pipeline.startup rt Pipeline.default_cfg in
  let it := Pipeline.mkItem (lit "u1") (lit "Anna") (lit "danke dir") in
  let w := Pipeline.fresh_world rt Pipeline.default_cfg in
  let w' := Pipeline.after_body rt l it None w in
  exists evs,
    Pipeline.trace w' = Pipeline.trace w ++ evs /\
    answer it None (Pipeline.added evs) (Pipeline.generated evs) /\
    (if deferred rt l it w
     then Pipeline.comment_queue w' = Pipeline.comment_queue w ++ [it] /\
          evs = [Pipeline.EvSleep (5 # 100)]
     else Pipeline.comment_queue w' = Pipeline.comment_queue w).
Proof.
  apply (body_answers_at_most_once Pipeline.ascii_runtime
           (Pipeline.startup Pipeline.ascii_runtime Pipeline.default_cfg)
           (Pipeline.mkItem (lit "u1") (lit "Anna") (lit "danke dir"))
           None
           (Pipeline.fresh_world Pipeline.ascii_runtime Pipeline.default_cfg)
           _ (Outbox.init 8 8 320 Outbox.default_sep)).
  - reflexivity.
  - vm_compute. reflexivity.
Defined.

(** A comment of a user whose per-user cooldown runs to reading 2000 is put
    back when the body, at reading 1002, comes to it: the body sleeps and
    does nothing else. *)
Example comment_in_cooldown_is_put_back :
  let rt := Pipeline.ascii_runtime in
  let l := Pipeline.startup rt Pipeline.default_cfg in
  let it := Pipeline.mkItem (lit "u1") (lit "Anna") (lit "danke dir") in
  let w := Pipeline.set_per_user_until_local {[ lit "u1" := 2000%Q ]}
             (Pipeline.fresh_world rt Pipeline.default_cfg) in
  deferred rt l it w = true /\
  Pipeline.comment_queue (Pipeline.after_body rt l it None w) = [it] /\
  Pipeline.trace (Pipeline.after_body rt l it None w)
  = [Pipeline.EvSleep (5 # 100)].
Proof. split; [|split]; vm_compute; reflexivity. Qed.

(** ** Joins: greeting and announcing *)

Section JoinsFacts.
Import Joins.

Variable clock : nat -> Q.
Variable str_of_int : Z -> str.
Variable s : settings.

Abbreviation touch_viewer := (Joins.touch_viewer clock).
Abbreviation remember_event := (Joins.remember_event clock s).
Abbreviation batcher_add := (Joins.batcher_add clock s).
Abbreviation greet := (Joins.greet clock s).
Abbreviation schedule_greeting := (Joins.schedule_greeting clock s).
Abbreviation handle_event := (Joins.handle_event clock str_of_int s).
Abbreviation process_event_batch_turn :=
  (Joins.process_event_batch_turn clock str_of_int s).
Abbreviation join_announcer_turn := (Joins.join_announcer_turn clock s).
Abbreviation run := (Joins.run clock str_of_int s).

(** The viewer [uid] is marked as greeted. *)
Definition greeted_in (w : World) (uid : str) : Prop :=
  exists v, viewers w !! uid = Some v /\ Pipeline.greeted v = true.

Lemma touch_viewer_greeted uid nick w who :
  greeted_in w who -> greeted_in (snd (touch_viewer uid nick w)) who.
Proof.
  intros (v & Hv & Hg). unfold greeted_in, Joins.touch_viewer.
  cbn [snd viewers set_viewers set_tick].
  destruct (decide (uid = who)) as [->|Hne].
  - rewrite Hv. eexists. rewrite lookup_insert_eq. split; [done|].
    simpl. by destruct (truthy nick).
  - exists v. by rewrite lookup_insert_ne.
Qed.

Lemma remember_event_viewers c w :
  viewers (world_of (remember_event c w)) = viewers w.
Proof.
  unfold Joins.remember_event. by destruct (Memory.remember_event _ _ _ _).
Qed.

Lemma batcher_add_viewers text w : viewers (batcher_add text w) = viewers w.
Proof.
  unfold Joins.batcher_add. destruct (batcher w); [|done].
  by destruct (Outbox.add _ _ _ _ _).
Qed.

Lemma handle_event_greeted evt w who :
  greeted_in w who -> greeted_in (world_of (handle_event evt w)) who.
Proof using Type.
  intros H. unfold Joins.handle_event.
  destruct (negb (truthy _)); [done|].
  match goal with
  | |- context [touch_viewer ?u ?n w] =>
      pose proof (touch_viewer_greeted u n w who H) as H1;
      set (w1 := snd (touch_viewer u n w)) in *
  end.
  assert (Hadd : forall c text,
            greeted_in
              (world_of match remember_event c w1 with
                        | Done w => Done (batcher_add text w)
                        | Threw w => Threw w
                        end) who).
  { intros c text. pose proof (remember_event_viewers c w1) as Hv.
    destruct (remember_event c w1) as [w2|w2]; simpl in *.
    - unfold greeted_in. by rewrite batcher_add_viewers, Hv.
    - unfold greeted_in. by rewrite Hv. }
  destruct (Listener.what evt) as [c|n k| | |c| |]; try done; try apply Hadd.
  - destruct (_ <=? _); [apply Hadd|done].
  - match goal with
    | |- context [remember_event ?c w1] =>
        pose proof (remember_event_viewers c w1) as Hv;
        destruct (remember_event c w1) as [w2|w2]
    end; simpl in *.
    + destruct (_ =? 0); unfold greeted_in; simpl; by rewrite Hv.
    + unfold greeted_in. by rewrite Hv.
Qed.

Lemma batch_greeted done w who :
  greeted_in w who -> greeted_in (process_event_batch_turn done w) who.
Proof using Type.
  revert w. induction done as [|evt done IH]; intros w H; [done|].
  simpl. pose proof (handle_event_greeted evt w who H) as H1.
  destruct (handle_event evt w); simpl in H1; [by apply IH|done].
Qed.

Lemma mem_user_viewers uid w u w' :
  Joins._mem_user clock s uid w = inl (u, w') -> viewers w' = viewers w.
Proof.
  unfold Joins._mem_user. destruct (Memory._mem_user _ _ _ _) as [[u0 m]|]; [|done].
  by intros [= <- <-].
Qed.

Lemma mem_user_viewers_r uid w w' :
  Joins._mem_user clock s uid w = inr w' -> viewers w' = viewers w.
Proof.
  unfold Joins._mem_user. destruct (Memory._mem_user _ _ _ _) as [[u0 m]|]; [done|].
  by intros [= <-].
Qed.

Lemma greet_greeted uid w who :
  greeted_in w who -> greeted_in (greet uid w) who.
Proof using Type.
  intros H. unfold Joins.greet.
  destruct (viewers w !! uid) as [v|] eqn:Ev; [|done].
  destruct (Pipeline.greeted v) eqn:Eg; [done|].
  destruct (Joins._mem_user clock s uid w) as [[u w1]|w1] eqn:Em.
  2:{ apply mem_user_viewers_r in Em. unfold greeted_in. by rewrite Em. }
  apply mem_user_viewers in Em.
  assert (H1 : greeted_in w1 who) by (unfold greeted_in; by rewrite Em).
  destruct (Qltb _ _); [done|].
  unfold Joins.should_consider_present. cbn [viewers set_tick].
  destruct (viewers w1 !! uid) as [v1|]; simpl; [|done].
  destruct (Qleb _ _); simpl; [|done].
  destruct H1 as (v0 & Hv0 & Hg0). unfold greeted_in. simpl.
  destruct (decide (uid = who)) as [->|Hne].
  - eexists. by rewrite lookup_insert_eq.
  - exists v0. by rewrite lookup_insert_ne.
Qed.

Lemma announcer_viewers sp m lo w :
  viewers (join_announcer_turn sp m lo w) = viewers w.
Proof.
  unfold Joins.join_announcer_turn. destruct (batcher w); [|done].
  destruct (_ || _); [done|]. case_bool_decide; [done|].
  destruct (Qltb _ _); [done|]. cbn [last_join_announce_ts set_tick].
  destruct (Qltb _ _); [done|].
  destruct (names_of _); [done|]. simpl.
  by rewrite batcher_add_viewers.
Qed.

Lemma run_greeted ops : forall w who,
  greeted_in w who -> greeted_in (run ops w) who.
Proof using Type.
  unfold Joins.run. induction ops as [|o ops IH]; intros w who H; [done|].
  simpl. apply IH. destruct o as [done|uid|sp m lo]; simpl.
  - by apply batch_greeted.
  - unfold Joins.schedule_greeting. destruct (_ =? 0); [done|].
    apply (greet_greeted uid) in H. by destruct H as (v & Hv & Hg); exists v.
  - unfold greeted_in. by rewrite announcer_viewers.
Qed.

(** X17.  Once [schedule_greeting] has marked a viewer as greeted, the
    viewer stays marked whatever events are handled, greetings run and
    announcer turns are taken, and every later [schedule_greeting] for the
    viewer leaves the viewers, the memory, the pending joins and the clock
    as they are: it only drops its own entry of [greet_tasks]. *)
Theorem viewer_is_greeted_at_most_once
  (uid : str) (ops : list op) (w : World) :
  greeted_in w uid ->
  let w' := run ops w in
  greeted_in w' uid /\
  schedule_greeting uid w'
  = if enabled (rules s) =? 0 then w'
    else set_greet_tasks (greet_tasks w' ∖ {[uid]}) w'.
Proof using Type.
  intros H w'. pose proof (run_greeted ops w uid H) as H'. fold w' in H'.
  split; [done|]. unfold Joins.schedule_greeting.
  destruct (_ =? 0); [done|]. unfold Joins.greet.
  destruct H' as (v & -> & ->). done.
Qed.

(** *** One join, two announcements *)



Hypothesis joins_on : enabled (rules s) <> 0.


Hypothesis memory_on : Memory.enabled (memory s) <> 0.
Hypothesis history_size : 0 <= Memory.per_user_history (memory s).



End JoinsFacts.

Lemma viewer_is_greeted_at_most_once_witness :
  let clock := fun i : nat => inject_Z (1000 + Z.of_nat i) in
  let s := Joins.mkSettings (Joins.mkRules 1 30 45 25 180) 360 20
             (Memory.mkCfg 1 100 90) 140 in
  let uid := lit "u1" in
  let w := Joins.mkWorld 0
             {[uid := Pipeline.mkViewer (lit "Ann") 0 0 true]} ∅ None None []
             ∅ {[uid]} 0 [] in
  let ops := [Joins.Events
                [Listener.mkEvent (Listener.mkUser uid [] (lit "Ann"))
                   Listener.Join];
              Joins.Announce false false 0] in
  let w' := Joins.run clock (fun _ => lit "1") s ops w in
  greeted_in w' uid /\
  Joins.schedule_greeting clock s uid w'
  = Joins.set_greet_tasks (Joins.greet_tasks w' ∖ {[uid]}) w'.
Proof.
  cbv zeta.
  apply (viewer_is_greeted_at_most_once
           (fun i : nat => inject_Z (1000 + Z.of_nat i)) (fun _ => lit "1")
           (Joins.mkSettings (Joins.mkRules 1 30 45 25 180) 360 20
              (Memory.mkCfg 1 100 90) 140)
           (lit "u1")
           [Joins.Events
              [Listener.mkEvent (Listener.mkUser (lit "u1") [] (lit "Ann"))
                 Listener.Join];
            Joins.Announce false false 0]
           (Joins.mkWorld 0
              {[lit "u1" := Pipeline.mkViewer (lit "Ann") 0 0 true]} ∅ None
              None [] ∅ {[lit "u1"]} 0 [])).
  eexists. split; [apply lookup_singleton_eq | reflexivity].
Defined.


(** ** The listener: the gate of the follow handler *)

Section FollowGate.

Variable lower : str -> str.
Variable url_re : str -> bool.
Variable sha1_hexdigest : str -> str.
Variable str_of_int : Z -> str.
Variable clock : nat -> Q.
Variable min_len : Z.
Variable scorer : Relevance.t.
Variable global_cooldown : Z.

Abbreviation dispatch :=
  (Listener.dispatch lower url_re sha1_hexdigest str_of_int clock min_len
     scorer global_cooldown).
Abbreviation deliver_all :=
  (deliver lower url_re sha1_hexdigest str_of_int clock min_len scorer
     global_cooldown).

Definition is_follow (evt : Listener.LiveEvent) : bool :=
  match Listener.what evt with Listener.Follow => true | _ => false end.

Lemma seen_follow_last sig st :
  Listener.follow_last (snd (Listener.seen clock sig st))
  = Listener.follow_last st.
Proof. unfold Listener.seen. by destruct (EventDeduper.seen _ _ _). Qed.

Lemma dispatch_follow_last evt st :
  is_follow evt = false ->
  Listener.follow_last (dispatch evt st) = Listener.follow_last st.
Proof using Type.
  unfold is_follow, Listener.dispatch.
  destruct evt as [u [c|n k| | |c| |]]; cbn [Listener.what Listener.user];
    intros Hf; try done.
  - unfold Listener.on_comment. destruct (_ || _); [done|].
    destruct (negb _); [done|].
    match goal with
    | |- context [Listener.seen clock ?sg st] =>
        pose proof (seen_follow_last sg st) as H;
        destruct (Listener.seen clock sg st) as [dup st']
    end. simpl in H. by destruct dup.
  - unfold Listener.on_gift.
    match goal with
    | |- context [Listener.seen clock ?sg st] =>
        pose proof (seen_follow_last sg st) as H;
        destruct (Listener.seen clock sg st) as [dup st']
    end. simpl in H. by destruct dup.
  - unfold Listener.on_subscribe.
    match goal with
    | |- context [Listener.seen clock ?sg st] =>
        pose proof (seen_follow_last sg st) as H;
        destruct (Listener.seen clock sg st) as [dup st']
    end. simpl in H. by destruct dup.
  - unfold Listener.on_share.
    match goal with
    | |- context [Listener.seen clock ?sg st] =>
        pose proof (seen_follow_last sg st) as H;
        destruct (Listener.seen clock sg st) as [dup st']
    end. simpl in H. by destruct dup.
  - unfold Listener.on_join. destruct (negb _); [done|].
    match goal with
    | |- context [Listener.seen clock ?sg st] =>
        pose proof (seen_follow_last sg st) as H;
        destruct (Listener.seen clock sg st) as [dup st']
    end. simpl in H. by destruct dup.
Qed.

Lemma deliver_follow_last evts : forall st,
  forallb (fun e => negb (is_follow e)) evts = true ->
  Listener.follow_last (deliver_all evts st) = Listener.follow_last st.
Proof using Type.
  unfold deliver.
  induction evts as [|e evts IH]; intros st H; [done|].
  simpl in *. apply andb_true_iff in H as [He H].
  rewrite IH by done. apply dispatch_follow_last. by apply negb_true_iff.
Qed.

(** X19.  The follow handler lets at most one follow event through in
    [global_cooldown] seconds, whoever follows: after a follow event that
    passed the gate at reading [t], a follow event of any user that is
    delivered at a reading less than [global_cooldown] after [t] is
    dropped before the deduper is asked, whatever other events were handled
    in between. *)
Theorem follows_are_rate_limited
  (u1 u2 : Listener.UserInfo) (st : Listener.State)
  (between : list Listener.LiveEvent) :
  let first := Listener.mkEvent u1 Listener.Follow in
  let second := Listener.mkEvent u2 Listener.Follow in
  let t := clock (Listener.tick st) in
  let st1 := dispatch first st in
  let st2 := deliver_all between st1 in
  (inject_Z global_cooldown <= t - Listener.follow_last st)%Q ->
  forallb (fun e => negb (is_follow e)) between = true ->
  (clock (Listener.tick st2) - t < inject_Z global_cooldown)%Q ->
  Listener.follow_last st2 = t /\
  queues (dispatch second st2) = queues st2 /\
  Listener.deduper (dispatch second st2) = Listener.deduper st2.
Proof using Type.
  intros first second t st1 st2 Hpass Hbetween Hsoon.
  assert (H1 : Listener.follow_last st1 = t).
  { subst st1 first. unfold Listener.dispatch, Listener.on_follow.
    cbn [Listener.what Listener.follow_last Listener.tick].
    assert (Qltb (clock (Listener.tick st) - Listener.follow_last st)
              (inject_Z global_cooldown) = false) as ->
      by (by apply Qltb_ge).
    match goal with
    | |- context [Listener.seen clock ?sg ?s0] =>
        pose proof (seen_follow_last sg s0) as H;
        destruct (Listener.seen clock sg s0) as [dup st']
    end. simpl in H. by destruct dup. }
  assert (H2 : Listener.follow_last st2 = t).
  { subst st2. by rewrite deliver_follow_last. }
  split; [done|].
  subst second. unfold Listener.dispatch, Listener.on_follow.
  cbn [Listener.what Listener.follow_last Listener.tick]. rewrite H2.
  assert (Qltb (clock (Listener.tick st2) - t) (inject_Z global_cooldown)
          = true) as -> by (by apply Qltb_lt).
  done.
Qed.

End FollowGate.

Lemma follows_are_rate_limited_witness :
  let clock := fun i : nat => inject_Z (1000 + Z.of_nat i) in
  let d := Listener.dispatch ascii_lower (fun _ => false) (fun s => s)
             (fun _ => lit "1") clock 3
             (Relevance.init ascii_lower Relevance.default_conf) 6 in
  let u1 := Listener.mkUser (lit "u1") [] (lit "Ann") in
  let u2 := Listener.mkUser (lit "u2") [] (lit "Bob") in
  let st := Listener.mkState (EventDeduper.init 600) [] [] [] [] [] [] [] 0 0 in
  let st2 := d (Listener.mkEvent u1 (Listener.Like 3))
               (d (Listener.mkEvent u1 Listener.Follow) st) in
  Listener.follow_last st2 = 1000%Q /\
  queues (d (Listener.mkEvent u2 Listener.Follow) st2) = queues st2 /\
  Listener.deduper (d (Listener.mkEvent u2 Listener.Follow) st2)
  = Listener.deduper st2.
Proof.
  cbv zeta.
  apply (follows_are_rate_limited ascii_lower (fun _ => false) (fun s => s)
           (fun _ => lit "1") (fun i : nat => inject_Z (1000 + Z.of_nat i)) 3
           (Relevance.init ascii_lower Relevance.default_conf) 6
           (Listener.mkUser (lit "u1") [] (lit "Ann"))
           (Listener.mkUser (lit "u2") [] (lit "Bob"))
           (Listener.mkState (EventDeduper.init 600) [] [] [] [] [] [] [] 0 0)
           [Listener.mkEvent (Listener.mkUser (lit "u1") [] (lit "Ann"))
              (Listener.Like 3)]).
  - vm_compute. discriminate.
  - reflexivity.
  - vm_compute. reflexivity.
Defined.

(** ** Relevance: which comments reach the reply threshold *)

Section Thresholds.
Import Relevance.

Variable lower : str -> str.

(** X20.  With the default reply threshold 0.6 a comment reaches the
    threshold exactly when its normalised text holds a question mark: the
    other three bonuses add up to 0.5 at most.  With a configured
    threshold above 0.8, which [process_comments] replaces by 0.4, a
    comment reaches it exactly when it holds a question mark, or a key word
    and at least 7 characters: a key word and a punctuation mark alone give
    0.35 + 0.05, which is below 0.4 in binary64. *)
Theorem reply_threshold_reached (self : t) (text : str) (configured : float) :
  let low := strip (lower text) in
  let question := contains (lit "?") low in
  let keyword := existsb (fun k => contains k low) (kw_bonus self) in
  let long := 7 <=? len low in
  ((Pipeline.effective_threshold 0.6 <=? score lower self text)%float
   = question) /\
  ((0.8 <? configured)%float = true ->
   (Pipeline.effective_threshold configured
    <=? score lower self text)%float
   = question || (keyword && long)).
Proof.
  cbv zeta. unfold score, Pipeline.effective_threshold.
  destruct (contains (lit "?") _), (existsb _ (kw_bonus self)),
    (7 <=? len _), (existsb _ [lit ":"; lit ";"; lit "!"]);
    (split; [vm_compute; reflexivity | intros ->; vm_compute; reflexivity]).
Qed.

End Thresholds.
